(** * NeoN: Vector memory management and Gauss-Green divergence assembly

    A shallow embedding of
    - [include/NeoN/core/vector.hpp] (the owning buffer [Vector]), and
    - the free functions [computeDiv] and [computeDivImp] of the Gauss-Green
      divergence operator,
    together with the properties that the design document states about them.

    Modelling conventions.
    - [localIdx] is the unsigned 32-bit index type; an index is a value of [N]
      and every addition or subtraction that the source performs on indices is
      reduced modulo [2^32].
    - [scalar] is idealised as an exact rational number ([Qc]): the statements
      say which terms the source combines, with which sign and factor.  Where
      a property depends on rounding, the source is read over IEEE 754
      binary64 instead (module [Double]).  Only the [scalar] instantiation of
      the [ValueType] template parameter is covered.
    - A [View] is a bounds-known window on a buffer and is modelled by the list
      of its elements; an access outside of the window has no defined behaviour
      in the source and evaluates to [None] here. *)

From stdpp Require Import base numbers list option gmap strings.
From Stdlib Require Import QArith Qcanon.
From Stdlib Require Import Floats.PrimFloat.

Open Scope Qc_scope.

(** ** Primitive types *)

Definition localIdx := N.
Definition localIdx_modulus : N := 2 ^ 32.

(** Unsigned wrap-around of [localIdx] arithmetic. *)
Definition idx_add (a b : localIdx) : localIdx := ((a + b) mod localIdx_modulus)%N.
Definition idx_sub (a b : localIdx) : localIdx :=
  ((a + localIdx_modulus - b mod localIdx_modulus) mod localIdx_modulus)%N.

(** [scalar] names the exact rationals. *)
Abbreviation scalar := Qc.

(** [Executor] is the variant over the three backends. *)
Inductive Executor := SerialExecutor | CPUExecutor | GPUExecutor.

#[global] Instance Executor_eq_dec : EqDecision Executor.
Proof. solve_decision. Defined.

(** ** Views *)

Definition View (T : Type) := list T.

Definition vget {T} (v : View T) (i : localIdx) : option T := v !! N.to_nat i.

Definition vset {T} (v : View T) (i : localIdx) (x : T) : option (View T) :=
  if decide (N.to_nat i < length v)%nat then Some (<[N.to_nat i := x]> v) else None.

Definition vsize {T} (v : View T) : N := N.of_nat (length v).

(** ** Counted loops

    [forLoop lo hi body] is [for (localIdx i = lo; i < hi; i++) body(i)] for
    bounds that are representable as [localIdx]: the counter then never
    wraps. *)

Fixpoint forLoop_from {S} (n : nat) (i : localIdx) (body : localIdx → S → option S) (s : S)
  : option S :=
  match n with
  | O => Some s
  | Datatypes.S n' => s' ← body i s; forLoop_from n' (N.succ i) body s'
  end.

Definition forLoop {S} (lo hi : N) (body : localIdx → S → option S) (s : S) : option S :=
  forLoop_from (N.to_nat (hi - lo)) lo body s.

(** The indices visited by [forLoop lo hi], in ascending order. *)
Fixpoint indices_from (n : nat) (i : localIdx) : list localIdx :=
  match n with
  | O => []
  | Datatypes.S n' => i :: indices_from n' (N.succ i)
  end.

Definition indices (lo hi : N) : list localIdx := indices_from (N.to_nat (hi - lo)) lo.

(** ** Memory operations issued by a kernel

    The kernels of the divergence operator update their targets either with
    [Kokkos::atomic_add] / [Kokkos::atomic_sub] or with a plain compound
    assignment ([+=], [-=], [*=]).  A plain compound assignment is a load
    followed by a store. *)

Inductive Update :=
  | add_ (x : scalar)
  | sub_ (x : scalar)
  | mul_ (x : scalar).

Definition apply_update (u : Update) (r : scalar) : scalar :=
  match u with
  | add_ x => r + x
  | sub_ x => r - x
  | mul_ x => r * x
  end.

Inductive MemOp :=
  | Atomic (slot : localIdx) (u : Update)
  | Plain (slot : localIdx) (u : Update).

Definition op_slot (o : MemOp) : localIdx :=
  match o with Atomic a _ | Plain a _ => a end.

Definition op_update (o : MemOp) : Update :=
  match o with Atomic _ u | Plain _ u => u end.

Definition is_atomic (o : MemOp) : bool :=
  match o with Atomic _ _ => true | Plain _ _ => false end.

(** Execution of one operation to completion, without interference. *)
Definition run_op (o : MemOp) (mem : View scalar) : option (View scalar) :=
  r ← vget mem (op_slot o); vset mem (op_slot o) (apply_update (op_update o) r).

Fixpoint run_ops (ops : list MemOp) (mem : View scalar) : option (View scalar) :=
  match ops with
  | [] => Some mem
  | o :: ops' => mem' ← run_op o mem; run_ops ops' mem'
  end.

(** ** The parallel dispatch primitive

    A thread owns the operations of one iteration and a register that holds
    the value loaded by a plain compound assignment in progress.  A schedule
    is the sequence of thread numbers in which the threads take their steps;
    scheduling a thread that has finished is a stutter. *)

Record Thread := { reg : option scalar; pending : list MemOp }.

Definition thread_step (mem : View scalar) (t : Thread) : option (View scalar * Thread) :=
  match pending t with
  | [] => Some (mem, t)
  | Atomic a u :: k =>
      mem' ← run_op (Atomic a u) mem; Some (mem', {| reg := None; pending := k |})
  | Plain a u :: k =>
      match reg t with
      | None => r ← vget mem a; Some (mem, {| reg := Some r; pending := Plain a u :: k |})
      | Some r => mem' ← vset mem a (apply_update u r);
                  Some (mem', {| reg := None; pending := k |})
      end
  end.

Fixpoint run_schedule (sched : list nat) (mem : View scalar) (ts : list Thread)
  : option (View scalar * list Thread) :=
  match sched with
  | [] => Some (mem, ts)
  | tid :: sched' =>
      match ts !! tid with
      | None => run_schedule sched' mem ts
      | Some t => '(mem', t') ← thread_step mem t; run_schedule sched' mem' (<[tid := t']> ts)
      end
  end.

Definition finished (ts : list Thread) : Prop := Forall (λ t, pending t = []) ts.

(** The operations of the iterations of a range, one list per index. *)
Fixpoint kernel_ops (kernel : localIdx → option (list MemOp)) (idxs : list localIdx)
  : option (list (list MemOp)) :=
  match idxs with
  | [] => Some []
  | i :: idxs' => ops ← kernel i; rest ← kernel_ops kernel idxs'; Some (ops :: rest)
  end.

Definition new_thread (ops : list MemOp) : Thread := {| reg := None; pending := ops |}.

Definition launch (lo hi : N) (kernel : localIdx → option (list MemOp)) : option (list Thread) :=
  opss ← kernel_ops kernel (indices lo hi); Some (map new_thread opss).

(** Modelled from the spec: [parallelFor] on the sequential executor
    ([NeoN/core/parallelAlgorithms.hpp] is not part of the sources).  The
    indices are visited in ascending order on the calling thread. *)
Definition parallelFor_serial (lo hi : N) (kernel : localIdx → option (list MemOp))
    (mem : View scalar) : option (View scalar) :=
  forLoop lo hi (λ i mem, ops ← kernel i; run_ops ops mem) mem.

(** Modelled from the spec: [parallelFor]
    ([NeoN/core/parallelAlgorithms.hpp] is not part of the sources).  On a
    parallel executor the iterations of the range run as concurrent threads
    with an unspecified interleaving; atomic operations are indivisible; the
    dispatch has completed, under some schedule, before the next dispatch on
    the same executor starts. *)
Definition parallelFor (exec : Executor) (lo hi : N) (kernel : localIdx → option (list MemOp))
    (mem mem' : View scalar) : Prop :=
  match exec with
  | SerialExecutor => parallelFor_serial lo hi kernel mem = Some mem'
  | _ => ∃ ts sched ts',
      launch lo hi kernel = Some ts ∧
      run_schedule sched mem ts = Some (mem', ts') ∧
      finished ts'
  end.

(** ** Explicit divergence: [computeDiv]

    [operatorScaling] is the [dsl::Coeff] of the operator; it is indexable by
    cell through [operator[]] whatever its representation, and enters as a
    function of the cell index. *)

Section ComputeDiv.

Variables (nInternalFaces nBoundaryFaces : localIdx).
Variables (neighbour owner faceCells : View localIdx).
Variables (faceFlux phiF v : View scalar).
Variable (operatorScaling : localIdx → scalar).

(** *** Serial branch: the three plain loops *)

Definition serial_internal_body (i : localIdx) (res : View scalar) : option (View scalar) :=
  f ← vget faceFlux i;
  p ← vget phiF i;
  let flux := f * p in
  own ← vget owner i;
  r ← vget res own;
  res ← vset res own (r + flux);
  nei ← vget neighbour i;
  r ← vget res nei;
  vset res nei (r - flux).

Definition serial_boundary_body (i : localIdx) (res : View scalar) : option (View scalar) :=
  own ← vget faceCells (idx_sub i nInternalFaces);
  f ← vget faceFlux i;
  p ← vget phiF i;
  let valueOwn := f * p in
  r ← vget res own;
  vset res own (r + valueOwn).

Definition serial_normalize_body (celli : localIdx) (res : View scalar)
  : option (View scalar) :=
  vol ← vget v celli;
  r ← vget res celli;
  vset res celli (r * (operatorScaling celli / vol)).

Definition computeDiv_serial (res : View scalar) : option (View scalar) :=
  let nCells := vsize v in
  res ← forLoop 0 nInternalFaces serial_internal_body res;
  res ← forLoop nInternalFaces (idx_add nInternalFaces nBoundaryFaces)
          serial_boundary_body res;
  forLoop 0 nCells serial_normalize_body res.

(** *** Parallel branch: the three kernels handed to [parallelFor]

    The source labels the kernel of the boundary faces "sumFluxesInternal" as
    well; it is [sumFluxesBoundary] here. *)

Definition sumFluxesInternal (i : localIdx) : option (list MemOp) :=
  f ← vget faceFlux i;
  p ← vget phiF i;
  let flux := f * p in
  own ← vget owner i;
  nei ← vget neighbour i;
  Some [Atomic own (add_ flux); Atomic nei (sub_ flux)].

Definition sumFluxesBoundary (i : localIdx) : option (list MemOp) :=
  own ← vget faceCells (idx_sub i nInternalFaces);
  f ← vget faceFlux i;
  p ← vget phiF i;
  let valueOwn := f * p in
  Some [Atomic own (add_ valueOwn)].

Definition normalizeFluxes (celli : localIdx) : option (list MemOp) :=
  vol ← vget v celli;
  Some [Plain celli (mul_ (operatorScaling celli / vol))].

(** *** [computeDiv] *)

Definition computeDiv (exec : Executor) (res res' : View scalar) : Prop :=
  let nCells := vsize v in
  match exec with
  | SerialExecutor => computeDiv_serial res = Some res'
  | _ => ∃ res1 res2,
      parallelFor exec 0 nInternalFaces sumFluxesInternal res res1 ∧
      parallelFor exec nInternalFaces (idx_add nInternalFaces nBoundaryFaces)
        sumFluxesBoundary res1 res2 ∧
      parallelFor exec 0 nCells normalizeFluxes res2 res'
  end.

(** *** Well-formed arguments

    The connectivity arrays cover the faces and name existing cells, the
    face fields cover all faces, the face count is representable as a
    [localIdx], and the result has one entry per cell. *)

Definition cells_in_range (cells : View localIdx) (n : N) : bool :=
  forallb (λ i, match vget cells i with
                | Some c => (c <? vsize v)%N
                | None => false
                end) (indices 0 n).

Definition computeDiv_pre (res : View scalar) : bool :=
  (nInternalFaces + nBoundaryFaces <? localIdx_modulus)%N
  && (vsize v <? localIdx_modulus)%N
  && cells_in_range owner nInternalFaces
  && cells_in_range neighbour nInternalFaces
  && cells_in_range faceCells nBoundaryFaces
  && (nInternalFaces + nBoundaryFaces <=? vsize faceFlux)%N
  && (nInternalFaces + nBoundaryFaces <=? vsize phiF)%N
  && (vsize res =? vsize v)%N.

(** *** The divergence of a cell, as the design document writes it *)

Definition faceTerm (i : localIdx) : scalar :=
  default 0 (f ← vget faceFlux i; p ← vget phiF i; Some (f * p)).

(** Sum of [faceTerm] over the faces of [faces] whose cell is [c]. *)
Definition sumFaces (faces : list localIdx) (cellOf : localIdx → option localIdx)
    (c : localIdx) : scalar :=
  foldr (λ i acc, if decide (cellOf i = Some c) then faceTerm i + acc else acc) 0 faces.

Definition internalFaces : list localIdx := indices 0 nInternalFaces.
Definition boundaryFaces : list localIdx :=
  indices nInternalFaces (nInternalFaces + nBoundaryFaces).

Definition cellFluxSum (c : localIdx) : scalar :=
  sumFaces internalFaces (vget owner) c
  - sumFaces internalFaces (vget neighbour) c
  + sumFaces boundaryFaces (λ j, vget faceCells (j - nInternalFaces)%N) c.

Definition divSpec (c : localIdx) : scalar :=
  operatorScaling c / default 0 (vget v c) * cellFluxSum c.

(** The precondition, spelled out. *)
Record pre_facts (res : View scalar) : Prop := {
  pf_faces : (nInternalFaces + nBoundaryFaces < localIdx_modulus)%N;
  pf_cells : (vsize v < localIdx_modulus)%N;
  pf_owner : ∀ i, (i < nInternalFaces)%N → ∃ c, vget owner i = Some c ∧ (c < vsize v)%N;
  pf_neighbour :
    ∀ i, (i < nInternalFaces)%N → ∃ c, vget neighbour i = Some c ∧ (c < vsize v)%N;
  pf_faceCells :
    ∀ i, (i < nBoundaryFaces)%N → ∃ c, vget faceCells i = Some c ∧ (c < vsize v)%N;
  pf_faceFlux : (nInternalFaces + nBoundaryFaces ≤ vsize faceFlux)%N;
  pf_phiF : (nInternalFaces + nBoundaryFaces ≤ vsize phiF)%N;
  pf_res : vsize res = vsize v
}.

(** The slot and the factor of each iteration of the normalisation. *)
Definition normalize_specs (idxs : list localIdx) : list (localIdx * Update) :=
  map (λ c, (c, mul_ (operatorScaling c / default 0 (vget v c)))) idxs.

(** The state of the result after [computeDiv], in terms of its state
    before: the net flux of each cell is added and the sum is scaled. *)
Definition div_result (res res' : View scalar) : Prop :=
  vsize res' = vsize res ∧
  ∀ c r, vget res c = Some r →
    vget res' c = Some ((r + cellFluxSum c) * (operatorScaling c / default 0 (vget v c))).

End ComputeDiv.

Arguments pf_faces {_ _ _ _ _ _ _ _} _ _.
Arguments pf_cells {_ _ _ _ _ _ _ _} _ _.
Arguments pf_owner {_ _ _ _ _ _ _ _} _ _ _ _.
Arguments pf_neighbour {_ _ _ _ _ _ _ _} _ _ _ _.
Arguments pf_faceCells {_ _ _ _ _ _ _ _} _ _ _ _.
Arguments pf_faceFlux {_ _ _ _ _ _ _ _} _ _.
Arguments pf_phiF {_ _ _ _ _ _ _ _} _ _.
Arguments pf_res {_ _ _ _ _ _ _ _} _ _.

(** ** Net effect of additive operations

    The additive operations ([add_], [sub_]) on a slot commute; their net
    effect on a cell is the signed sum of their arguments. *)

Definition additive (o : MemOp) : bool :=
  match op_update o with mul_ _ => false | _ => true end.

Definition op_delta (o : MemOp) (c : localIdx) : scalar :=
  if decide (op_slot o = c)
  then match op_update o with add_ x => x | sub_ x => - x | mul_ _ => 0 end
  else 0.

Definition ops_delta (ops : list MemOp) (c : localIdx) : scalar :=
  foldr (λ o acc, op_delta o c + acc) 0 ops.

Definition opss_delta (opss : list (list MemOp)) (c : localIdx) : scalar :=
  foldr (λ ops acc, ops_delta ops c + acc) 0 opss.

(** [mem'] is [mem] with [d c] added to every cell [c]. *)
Definition shifted (mem mem' : View scalar) (d : localIdx → scalar) : Prop :=
  vsize mem' = vsize mem ∧
  ∀ c r, vget mem c = Some r → vget mem' c = Some (r + d c).

(** An operation that a scatter kernel may issue on a buffer of [n] cells. *)
Definition scatter_op (n : N) (o : MemOp) : Prop :=
  is_atomic o = true ∧ additive o = true ∧ (op_slot o < n)%N.

Definition threads_delta (ts : list Thread) (c : localIdx) : scalar :=
  opss_delta (map pending ts) c.

(** A thread of a scatter kernel between two of its steps. *)
Definition scatter_thread (n : N) (t : Thread) : Prop :=
  reg t = None ∧ Forall (scatter_op n) (pending t).

(** All slots named by a thread lie inside a buffer of [n] cells. *)
Definition thread_in_bounds (n : N) (t : Thread) : Prop :=
  Forall (λ o, (op_slot o < n)%N) (pending t).

(** Number of steps that a thread still has to take. *)
Definition work (t : Thread) : nat :=
  match pending t, reg t with
  | [], _ => 0
  | _ :: k, None => 2 * S (length k)
  | _ :: k, Some _ => 2 * length k + 1
  end.

Definition total_work (ts : list Thread) : nat := sum_list (map work ts).

(** ** Threads that update private slots

    [specs] lists, per thread, the one slot that the thread updates with a
    plain compound assignment. *)

Definition private_thread (au : localIdx * Update) : Thread :=
  new_thread [Plain au.1 au.2].

Definition private_state (mem0 mem : View scalar) (au : localIdx * Update) (t : Thread)
  : Prop :=
  ∃ r0, vget mem0 au.1 = Some r0 ∧
    ((pending t = [Plain au.1 au.2] ∧ (reg t = None ∨ reg t = Some r0)
      ∧ vget mem au.1 = Some r0)
     ∨ (pending t = [] ∧ vget mem au.1 = Some (apply_update au.2 r0))).

Definition private_inv (mem0 : View scalar) (specs : list (localIdx * Update))
    (mem : View scalar) (ts : list Thread) : Prop :=
  vsize mem = vsize mem0 ∧
  Forall2 (private_state mem0 mem) specs ts ∧
  ∀ c, c ∉ specs.*1 → vget mem c = vget mem0 c.

(** [mem'] is [mem] after each slot of [specs] received its update. *)
Definition updated (mem mem' : View scalar) (specs : list (localIdx * Update)) : Prop :=
  vsize mem' = vsize mem ∧
  (∀ a u r, (a, u) ∈ specs → vget mem a = Some r → vget mem' a = Some (apply_update u r)) ∧
  (∀ c, c ∉ specs.*1 → vget mem' c = vget mem c).

(** ** Implicit divergence: [computeDivImp]

    The linear system is seen through [ls.view()]: the flat matrix values with
    the row offsets of the sparse matrix, and the right-hand side.  The kernels
    address the matrix values through the offsets of the sparsity pattern. *)

Record LinearSystemView := {
  values : View scalar;
  rhs : View scalar
}.

Inductive Target := matrixValues | rhsValues.

Definition LsOp : Type := Target * MemOp.

Definition array (tgt : Target) (ls : LinearSystemView) : View scalar :=
  match tgt with matrixValues => values ls | rhsValues => rhs ls end.

Definition set_array (tgt : Target) (a : View scalar) (ls : LinearSystemView)
  : LinearSystemView :=
  match tgt with
  | matrixValues => {| values := a; rhs := rhs ls |}
  | rhsValues => {| values := values ls; rhs := a |}
  end.

Definition run_ls_op (o : LsOp) (ls : LinearSystemView) : option LinearSystemView :=
  a ← run_op o.2 (array o.1 ls); Some (set_array o.1 a ls).

Fixpoint run_ls_ops (ops : list LsOp) (ls : LinearSystemView) : option LinearSystemView :=
  match ops with
  | [] => Some ls
  | o :: ops' => ls' ← run_ls_op o ls; run_ls_ops ops' ls'
  end.

(** Threads and schedules over the two arrays of the linear system. *)
Record LsThread := { ls_reg : option scalar; ls_pending : list LsOp }.

Definition ls_thread_step (ls : LinearSystemView) (t : LsThread)
  : option (LinearSystemView * LsThread) :=
  match ls_pending t with
  | [] => Some (ls, t)
  | (tgt, Atomic a u) :: k =>
      ls' ← run_ls_op (tgt, Atomic a u) ls; Some (ls', {| ls_reg := None; ls_pending := k |})
  | (tgt, Plain a u) :: k =>
      match ls_reg t with
      | None =>
          r ← vget (array tgt ls) a;
          Some (ls, {| ls_reg := Some r; ls_pending := (tgt, Plain a u) :: k |})
      | Some r =>
          arr ← vset (array tgt ls) a (apply_update u r);
          Some (set_array tgt arr ls, {| ls_reg := None; ls_pending := k |})
      end
  end.

Fixpoint ls_run_schedule (sched : list nat) (ls : LinearSystemView) (ts : list LsThread)
  : option (LinearSystemView * list LsThread) :=
  match sched with
  | [] => Some (ls, ts)
  | tid :: sched' =>
      match ts !! tid with
      | None => ls_run_schedule sched' ls ts
      | Some t =>
          '(ls', t') ← ls_thread_step ls t; ls_run_schedule sched' ls' (<[tid := t']> ts)
      end
  end.

Definition ls_finished (ts : list LsThread) : Prop := Forall (λ t, ls_pending t = []) ts.

Fixpoint ls_kernel_ops (kernel : localIdx → option (list LsOp)) (idxs : list localIdx)
  : option (list (list LsOp)) :=
  match idxs with
  | [] => Some []
  | i :: idxs' => ops ← kernel i; rest ← ls_kernel_ops kernel idxs'; Some (ops :: rest)
  end.

Definition ls_launch (lo hi : N) (kernel : localIdx → option (list LsOp))
  : option (list LsThread) :=
  opss ← ls_kernel_ops kernel (indices lo hi);
  Some (map (λ ops, {| ls_reg := None; ls_pending := ops |}) opss).

(** Modelled from the spec: [parallelFor] over the arrays of a linear
    system, as [parallelFor] above. *)
Definition ls_parallelFor (exec : Executor) (lo hi : N)
    (kernel : localIdx → option (list LsOp)) (ls ls' : LinearSystemView) : Prop :=
  match exec with
  | SerialExecutor =>
      forLoop lo hi (λ i ls, ops ← kernel i; run_ls_ops ops ls) ls = Some ls'
  | _ => ∃ ts sched ts',
      ls_launch lo hi kernel = Some ts ∧
      ls_run_schedule sched ls ts = Some (ls', ts') ∧
      ls_finished ts'
  end.

Section ComputeDivImp.

Variable (nInternalFaces : localIdx).
Variable (sFaceFlux : View scalar).
Variables (owner neighbour surfFaceCells : View localIdx).
(** Sparsity pattern and row offsets of the matrix. *)
Variables (diagOffs ownOffs neiOffs rowOffs : View localIdx).
(** Boundary data of [phi]. *)
Variables (valueFraction refValue : View scalar).
Variable (operatorScaling : localIdx → scalar).

(** The kernel of the dispatch over the internal faces. *)
Definition divImp_internal (facei : localIdx) : option (list LsOp) :=
  flux ← vget sFaceFlux facei;
  let weight : scalar := if decide (0 <= flux) then 1 else 0 in
  own ← vget owner facei;
  nei ← vget neighbour facei;
  rowNeiStart ← vget rowOffs nei;
  rowOwnStart ← vget rowOffs own;
  let operatorScalingNei := operatorScaling nei in
  let operatorScalingOwn := operatorScaling own in
  let value1 := - weight * flux * 1 in
  neiOff ← vget neiOffs facei;
  diagOwn ← vget diagOffs own;
  let value2 := flux * (1 - weight) * 1 in
  ownOff ← vget ownOffs facei;
  diagNei ← vget diagOffs nei;
  Some [ (matrixValues,
          Plain (idx_add rowNeiStart neiOff) (add_ (value1 * operatorScalingNei)));
         (matrixValues,
          Atomic (idx_add rowOwnStart diagOwn) (sub_ (value1 * operatorScalingOwn)));
         (matrixValues,
          Plain (idx_add rowOwnStart ownOff) (add_ (value2 * operatorScalingOwn)));
         (matrixValues,
          Atomic (idx_add rowNeiStart diagNei) (sub_ (value2 * operatorScalingNei))) ].

(** The kernel of the dispatch over the boundary faces. *)
Definition divImp_boundary (facei : localIdx) : option (list LsOp) :=
  let bcfacei := idx_sub facei nInternalFaces in
  flux ← vget sFaceFlux facei;
  own ← vget surfFaceCells bcfacei;
  rowOwnStart ← vget rowOffs own;
  let operatorScalingOwn := operatorScaling own in
  diagOwn ← vget diagOffs own;
  alpha ← vget valueFraction bcfacei;
  ref ← vget refValue bcfacei;
  Some [ (matrixValues,
          Plain (idx_add rowOwnStart diagOwn)
            (add_ (flux * operatorScalingOwn * (1 - alpha) * 1)));
         (rhsValues,
          Plain own (sub_ (flux * operatorScalingOwn * (alpha * ref)))) ].

Definition computeDivImp (exec : Executor) (ls ls' : LinearSystemView) : Prop :=
  ∃ ls1,
    ls_parallelFor exec 0 nInternalFaces divImp_internal ls ls1 ∧
    ls_parallelFor exec nInternalFaces (vsize sFaceFlux) divImp_boundary ls1 ls'.

(** The updates of one internal face as the design document words them:
    [value1 * s_n] goes to the neighbour's off-diagonal slot and "the same
    signed [value1 * s_n]" is subtracted from the owner's diagonal slot;
    [value2 * s_o] goes to the owner's off-diagonal slot and "the same signed
    [value2 * s_o]" is subtracted from the neighbour's diagonal slot. *)
Definition divImp_internal_as_worded (facei : localIdx) : option (list LsOp) :=
  flux ← vget sFaceFlux facei;
  let weight : scalar := if decide (0 <= flux) then 1 else 0 in
  own ← vget owner facei;
  nei ← vget neighbour facei;
  rowNeiStart ← vget rowOffs nei;
  rowOwnStart ← vget rowOffs own;
  let s_n := operatorScaling nei in
  let s_o := operatorScaling own in
  let value1 := - weight * flux in
  let value2 := (1 - weight) * flux in
  neiOff ← vget neiOffs facei;
  diagOwn ← vget diagOffs own;
  ownOff ← vget ownOffs facei;
  diagNei ← vget diagOffs nei;
  Some [ (matrixValues, Plain (idx_add rowNeiStart neiOff) (add_ (value1 * s_n)));
         (matrixValues, Atomic (idx_add rowOwnStart diagOwn) (sub_ (value1 * s_n)));
         (matrixValues, Plain (idx_add rowOwnStart ownOff) (add_ (value2 * s_o)));
         (matrixValues, Atomic (idx_add rowNeiStart diagNei) (sub_ (value2 * s_o))) ].

End ComputeDivImp.

(** [1] if the slots coincide, [0] otherwise. *)
Definition hits (slot k : localIdx) : scalar := if decide (slot = k) then 1 else 0.

(** ** Small meshes used to evaluate the assembly *)

(** Two cells that share one internal face; the matrix is the full 2x2
    pattern, row by row, and the cells carry different scalings. *)
Module TwoCells.
Definition sFaceFlux : View scalar := [Q2Qc 1].
Definition owner : View localIdx := [0%N].
Definition neighbour : View localIdx := [1%N].
Definition diagOffs : View localIdx := [0%N; 1%N].
Definition ownOffs : View localIdx := [1%N].
Definition neiOffs : View localIdx := [0%N].
Definition rowOffs : View localIdx := [0%N; 2%N; 4%N].
Definition operatorScaling (c : localIdx) : scalar :=
  if (c =? 0)%N then Q2Qc 2 else Q2Qc 3.
Definition ls : LinearSystemView :=
  {| values := [Q2Qc 0; Q2Qc 0; Q2Qc 0; Q2Qc 0]; rhs := [Q2Qc 0; Q2Qc 0] |}.
End TwoCells.

(** A single cell with two boundary faces and no internal face. *)
Module OneCell.
Definition nInternalFaces : localIdx := 0%N.
Definition sFaceFlux : View scalar := [Q2Qc 1; Q2Qc 1].
Definition surfFaceCells : View localIdx := [0%N; 0%N].
Definition diagOffs : View localIdx := [0%N].
Definition rowOffs : View localIdx := [0%N; 1%N].
Definition valueFraction : View scalar := [Q2Qc (1 # 2); Q2Qc (1 # 2)].
Definition refValue : View scalar := [Q2Qc 2; Q2Qc 2].
Definition operatorScaling (c : localIdx) : scalar := Q2Qc 1.
Definition ls : LinearSystemView := {| values := [Q2Qc 0]; rhs := [Q2Qc 0] |}.
(** Both threads load, then both store, on the matrix and on the
    right-hand side. *)
Definition racy_schedule : list nat := [0; 1; 0; 1; 0; 1; 0; 1]%nat.
End OneCell.

(** ** The one-dimensional mesh

    The cells form a row; internal face [i] lies between cell [i], its owner,
    and cell [i + 1], its neighbour; the two boundary faces close the row at
    cell [0] and at cell [nCells - 1].  The face fields list the internal
    faces first. *)
Module Mesh1D.
(** Modelled from the spec: the one-dimensional mesh of [nCells] cells
    ([create1DUniformMesh] is not part of the sources) has [nCells - 1]
    internal faces and two boundary faces. *)
Definition nInternalFaces (nCells : N) : localIdx := (nCells - 1)%N.
Definition nBoundaryFaces : localIdx := 2%N.
(** Modelled from the spec: the connectivity of the one-dimensional mesh. *)
Definition owner (nCells : N) : View localIdx := indices 0 (nCells - 1).
Definition neighbour (nCells : N) : View localIdx := map N.succ (indices 0 (nCells - 1)).
Definition faceCells (nCells : N) : View localIdx := [0%N; (nCells - 1)%N].
(** Modelled from the spec: unit flux through the internal faces, [bL] and
    [bR] through the two boundary faces. *)
Definition faceFlux (nCells : N) (bL bR : scalar) : View scalar :=
  replicate (N.to_nat (nCells - 1)) 1 ++ [bL; bR].
(** Modelled from the spec: unit face value on all faces. *)
Definition phiF (nCells : N) : View scalar := replicate (N.to_nat (nCells + 1)) 1.
End Mesh1D.

(** ** Memory and executors

    A buffer is a block of cells on the heap; a cell that was never written
    holds an indeterminate value ([None]).  A pointer is a block address or
    null ([None]).

    The allocation capability of the executors ([alloc], [realloc], [free] of
    [NeoN/core/executor]) is not part of the sources.  The handle that an
    executor returns for a request of zero bytes is a parameter of the model:
    as for [std::malloc] and [std::realloc], it is either null or a block of
    its own, and [AllocPolicy] says which, for [alloc] and for [realloc].
    Allocation failure aborts the program and is outside of the model.  Sizes
    are counted in elements; the element size is positive, so a request has
    zero bytes exactly when it has zero elements. *)

Abbreviation Heap := (gmap positive (list (option scalar))).

Record AllocPolicy := {
  alloc_zero_is_null : bool;
  realloc_zero_is_null : bool
}.

(** Outcome of an operation: a value, a reported validation error, or
    behaviour that the language leaves undefined. *)
Inductive Result (A : Type) :=
  | Ok (a : A)
  | ValidationError (msg : string)
  | Undefined.
Arguments Ok {A} a.
Arguments ValidationError {A} msg.
Arguments Undefined {A}.

Definition M (A : Type) : Type := Heap → Result (A * Heap).

Definition ret {A} (a : A) : M A := λ h, Ok (a, h).

Definition bind {A B} (m : M A) (k : A → M B) : M B := λ h,
  match m h with
  | Ok (a, h') => k a h'
  | ValidationError msg => ValidationError msg
  | Undefined => Undefined
  end.

Declare Scope vec_scope.
Delimit Scope vec_scope with vec.
Notation "x <- m ;; k" := (bind m (λ x, k))
  (at level 100, m at next level, right associativity) : vec_scope.
Notation "m ;; k" := (bind m (λ _, k))
  (at level 100, right associativity) : vec_scope.

Section Executors.

Variable policy : AllocPolicy.

(** Modelled from the spec: [allocate(bytes)] returns a handle to a block
    that no live object owns. *)
Definition exec_alloc (exec : Executor) (n : N) : M (option positive) := λ h,
  if (n =? 0)%N && alloc_zero_is_null policy then Ok (None, h)
  else
    let p := fresh (dom h) in
    Ok (Some p, <[p := replicate (N.to_nat n) None]> h).

(** Modelled from the spec: [reallocate(handle, bytes)] returns a handle to a
    block of the new size that starts with the old elements; the old handle
    is released. *)
Definition exec_realloc (exec : Executor) (ptr : option positive) (n : N)
  : M (option positive) := λ h,
  match ptr with
  | None => exec_alloc exec n h
  | Some q =>
      match h !! q with
      | None => Undefined
      | Some old =>
          if (n =? 0)%N && realloc_zero_is_null policy then Ok (None, delete q h)
          else
            let p := fresh (dom h) in
            let blk := take (N.to_nat n) old
                       ++ replicate (N.to_nat n - length old) None in
            Ok (Some p, <[p := blk]> (delete q h))
      end
  end.

(** Modelled from the spec: [deallocate(handle)]. *)
Definition exec_free (exec : Executor) (ptr : option positive) : M unit := λ h,
  match ptr with
  | None => Ok (tt, h)
  | Some q =>
      match h !! q with
      | None => Undefined
      | Some _ => Ok (tt, delete q h)
      end
  end.

End Executors.

(** [Kokkos::deep_copy] of [n] elements from the block at [src] to the block
    at [dst]. *)
Definition deepCopy (n : N) (src dst : option positive) : M unit := λ h,
  if (n =? 0)%N then Ok (tt, h)
  else
    match src, dst with
    | Some s, Some d =>
        match h !! s, h !! d with
        | Some sb, Some db =>
            if decide (N.to_nat n ≤ length sb ∧ N.to_nat n ≤ length db)%nat
            then Ok (tt, <[d := take (N.to_nat n) sb ++ drop (N.to_nat n) db]> h)
            else Undefined
        | _, _ => Undefined
        end
    | _, _ => Undefined
    end.

(** ** Assertions

    The macros are defined in [NeoN/core/error.hpp], which is not part of the
    sources.  [NF_ASSERT] reports a failed condition in every build.
    [NF_DEBUG_ASSERT] is the debug-only assertion: it is [NF_ASSERT] in a
    debug build and expands to nothing in an optimised build; the build is a
    parameter of the model, [NF_DEBUG]. *)

Definition NF_ASSERT (condition : bool) (message : string) : M unit := λ h,
  if condition then Ok (tt, h) else ValidationError message.

Definition NF_DEBUG_ASSERT (NF_DEBUG : bool) (condition : bool) (message : string) : M unit :=
  if NF_DEBUG then NF_ASSERT condition message else ret tt.

(** ** [Vector] *)

Record Vector := {
  size_ : localIdx;
  data_ : option positive;
  exec_ : Executor
}.

(** The elements of a vector, as stored on the heap. *)
Definition contents (h : Heap) (v : Vector) : option (list (option scalar)) :=
  match data_ v with
  | None => if (size_ v =? 0)%N then Some [] else None
  | Some p => blk ← h !! p;
              if decide (N.to_nat (size_ v) ≤ length blk)%nat
              then Some (take (N.to_nat (size_ v)) blk) else None
  end.

(** The invariant of the design document: the buffer is null exactly when the
    size is zero. *)
Definition null_iff_empty (v : Vector) : Prop := data_ v = None ↔ size_ v = 0%N.

(** Modelled from the spec: host code can reach the memory of the serial and
    of the host-parallel executor; device memory is reached from device
    kernels only. *)
Definition on_host (e : Executor) : bool :=
  match e with GPUExecutor => false | _ => true end.

Definition reachable (from to : Executor) : bool := bool_decide (on_host from = on_host to).

(** Writes [x] to element [i] through a view of the vector. *)
Definition store (v : Vector) (i : localIdx) (x : scalar) : M unit := λ h,
  match data_ v with
  | None => Undefined
  | Some p =>
      match h !! p with
      | None => Undefined
      | Some blk =>
          if decide ((i < size_ v)%N ∧ (N.to_nat i < length blk)%nat)
          then Ok (tt, <[p := <[N.to_nat i := Some x]> blk]> h)
          else Undefined
      end
  end.

(** *** Free functions on vectors

    [fill], [setVector], [add], [sub], [mul] and [scalarMul] come from
    [NeoN/fields/fieldFreeFunctions.hpp], which is not part of the sources.
    Arithmetic on an indeterminate value is indeterminate. *)

Definition lift2 (f : scalar → scalar → scalar) (x y : option scalar) : option scalar :=
  match x, y with
  | Some a, Some b => Some (f a b)
  | _, _ => None
  end.

(** Modelled from the spec: an element-wise binary operation visits the
    elements of its first argument and combines element [i] with element [i]
    of the second argument. *)
Definition elementwise (f : option scalar → option scalar → option scalar)
    (a : Vector) (b_data : option positive) (b_exec : Executor) : M unit := λ h,
  if (size_ a =? 0)%N then Ok (tt, h)
  else
    match data_ a, b_data with
    | Some pa, Some pb =>
        match h !! pa, h !! pb with
        | Some ba, Some bb =>
            let n := N.to_nat (size_ a) in
            if bool_decide (n ≤ length ba ∧ n ≤ length bb)%nat && reachable (exec_ a) b_exec
            then Ok (tt, <[pa := zip_with f (take n ba) (take n bb) ++ drop n ba]> h)
            else Undefined
        | _, _ => Undefined
        end
    | _, _ => Undefined
    end.

(** Modelled from the spec: an element-wise unary operation visits the
    elements of its argument. *)
Definition pointwise (f : option scalar → option scalar) (a : Vector) : M unit := λ h,
  if (size_ a =? 0)%N then Ok (tt, h)
  else
    match data_ a with
    | Some pa =>
        match h !! pa with
        | Some ba =>
            let n := N.to_nat (size_ a) in
            if decide (n ≤ length ba)%nat
            then Ok (tt, <[pa := map f (take n ba) ++ drop n ba]> h)
            else Undefined
        | None => Undefined
        end
    | None => Undefined
    end.

(** Modelled from the spec: [fill], [setVector], [add], [sub], [mul],
    [scalarMul]. *)
Definition fill (a : Vector) (value : scalar) : M unit := pointwise (λ _, Some value) a.
Definition setVector (a : Vector) (b : Vector) : M unit :=
  elementwise (λ _ y, y) a (data_ b) (exec_ b).
Definition add (a b : Vector) : M unit := elementwise (lift2 Qcplus) a (data_ b) (exec_ b).
Definition sub (a b : Vector) : M unit := elementwise (lift2 Qcminus) a (data_ b) (exec_ b).
Definition mul (a b : Vector) : M unit := elementwise (lift2 Qcmult) a (data_ b) (exec_ b).
Definition scalarMul (a : Vector) (s : scalar) : M unit :=
  pointwise (option_map (λ x, x * s)) a.

Section VectorOps.

Variable NF_DEBUG : bool.
Variable policy : AllocPolicy.

Open Scope vec_scope.

(** [Vector(exec, size)] *)
Definition Vector_new (exec : Executor) (size : localIdx) : M Vector :=
  ptr <- exec_alloc policy exec size;;
  ret {| size_ := size; data_ := ptr; exec_ := exec |}.

(** [Vector(exec, in, size, hostExec)] *)
Definition Vector_from (exec : Executor) (in_ : option positive) (size : localIdx)
    (hostExec : Executor) : M Vector :=
  ptr <- exec_alloc policy exec size;;
  deepCopy size in_ ptr;;
  ret {| size_ := size; data_ := ptr; exec_ := exec |}.

(** [Vector(exec, size, value)] *)
Definition Vector_filled (exec : Executor) (size : localIdx) (value : scalar) : M Vector :=
  ptr <- exec_alloc policy exec size;;
  let this := {| size_ := size; data_ := ptr; exec_ := exec |} in
  fill this value;;
  ret this.

(** [Vector(exec, in)] for a vector [in] *)
Definition Vector_on (exec : Executor) (in_ : Vector) : M Vector :=
  Vector_from exec (data_ in_) (size_ in_) (exec_ in_).

(** Copy constructor *)
Definition Vector_copy (rhs : Vector) : M Vector :=
  Vector_from (exec_ rhs) (data_ rhs) (size_ rhs) (exec_ rhs).

(** Move constructor: the new object and the moved-from object *)
Definition Vector_move (rhs : Vector) : Vector * Vector :=
  ({| size_ := size_ rhs; data_ := data_ rhs; exec_ := exec_ rhs |},
   {| size_ := 0%N; data_ := None; exec_ := exec_ rhs |}).

(** Destructor *)
Definition Vector_destroy (this : Vector) : M unit := exec_free (exec_ this) (data_ this).

Definition copyToExecutor (this : Vector) (dstExec : Executor) : M Vector :=
  if decide (dstExec = exec_ this) then Vector_copy this
  else
    result <- Vector_new dstExec (size_ this);;
    deepCopy (size_ this) (data_ this) (data_ result);;
    ret result.

Definition empty (this : Vector) : bool := (size_ this =? 0)%N.

Definition resize (this : Vector) (size : localIdx) : M Vector :=
  ptr <- (if negb (empty this)
          then exec_realloc policy (exec_ this) (data_ this) size
          else exec_alloc policy (exec_ this) size);;
  ret {| size_ := size; data_ := ptr; exec_ := exec_ this |}.

(** [operator=(const ValueType&)] *)
Definition assign_value (this : Vector) (rhs : scalar) : M Vector :=
  fill this rhs;; ret this.

(** [operator=(const Vector&)] *)
Definition assign (this rhs : Vector) : M Vector :=
  NF_ASSERT (bool_decide (exec_ this = exec_ rhs)) "Executors are not the same";;
  this <- (if negb (size_ this =? size_ rhs)%N then resize this (size_ rhs) else ret this);;
  setVector this rhs;;
  ret this.

Definition validateOtherVector (this rhs : Vector) : M unit :=
  NF_DEBUG_ASSERT NF_DEBUG (size_ this =? size_ rhs)%N "Vectors are not the same size.";;
  NF_DEBUG_ASSERT NF_DEBUG (bool_decide (exec_ this = exec_ rhs))
    "Executors are not the same.".

(** [operator+=] *)
Definition add_assign (this rhs : Vector) : M Vector :=
  validateOtherVector this rhs;; add this rhs;; ret this.

(** [operator-=] *)
Definition sub_assign (this rhs : Vector) : M Vector :=
  validateOtherVector this rhs;; sub this rhs;; ret this.

(** [operator*=(const Vector<scalar>&)] *)
Definition mul_assign (this rhs : Vector) : M Vector :=
  validateOtherVector this rhs;; mul this rhs;; ret this.

(** [operator*=(const scalar)] *)
Definition scalarMul_assign (this : Vector) (rhs : scalar) : M Vector :=
  scalarMul this rhs;; ret this.

(** [operator*(const Vector<scalar>&)] *)
Definition times (this rhs : Vector) : M Vector :=
  validateOtherVector this rhs;;
  result <- Vector_new (exec_ this) (size_ this);;
  result <- assign result this;;
  mul result rhs;;
  ret result.

(** [operator*(const scalar)] *)
Definition times_scalar (this : Vector) (rhs : scalar) : M Vector :=
  result <- Vector_new (exec_ this) (size_ this);;
  result <- assign result this;;
  scalarMul result rhs;;
  ret result.

End VectorOps.

(** The vector [a] does not share its buffer with [v]. *)
Definition separate (a v : Vector) : Prop := ∀ p, data_ a = Some p → data_ v ≠ Some p.

(** The view of [n] elements at [ptr]. *)
Definition window (n : localIdx) (ptr : option positive) : Vector :=
  {| size_ := n; data_ := ptr; exec_ := SerialExecutor |}.

(** ** Further operations of [Vector] *)

Section VectorLifecycle.

Variable NF_DEBUG : bool.
Variable policy : AllocPolicy.

Open Scope vec_scope.

(** [copyToHost()] *)
Definition copyToHost (this : Vector) : M Vector := copyToExecutor policy this SerialExecutor.

(** [copyToHost(Vector& result)]: the temporary returned by [copyToExecutor] is
    assigned to [result] and destroyed at the end of the statement. *)
Definition copyToHost_into (this result : Vector) : M Vector :=
  NF_DEBUG_ASSERT NF_DEBUG (size_ result =? size_ this)%N
    "Parsed Vector size not the same as current field size";;
  tmp <- copyToExecutor policy this SerialExecutor;;
  result <- assign policy result tmp;;
  Vector_destroy tmp;;
  ret result.

(** The free [operator+(Vector lhs, const Vector& rhs)], called on an lvalue:
    the parameter [lhs] is copy-constructed from the argument, updated in
    place, moved into the returned object and destroyed. *)
Definition plus (lhs_arg rhs : Vector) : M Vector :=
  lhs <- Vector_copy policy lhs_arg;;
  lhs <- add_assign NF_DEBUG lhs rhs;;
  let '(result, lhs) := Vector_move lhs in
  Vector_destroy lhs;;
  ret result.

(** The free [operator-(Vector lhs, const Vector& rhs)], called on an lvalue. *)
Definition minus (lhs_arg rhs : Vector) : M Vector :=
  lhs <- Vector_copy policy lhs_arg;;
  lhs <- sub_assign NF_DEBUG lhs rhs;;
  let '(result, lhs) := Vector_move lhs in
  Vector_destroy lhs;;
  ret result.

End VectorLifecycle.

(** *** Views of a vector

    A view is a pointer into a buffer and a length; the pointer is the buffer
    of the vector advanced by an offset. *)
Record ViewRef := {
  view_data : option positive;
  view_offset : N;
  view_size : N
}.

(** [view()] *)
Definition view (this : Vector) : ViewRef :=
  {| view_data := data_ this; view_offset := 0%N; view_size := size_ this |}.

(** [view(std::pair<localIdx, localIdx> range)]: the length is the difference
    of the two [localIdx] bounds, converted to [size_t]. *)
Definition view_range (this : Vector) (range : localIdx * localIdx) : ViewRef :=
  {| view_data := data_ this;
     view_offset := range.1;
     view_size := idx_sub range.2 range.1 |}.

(** [range()] *)
Definition range (this : Vector) : localIdx * localIdx := (0%N, size_ this).

(** Element [i] of a view, read from the heap. *)
Definition view_at (h : Heap) (vw : ViewRef) (i : N) : option (option scalar) :=
  p ← view_data vw;
  blk ← h !! p;
  if decide (i < view_size vw)%N then blk !! N.to_nat (view_offset vw + i) else None.

(** ** Sums over cells and faces *)

(** Sum of [f] over the indices of [idxs]. *)
Definition sumOver (idxs : list localIdx) (f : localIdx → scalar) : scalar :=
  foldr (λ i acc, f i + acc) 0 idxs.

(** ** Net effect of the kernels of the implicit divergence *)

Definition targets (tgt : Target) (o : LsOp) : bool :=
  match o.1, tgt with
  | matrixValues, matrixValues | rhsValues, rhsValues => true
  | _, _ => false
  end.

(** The operations of [ops] on the array [tgt]. *)
Definition ops_on (tgt : Target) (ops : list LsOp) : list MemOp :=
  map snd (List.filter (targets tgt) ops).

(** The signed amount that iteration [i] of a kernel adds to slot [k] of the
    array [tgt]. *)
Definition face_delta (kernel : localIdx → option (list LsOp)) (tgt : Target)
    (i k : localIdx) : scalar :=
  ops_delta (ops_on tgt (default [] (kernel i))) k.

(** An additive operation inside arrays of [nM] matrix values and [nR]
    right-hand-side entries. *)
Definition ls_op_ok (nM nR : N) (o : LsOp) : bool :=
  additive o.2
  && (op_slot o.2 <? match o.1 with matrixValues => nM | rhsValues => nR end)%N.

(** Every iteration of the range issues its operations, all of them inside
    the arrays: no access of the dispatch is out of bounds. *)
Definition kernel_in_bounds (kernel : localIdx → option (list LsOp)) (nM nR : N)
    (lo hi : N) : bool :=
  forallb (λ i, match kernel i with
                | Some ops => forallb (ls_op_ok nM nR) ops
                | None => false
                end) (indices lo hi).

Section ComputeDivImpPre.

Variable (nInternalFaces : localIdx).
Variable (sFaceFlux : View scalar).
Variables (owner neighbour surfFaceCells : View localIdx).
Variables (diagOffs ownOffs neiOffs rowOffs : View localIdx).
Variables (valueFraction refValue : View scalar).
Variable (operatorScaling : localIdx → scalar).

(** Well-formed arguments of [computeDivImp]: no access of the two dispatches
    is out of bounds. *)
Definition computeDivImp_pre (ls : LinearSystemView) : bool :=
  kernel_in_bounds
    (divImp_internal sFaceFlux owner neighbour diagOffs ownOffs neiOffs rowOffs
       operatorScaling)
    (vsize (values ls)) (vsize (rhs ls)) 0 nInternalFaces
  && kernel_in_bounds
       (divImp_boundary nInternalFaces sFaceFlux surfFaceCells diagOffs rowOffs
          valueFraction refValue operatorScaling)
       (vsize (values ls)) (vsize (rhs ls)) nInternalFaces (vsize sFaceFlux).

(** What a boundary face takes from the right-hand side of its cell. *)
Definition boundary_rhs_term (j : localIdx) : scalar :=
  default 0
    (f ← vget sFaceFlux j;
     own ← vget surfFaceCells (idx_sub j nInternalFaces);
     alpha ← vget valueFraction (idx_sub j nInternalFaces);
     ref ← vget refValue (idx_sub j nInternalFaces);
     Some (f * operatorScaling own * (alpha * ref))).

End ComputeDivImpPre.

(** Two cells in a row: internal face [0] between cell [0], its owner, and
    cell [1]; boundary face [1] is an inlet on cell [0] with a fixed value,
    boundary face [2] an outlet on cell [1] with zero gradient. *)
Module TwoCellsClosed.
Definition nInternalFaces : localIdx := 1%N.
Definition sFaceFlux : View scalar := [Q2Qc 1; Q2Qc (-1); Q2Qc 1].
Definition owner : View localIdx := [0%N].
Definition neighbour : View localIdx := [1%N].
Definition surfFaceCells : View localIdx := [0%N; 1%N].
Definition diagOffs : View localIdx := [0%N; 1%N].
Definition ownOffs : View localIdx := [1%N].
Definition neiOffs : View localIdx := [0%N].
Definition rowOffs : View localIdx := [0%N; 2%N; 4%N].
Definition valueFraction : View scalar := [Q2Qc 1; Q2Qc 0].
Definition refValue : View scalar := [Q2Qc 5; Q2Qc 0].
Definition operatorScaling (c : localIdx) : scalar := Q2Qc 2.
Definition ls : LinearSystemView :=
  {| values := [Q2Qc 0; Q2Qc 0; Q2Qc 0; Q2Qc 0]; rhs := [Q2Qc 0; Q2Qc 0] |}.
End TwoCellsClosed.

(** The operations that a dispatch over [[lo, hi)] issues, listed in index
    order. *)
Definition dispatch_ops (lo hi : N) (kernel : localIdx → option (list MemOp))
  : option (list MemOp) :=
  opss ← kernel_ops kernel (indices lo hi); Some (concat opss).

(** ** [computeDiv] in floating point

    The same memory operations, dispatch primitive and source text of
    [computeDiv] as above, with the arithmetic of the machine in place of the
    rationals: [+], [-], [*] and [/] are the IEEE 754 binary64 operations with
    rounding to nearest, ties to even. *)
Module Double.

(** Modelled from the spec: [scalar] is a floating-point type
    ([NeoN/core/primitives/scalar.hpp] is not part of the sources); it is
    double precision here. *)
Definition scalar : Set := PrimFloat.float.

Inductive Update :=
  | add_ (x : scalar)
  | sub_ (x : scalar)
  | mul_ (x : scalar).

Definition apply_update (u : Update) (r : scalar) : scalar :=
  match u with
  | add_ x => PrimFloat.add r x
  | sub_ x => PrimFloat.sub r x
  | mul_ x => PrimFloat.mul r x
  end.

Inductive MemOp :=
  | Atomic (slot : localIdx) (u : Update)
  | Plain (slot : localIdx) (u : Update).

Definition op_slot (o : MemOp) : localIdx :=
  match o with Atomic a _ | Plain a _ => a end.

Definition op_update (o : MemOp) : Update :=
  match o with Atomic _ u | Plain _ u => u end.

Definition run_op (o : MemOp) (mem : View scalar) : option (View scalar) :=
  r ← vget mem (op_slot o); vset mem (op_slot o) (apply_update (op_update o) r).

Fixpoint run_ops (ops : list MemOp) (mem : View scalar) : option (View scalar) :=
  match ops with
  | [] => Some mem
  | o :: ops' => mem' ← run_op o mem; run_ops ops' mem'
  end.

Record Thread := { reg : option scalar; pending : list MemOp }.

Definition thread_step (mem : View scalar) (t : Thread) : option (View scalar * Thread) :=
  match pending t with
  | [] => Some (mem, t)
  | Atomic a u :: k =>
      mem' ← run_op (Atomic a u) mem; Some (mem', {| reg := None; pending := k |})
  | Plain a u :: k =>
      match reg t with
      | None => r ← vget mem a; Some (mem, {| reg := Some r; pending := Plain a u :: k |})
      | Some r => mem' ← vset mem a (apply_update u r);
                  Some (mem', {| reg := None; pending := k |})
      end
  end.

Fixpoint run_schedule (sched : list nat) (mem : View scalar) (ts : list Thread)
  : option (View scalar * list Thread) :=
  match sched with
  | [] => Some (mem, ts)
  | tid :: sched' =>
      match ts !! tid with
      | None => run_schedule sched' mem ts
      | Some t => '(mem', t') ← thread_step mem t; run_schedule sched' mem' (<[tid := t']> ts)
      end
  end.

Definition finished (ts : list Thread) : Prop := Forall (λ t, pending t = []) ts.

Fixpoint kernel_ops (kernel : localIdx → option (list MemOp)) (idxs : list localIdx)
  : option (list (list MemOp)) :=
  match idxs with
  | [] => Some []
  | i :: idxs' => ops ← kernel i; rest ← kernel_ops kernel idxs'; Some (ops :: rest)
  end.

Definition new_thread (ops : list MemOp) : Thread := {| reg := None; pending := ops |}.

Definition launch (lo hi : N) (kernel : localIdx → option (list MemOp)) : option (list Thread) :=
  opss ← kernel_ops kernel (indices lo hi); Some (map new_thread opss).

(** Modelled from the spec: [parallelFor] on the sequential executor, as
    above. *)
Definition parallelFor_serial (lo hi : N) (kernel : localIdx → option (list MemOp))
    (mem : View scalar) : option (View scalar) :=
  forLoop lo hi (λ i mem, ops ← kernel i; run_ops ops mem) mem.

(** Modelled from the spec: [parallelFor], as above. *)
Definition parallelFor (exec : Executor) (lo hi : N) (kernel : localIdx → option (list MemOp))
    (mem mem' : View scalar) : Prop :=
  match exec with
  | SerialExecutor => parallelFor_serial lo hi kernel mem = Some mem'
  | _ => ∃ ts sched ts',
      launch lo hi kernel = Some ts ∧
      run_schedule sched mem ts = Some (mem', ts') ∧
      finished ts'
  end.

Section ComputeDiv.

Variables (nInternalFaces nBoundaryFaces : localIdx).
Variables (neighbour owner faceCells : View localIdx).
Variables (faceFlux phiF v : View scalar).
Variable (operatorScaling : localIdx → scalar).

Definition serial_internal_body (i : localIdx) (res : View scalar) : option (View scalar) :=
  f ← vget faceFlux i;
  p ← vget phiF i;
  let flux := PrimFloat.mul f p in
  own ← vget owner i;
  r ← vget res own;
  res ← vset res own (PrimFloat.add r flux);
  nei ← vget neighbour i;
  r ← vget res nei;
  vset res nei (PrimFloat.sub r flux).

Definition serial_boundary_body (i : localIdx) (res : View scalar) : option (View scalar) :=
  own ← vget faceCells (idx_sub i nInternalFaces);
  f ← vget faceFlux i;
  p ← vget phiF i;
  let valueOwn := PrimFloat.mul f p in
  r ← vget res own;
  vset res own (PrimFloat.add r valueOwn).

Definition serial_normalize_body (celli : localIdx) (res : View scalar)
  : option (View scalar) :=
  vol ← vget v celli;
  r ← vget res celli;
  vset res celli (PrimFloat.mul r (PrimFloat.div (operatorScaling celli) vol)).

Definition computeDiv_serial (res : View scalar) : option (View scalar) :=
  let nCells := vsize v in
  res ← forLoop 0 nInternalFaces serial_internal_body res;
  res ← forLoop nInternalFaces (idx_add nInternalFaces nBoundaryFaces)
          serial_boundary_body res;
  forLoop 0 nCells serial_normalize_body res.

Definition sumFluxesInternal (i : localIdx) : option (list MemOp) :=
  f ← vget faceFlux i;
  p ← vget phiF i;
  let flux := PrimFloat.mul f p in
  own ← vget owner i;
  nei ← vget neighbour i;
  Some [Atomic own (add_ flux); Atomic nei (sub_ flux)].

Definition sumFluxesBoundary (i : localIdx) : option (list MemOp) :=
  own ← vget faceCells (idx_sub i nInternalFaces);
  f ← vget faceFlux i;
  p ← vget phiF i;
  let valueOwn := PrimFloat.mul f p in
  Some [Atomic own (add_ valueOwn)].

Definition normalizeFluxes (celli : localIdx) : option (list MemOp) :=
  vol ← vget v celli;
  Some [Plain celli (mul_ (PrimFloat.div (operatorScaling celli) vol))].

Definition computeDiv (exec : Executor) (res res' : View scalar) : Prop :=
  let nCells := vsize v in
  match exec with
  | SerialExecutor => computeDiv_serial res = Some res'
  | _ => ∃ res1 res2,
      parallelFor exec 0 nInternalFaces sumFluxesInternal res res1 ∧
      parallelFor exec nInternalFaces (idx_add nInternalFaces nBoundaryFaces)
        sumFluxesBoundary res1 res2 ∧
      parallelFor exec 0 nCells normalizeFluxes res2 res'
  end.

End ComputeDiv.

(** One cell closed by four boundary faces, with face fluxes [10^16], [1],
    [-10^16] and [-1], which sum to zero, unit face values, unit volume and
    unit scaling. *)
Module FourFaces.
Definition nInternalFaces : localIdx := 0%N.
Definition nBoundaryFaces : localIdx := 4%N.
Definition neighbour : View localIdx := [].
Definition owner : View localIdx := [].
Definition faceCells : View localIdx := [0%N; 0%N; 0%N; 0%N].
Definition faceFlux : View scalar := [1e16%float; 1%float; (-1e16)%float; (-1)%float].
Definition phiF : View scalar := [1%float; 1%float; 1%float; 1%float].
Definition v : View scalar := [1%float].
Definition operatorScaling (c : localIdx) : scalar := 1%float.
Definition res : View scalar := [0%float].
End FourFaces.

End Double.

(** * Properties *)

(** ** Views *)

Section ViewFacts.
Context {T : Type}.
Implicit Types (v : View T) (i j : localIdx).

Lemma vget_lt v i : (i < vsize v)%N → is_Some (vget v i).
Proof. unfold vget, vsize. intros H. apply lookup_lt_is_Some. lia. Qed.

Lemma vget_Some_lt v i x : vget v i = Some x → (i < vsize v)%N.
Proof. unfold vget, vsize. intros H%lookup_lt_Some. lia. Qed.

Lemma vset_Some v i x :
  (i < vsize v)%N → vset v i x = Some (<[N.to_nat i := x]> v).
Proof. unfold vset, vsize. intros H. rewrite decide_True; [done | lia]. Qed.

Lemma vset_inv v i x v' :
  vset v i x = Some v' → (i < vsize v)%N ∧ v' = <[N.to_nat i := x]> v.
Proof.
  unfold vset, vsize. case_decide; [|done]. intros [= <-]. split; [lia | done].
Qed.

Lemma vget_insert_eq v i x : (i < vsize v)%N → vget (<[N.to_nat i := x]> v) i = Some x.
Proof. unfold vget, vsize. intros H. apply list_lookup_insert_eq. lia. Qed.

Lemma vget_insert_ne v i j x : i ≠ j → vget (<[N.to_nat i := x]> v) j = vget v j.
Proof. unfold vget. intros H. apply list_lookup_insert_ne. lia. Qed.

Lemma vsize_insert v (k : nat) x : vsize (<[k := x]> v) = vsize v.
Proof. unfold vsize. by rewrite length_insert. Qed.

Lemma view_eq v v' :
  vsize v = vsize v' → (∀ i, (i < vsize v)%N → vget v i = vget v' i) → v = v'.
Proof.
  unfold vsize, vget. intros Hlen H. apply list_eq. intros k.
  destruct (decide (k < length v)%nat) as [Hk|Hk].
  - specialize (H (N.of_nat k)). rewrite Nat2N.id in H. apply H. lia.
  - rewrite !lookup_ge_None_2; [done | lia | lia].
Qed.
End ViewFacts.

(** ** Loops *)

Lemma forLoop_from_ext {S} n i (f g : localIdx → S → option S) s :
  (∀ j s, f j s = g j s) → forLoop_from n i f s = forLoop_from n i g s.
Proof.
  intros H. revert i s. induction n as [|n IH]; intros i s; simpl; [done|].
  rewrite H. destruct (g i s); simpl; [apply IH | done].
Qed.

Lemma indices_from_spec n i j :
  j ∈ indices_from n i ↔ (i ≤ j < i + N.of_nat n)%N.
Proof.
  revert i. induction n as [|n IH]; intros i; simpl.
  - rewrite elem_of_nil. lia.
  - rewrite elem_of_cons, IH. lia.
Qed.

Lemma indices_spec lo hi j : j ∈ indices lo hi ↔ (lo ≤ j < hi)%N.
Proof. unfold indices. rewrite indices_from_spec. lia. Qed.

Lemma indices_from_NoDup n i : NoDup (indices_from n i).
Proof.
  revert i. induction n as [|n IH]; intros i; simpl; constructor; [|apply IH].
  rewrite indices_from_spec. lia.
Qed.

Lemma indices_from_length n i : length (indices_from n i) = n.
Proof. revert i. induction n as [|n IH]; intros i; simpl; [done | by rewrite IH]. Qed.

(** ** Additive operations *)

Lemma shifted_refl mem d : (∀ c, d c = 0) → shifted mem mem d.
Proof.
  intros Hd. split; [done|]. intros c r Hc. rewrite Hd, Hc. f_equal. ring.
Qed.

Lemma shifted_ext mem mem' d d' :
  shifted mem mem' d → (∀ c, d c = d' c) → shifted mem mem' d'.
Proof. intros [Hl H] Hd. split; [done|]. intros c r Hc. rewrite <- Hd. by apply H. Qed.

Lemma shifted_trans mem1 mem2 mem3 d1 d2 d :
  shifted mem1 mem2 d1 → shifted mem2 mem3 d2 → (∀ c, d c = d1 c + d2 c) →
  shifted mem1 mem3 d.
Proof.
  intros [Hl1 H1] [Hl2 H2] Hd. split; [congruence|].
  intros c r Hc. rewrite (H2 c _ (H1 c r Hc)), Hd. f_equal. ring.
Qed.

Lemma run_op_additive o mem :
  additive o = true → (op_slot o < vsize mem)%N →
  ∃ mem', run_op o mem = Some mem' ∧ shifted mem mem' (op_delta o).
Proof.
  intros Hadd Hlt. unfold run_op.
  destruct (vget_lt mem _ Hlt) as [r Hr]. rewrite Hr. simpl.
  rewrite vset_Some by done. eexists. split; [done|]. split.
  - apply vsize_insert.
  - intros c r' Hc. unfold op_delta. case_decide as Hslot.
    + subst c. rewrite vget_insert_eq by done. rewrite Hr in Hc. injection Hc as <-.
      unfold additive in Hadd. destruct (op_update o); simpl; try done; f_equal; ring.
    + rewrite vget_insert_ne by done. rewrite Hc. f_equal. ring.
Qed.

Lemma run_ops_additive ops mem :
  Forall (λ o, additive o = true ∧ (op_slot o < vsize mem)%N) ops →
  ∃ mem', run_ops ops mem = Some mem' ∧ shifted mem mem' (ops_delta ops).
Proof.
  revert mem. induction ops as [|o ops IH]; intros mem Hall; simpl.
  - eexists. split; [done|]. by apply shifted_refl.
  - apply Forall_cons in Hall as [[Hadd Hlt] Hall].
    destruct (run_op_additive o mem Hadd Hlt) as (mem1 & -> & Hs1). simpl.
    destruct (IH mem1) as (mem2 & -> & Hs2).
    { destruct Hs1 as [-> _]. done. }
    eexists. split; [done|]. eapply shifted_trans; [done..|]. done.
Qed.

Lemma run_ops_app ops1 ops2 mem :
  run_ops (ops1 ++ ops2) mem = mem' ← run_ops ops1 mem; run_ops ops2 mem'.
Proof.
  revert mem. induction ops1 as [|o ops1 IH]; intros mem; simpl; [done|].
  destruct (run_op o mem); simpl; [apply IH | done].
Qed.

Lemma ops_delta_app ops1 ops2 c :
  ops_delta (ops1 ++ ops2) c = ops_delta ops1 c + ops_delta ops2 c.
Proof.
  induction ops1 as [|o ops1 IH]; simpl; [ring|]. rewrite IH. ring.
Qed.

Lemma opss_delta_concat opss c : ops_delta (concat opss) c = opss_delta opss c.
Proof.
  induction opss as [|ops opss IH]; simpl; [done|].
  by rewrite ops_delta_app, IH.
Qed.

(** A serial dispatch runs the operations of the iterations one after the
    other, in index order. *)
Lemma forLoop_from_run_ops kernel n i mem :
  forLoop_from n i (λ i mem, ops ← kernel i; run_ops ops mem) mem
  = opss ← kernel_ops kernel (indices_from n i); run_ops (concat opss) mem.
Proof.
  revert i mem. induction n as [|n IH]; intros i mem; simpl; [done|].
  destruct (kernel i) as [ops|]; simpl; [|done].
  destruct (run_ops ops mem) as [mem1|] eqn:E; simpl.
  - rewrite IH. destruct (kernel_ops kernel _); simpl; [|done].
    by rewrite run_ops_app, E.
  - destruct (kernel_ops kernel _); simpl; [|done].
    by rewrite run_ops_app, E.
Qed.

(** ** Schedules of scatter threads *)

Lemma opss_delta_insert (ts : list Thread) tid t t' c :
  ts !! tid = Some t →
  threads_delta (<[tid := t']> ts) c
  = threads_delta ts c - ops_delta (pending t) c + ops_delta (pending t') c.
Proof.
  unfold threads_delta. revert tid. induction ts as [|t0 ts IH]; intros tid Hl; [done|].
  destruct tid as [|tid]; simpl in *.
  - injection Hl as ->. ring.
  - rewrite (IH _ Hl). ring.
Qed.

Lemma finished_delta ts c : finished ts → threads_delta ts c = 0.
Proof.
  unfold threads_delta. induction 1 as [|t ts Ht _ IH]; simpl; [done|].
  rewrite Ht, IH. simpl. ring.
Qed.

Lemma thread_step_scatter mem t :
  scatter_thread (vsize mem) t →
  ∃ mem' t', thread_step mem t = Some (mem', t') ∧
    scatter_thread (vsize mem) t' ∧
    shifted mem mem' (λ c, ops_delta (pending t) c - ops_delta (pending t') c).
Proof.
  intros [Hreg Hops]. unfold thread_step. destruct (pending t) as [|o k] eqn:Hp.
  - exists mem, t. split; [done|]. split; [split; [done | by rewrite Hp]|].
    apply shifted_refl. intros c. rewrite Hp. ring.
  - apply Forall_cons in Hops as [(Hat & Hadd & Hlt) Hk].
    destruct o as [a u|a u]; [|done].
    destruct (run_op_additive _ mem Hadd Hlt) as (mem' & -> & Hs). simpl.
    eexists _, _. split; [done|]. split; [done|]. simpl.
    destruct Hs as [Hlen Hs]. split; [done|].
    intros c r Hc. rewrite (Hs c r Hc). f_equal. ring.
Qed.

Lemma run_schedule_scatter sched mem ts :
  Forall (scatter_thread (vsize mem)) ts →
  ∃ mem' ts', run_schedule sched mem ts = Some (mem', ts') ∧
    Forall (scatter_thread (vsize mem)) ts' ∧
    shifted mem mem' (λ c, threads_delta ts c - threads_delta ts' c).
Proof.
  revert mem ts. induction sched as [|tid sched IH]; intros mem ts Hts; simpl.
  - exists mem, ts. split; [done|]. split; [done|]. apply shifted_refl. intros; ring.
  - destruct (ts !! tid) as [t|] eqn:Hl; [|by apply IH].
    destruct (thread_step_scatter mem t) as (mem1 & t1 & -> & Ht1 & Hs1).
    { by eapply Forall_lookup_1. }
    simpl. assert (Hsz : vsize mem1 = vsize mem) by apply Hs1.
    destruct (IH mem1 (<[tid := t1]> ts)) as (mem2 & ts2 & -> & Hts2 & Hs2).
    { rewrite Hsz. by apply Forall_insert. }
    exists mem2, ts2. split; [done|]. split; [by rewrite <- Hsz|].
    eapply shifted_trans; [done..|]. intros c. simpl.
    rewrite (opss_delta_insert ts tid t t1 c Hl). ring.
Qed.

(** Every terminated schedule of a scatter dispatch adds the net effect of
    all operations to the buffer. *)
Lemma scatter_schedule_result opss sched mem mem' ts' :
  Forall (Forall (scatter_op (vsize mem))) opss →
  run_schedule sched mem (map new_thread opss) = Some (mem', ts') →
  finished ts' →
  shifted mem mem' (opss_delta opss).
Proof.
  intros Hops Hrun Hfin.
  destruct (run_schedule_scatter sched mem (map new_thread opss)) as (m & ts & E & _ & Hs).
  { apply Forall_map. eapply Forall_impl; [done|]. intros ops H. by split. }
  rewrite Hrun in E. injection E as <- <-.
  eapply shifted_trans; [done | apply shifted_refl; done |].
  intros c. simpl. rewrite (finished_delta ts' c Hfin). unfold threads_delta.
  rewrite map_map. simpl. rewrite map_id. ring.
Qed.

(** ** Existence of a terminating schedule *)

Lemma total_work_insert ts tid t t' :
  ts !! tid = Some t → (work t' < work t)%nat →
  (total_work (<[tid := t']> ts) < total_work ts)%nat.
Proof.
  unfold total_work. revert tid. induction ts as [|t0 ts IH]; intros tid Hl Hw; [done|].
  destruct tid as [|tid]; simpl in *.
  - injection Hl as ->. lia.
  - specialize (IH _ Hl Hw). lia.
Qed.

Lemma total_work_0 ts : total_work ts = 0%nat → finished ts.
Proof.
  unfold total_work, finished. induction ts as [|t ts IH]; simpl; [constructor|].
  intros H. constructor.
  - unfold work in H. destruct (pending t); [done|]. destruct (reg t); lia.
  - apply IH. lia.
Qed.

Lemma thread_step_progress mem t :
  thread_in_bounds (vsize mem) t → pending t ≠ [] →
  ∃ mem' t', thread_step mem t = Some (mem', t') ∧ vsize mem' = vsize mem ∧
    thread_in_bounds (vsize mem) t' ∧ (work t' < work t)%nat.
Proof.
  unfold thread_in_bounds, thread_step, work. intros Hb Hne.
  destruct (pending t) as [|o k] eqn:Hp; [done|].
  apply Forall_cons in Hb as [Hlt Hk].
  destruct o as [a u|a u]; simpl in Hlt.
  - unfold run_op. simpl. destruct (vget_lt mem a Hlt) as [r ->]. simpl.
    rewrite vset_Some by done. simpl. eexists _, _. split; [done|]. simpl.
    split; [apply vsize_insert|]. split; [done|].
    destruct (reg t), k; simpl; lia.
  - destruct (reg t) as [r|].
    + rewrite vset_Some by done. simpl. eexists _, _. split; [done|]. simpl.
      split; [apply vsize_insert|]. split; [done|]. destruct k; simpl; lia.
    + destruct (vget_lt mem a Hlt) as [r ->]. simpl. eexists _, _. split; [done|].
      simpl. split; [done|]. split; [by constructor|]. lia.
Qed.

Lemma terminating_schedule_exists mem ts :
  Forall (thread_in_bounds (vsize mem)) ts →
  ∃ sched mem' ts', run_schedule sched mem ts = Some (mem', ts') ∧ finished ts'.
Proof.
  remember (total_work ts) as n eqn:Hn. revert mem ts Hn.
  induction (lt_wf n) as [n _ IH]. intros mem ts -> Hb.
  destruct (decide (Forall (λ t, pending t = []) ts)) as [Hfin|Hnot].
  - exists [], mem, ts. done.
  - apply not_Forall_Exists in Hnot; [|intros t; apply _].
    apply Exists_exists in Hnot as (t & Hin & Hne).
    apply list_elem_of_lookup in Hin as [tid Hl].
    destruct (thread_step_progress mem t) as (mem1 & t1 & Hstep & Hsz & Hb1 & Hw);
      [by eapply Forall_lookup_1 | done |].
    destruct (IH (total_work (<[tid := t1]> ts))) with (mem := mem1) (ts := <[tid := t1]> ts)
      as (sched & mem2 & ts2 & Hrun & Hfin).
    + by eapply total_work_insert.
    + done.
    + rewrite Hsz. by apply Forall_insert.
    + exists (tid :: sched), mem2, ts2. simpl. rewrite Hl, Hstep. simpl. done.
Qed.

(** ** Schedules of threads with private slots *)

Lemma private_inv_init mem specs :
  Forall (λ au, (au.1 < vsize mem)%N) specs →
  private_inv mem specs mem (map private_thread specs).
Proof.
  intros Hb. split; [done|]. split; [|done].
  apply Forall2_fmap_r, Forall_Forall2_diag.
  eapply Forall_impl; [done|]. intros [a u] Hlt. simpl in *.
  destruct (vget_lt mem a Hlt) as [r Hr]. exists r. split; [done|]. left. auto.
Qed.

Lemma private_step mem0 specs mem ts tid t :
  NoDup specs.*1 → private_inv mem0 specs mem ts → ts !! tid = Some t →
  ∃ mem' t', thread_step mem t = Some (mem', t') ∧
    private_inv mem0 specs mem' (<[tid := t']> ts).
Proof.
  intros Hnd (Hsz & Hall & Hrest) Hl.
  destruct (Forall2_lookup_r _ _ _ _ _ Hall Hl) as ([a u] & Hsp & r0 & Hr0 & Hst).
  simpl in *. unfold thread_step.
  assert (Ha : (a < vsize mem)%N) by (rewrite Hsz; by eapply vget_Some_lt).
  destruct Hst as [(Hp & Hreg & Hm)|(Hp & Hm)]; rewrite Hp.
  - destruct Hreg as [Hreg|Hreg]; rewrite Hreg.
    + (* load *)
      rewrite Hm. simpl. eexists _, _. split; [done|]. split; [done|]. split; [|done].
      apply Forall2_same_length_lookup. split.
      { rewrite length_insert. by eapply Forall2_length. }
      intros j au tj Hj. destruct (decide (tid = j)) as [->|Hne].
      * rewrite list_lookup_insert_eq by (by eapply lookup_lt_Some).
        intros [= <-]. rewrite Hsp in Hj. injection Hj as <-.
        exists r0. split; [done|]. left. simpl. auto.
      * rewrite list_lookup_insert_ne by done. intros Htj.
        by eapply Forall2_lookup_lr.
    + (* store *)
      rewrite vset_Some by done. simpl. eexists _, _. split; [done|].
      split; [by rewrite vsize_insert|]. split.
      * apply Forall2_same_length_lookup. split.
        { rewrite length_insert. by eapply Forall2_length. }
        intros j [aj uj] tj Hj. destruct (decide (tid = j)) as [->|Hne].
        -- rewrite list_lookup_insert_eq by (by eapply lookup_lt_Some).
           intros [= <-]. rewrite Hsp in Hj. injection Hj as <- <-.
           exists r0. split; [done|]. right. simpl. split; [done|].
           by rewrite vget_insert_eq.
        -- rewrite list_lookup_insert_ne by done. intros Htj.
           assert (a ≠ aj) as Hslot.
           { intros ->. apply Hne. eapply NoDup_lookup; [done| |].
             - by rewrite list_lookup_fmap, Hsp.
             - by rewrite list_lookup_fmap, Hj. }
           destruct (Forall2_lookup_lr _ _ _ _ _ _ Hall Hj Htj) as (rj & Hrj & Hstj).
           exists rj. split; [done|]. simpl in *.
           rewrite vget_insert_ne by done. done.
      * intros c Hc. rewrite vget_insert_ne; [by apply Hrest|].
        intros ->. apply Hc. apply list_elem_of_fmap. exists (c, u). split; [done|].
        by eapply list_elem_of_lookup_2.
  - (* stutter *)
    eexists _, _. split; [done|]. rewrite list_insert_id by done. done.
Qed.

Lemma run_schedule_private sched mem0 specs mem ts :
  NoDup specs.*1 → private_inv mem0 specs mem ts →
  ∃ mem' ts', run_schedule sched mem ts = Some (mem', ts') ∧
    private_inv mem0 specs mem' ts'.
Proof.
  intros Hnd. revert mem ts. induction sched as [|tid sched IH]; intros mem ts Hinv; simpl.
  - by exists mem, ts.
  - destruct (ts !! tid) as [t|] eqn:Hl; [|by apply IH].
    destruct (private_step _ _ _ _ _ _ Hnd Hinv Hl) as (mem1 & t1 & -> & Hinv1).
    simpl. by apply IH.
Qed.

Lemma private_inv_finished mem0 specs mem ts :
  private_inv mem0 specs mem ts → finished ts → updated mem0 mem specs.
Proof.
  intros (Hsz & Hall & Hrest) Hfin. split; [done|]. split; [|done].
  intros a u r Hin Hr. apply list_elem_of_lookup in Hin as [j Hj].
  destruct (Forall2_lookup_l _ _ _ _ _ Hall Hj) as (t & Ht & r0 & Hr0 & Hst).
  simpl in *. rewrite Hr in Hr0. injection Hr0 as <-.
  destruct Hst as [(Hp & _)|(_ & Hm)]; [|done].
  assert (pending t = []) as Hp' by (eapply Forall_lookup_1 in Hfin; done).
  congruence.
Qed.

(** Every terminated schedule of a dispatch over private slots leaves each
    slot with its update applied once. *)
Lemma private_schedule_result specs sched mem mem' ts' :
  NoDup specs.*1 → Forall (λ au, (au.1 < vsize mem)%N) specs →
  run_schedule sched mem (map private_thread specs) = Some (mem', ts') →
  finished ts' →
  updated mem mem' specs.
Proof.
  intros Hnd Hb Hrun Hfin.
  destruct (run_schedule_private sched mem specs mem (map private_thread specs))
    as (m & ts & E & Hinv); [done | by apply private_inv_init |].
  rewrite Hrun in E. injection E as <- <-. by eapply private_inv_finished.
Qed.

(** The same slots updated one after the other. *)
Lemma run_ops_private specs mem :
  NoDup specs.*1 → Forall (λ au, (au.1 < vsize mem)%N) specs →
  ∃ mem', run_ops (map (λ au, Plain au.1 au.2) specs) mem = Some mem' ∧
    updated mem mem' specs.
Proof.
  revert mem. induction specs as [|[a u] specs IH]; intros mem Hnd Hb; simpl.
  - exists mem. split; [done|]. split; [done|]. split; [|done].
    intros a u r Hin. by apply elem_of_nil in Hin.
  - apply NoDup_cons in Hnd as [Hnotin Hnd]. apply Forall_cons in Hb as [Ha Hb].
    simpl in *. unfold run_op. simpl.
    destruct (vget_lt mem a Ha) as [r Hr]. rewrite Hr. simpl.
    rewrite vset_Some by done. simpl.
    destruct (IH (<[N.to_nat a := apply_update u r]> mem)) as (mem' & -> & Hsz & Hupd & Hrest);
      [done | by rewrite vsize_insert |].
    exists mem'. split; [done|]. split; [by rewrite Hsz, vsize_insert|]. split.
    + intros a' u' r' Hin Hr'. apply elem_of_cons in Hin as [[= -> ->]|Hin].
      * rewrite Hrest by done. rewrite vget_insert_eq by done. congruence.
      * apply (Hupd a' u' r' Hin). rewrite vget_insert_ne; [done|].
        intros ->. apply Hnotin. apply list_elem_of_fmap. by exists (a', u').
    + intros c Hc. apply not_elem_of_cons in Hc as [Hne Hc].
      rewrite Hrest by done. by rewrite vget_insert_ne.
Qed.

(** ** Dispatches on any executor *)

Lemma parallelFor_scatter exec lo hi kernel mem opss :
  kernel_ops kernel (indices lo hi) = Some opss →
  Forall (Forall (scatter_op (vsize mem))) opss →
  (∃ mem', parallelFor exec lo hi kernel mem mem') ∧
  (∀ mem', parallelFor exec lo hi kernel mem mem' → shifted mem mem' (opss_delta opss)).
Proof.
  intros Hk Hops.
  assert (∃ mem', parallelFor_serial lo hi kernel mem = Some mem' ∧
                  shifted mem mem' (opss_delta opss)) as (memS & HS & HsS).
  { unfold parallelFor_serial, forLoop. unfold indices in Hk.
    rewrite forLoop_from_run_ops, Hk. simpl.
    destruct (run_ops_additive (concat opss) mem) as (mem' & -> & Hs).
    - apply Forall_concat. eapply Forall_impl; [done|]. intros ops Ho.
      eapply Forall_impl; [done|]. by intros o (_ & Hadd & Hlt).
    - exists mem'. split; [done|]. eapply shifted_ext; [done|].
      intros c. apply opss_delta_concat. }
  assert (∃ mem' sched ts', run_schedule sched mem (map new_thread opss) = Some (mem', ts')
                            ∧ finished ts') as (memP & sched & tsP & HP & HfinP).
  { destruct (terminating_schedule_exists mem (map new_thread opss))
      as (sched & mem' & ts' & Hrun & Hfin).
    - apply Forall_map. eapply Forall_impl; [done|]. intros ops Ho.
      unfold thread_in_bounds. simpl. eapply Forall_impl; [done|]. by intros o (_ & _ & Hlt).
    - by exists mem', sched, ts'. }
  assert (launch lo hi kernel = Some (map new_thread opss)) as Hlaunch.
  { unfold launch. by rewrite Hk. }
  split.
  - destruct exec; simpl; [by exists memS | exists memP, (map new_thread opss), sched, tsP..];
      done.
  - intros mem'. destruct exec; simpl.
    + intros H. rewrite HS in H. by injection H as <-.
    + intros (ts & sch & ts' & Hl & Hrun & Hfin). rewrite Hlaunch in Hl.
      injection Hl as <-. by eapply scatter_schedule_result.
    + intros (ts & sch & ts' & Hl & Hrun & Hfin). rewrite Hlaunch in Hl.
      injection Hl as <-. by eapply scatter_schedule_result.
Qed.

Lemma concat_plain_singletons (specs : list (localIdx * Update)) :
  concat (map (λ au, [Plain au.1 au.2]) specs) = map (λ au, Plain au.1 au.2) specs.
Proof. induction specs as [|au specs IH]; simpl; [done | by rewrite IH]. Qed.

Lemma parallelFor_private exec lo hi kernel mem specs :
  kernel_ops kernel (indices lo hi) = Some (map (λ au, [Plain au.1 au.2]) specs) →
  NoDup specs.*1 → Forall (λ au, (au.1 < vsize mem)%N) specs →
  (∃ mem', parallelFor exec lo hi kernel mem mem') ∧
  (∀ mem', parallelFor exec lo hi kernel mem mem' → updated mem mem' specs).
Proof.
  intros Hk Hnd Hb.
  assert (∃ mem', parallelFor_serial lo hi kernel mem = Some mem' ∧
                  updated mem mem' specs) as (memS & HS & HuS).
  { unfold parallelFor_serial, forLoop. unfold indices in Hk.
    rewrite forLoop_from_run_ops, Hk. simpl. rewrite concat_plain_singletons.
    by apply run_ops_private. }
  assert (launch lo hi kernel = Some (map private_thread specs)) as Hlaunch.
  { unfold launch. rewrite Hk. simpl. by rewrite map_map. }
  assert (∃ mem' sched ts', run_schedule sched mem (map private_thread specs)
                            = Some (mem', ts') ∧ finished ts')
    as (memP & sched & tsP & HP & HfinP).
  { destruct (terminating_schedule_exists mem (map private_thread specs))
      as (sched & mem' & ts' & Hrun & Hfin).
    - apply Forall_map. eapply Forall_impl; [done|]. intros au Hlt.
      unfold thread_in_bounds. simpl. by constructor.
    - by exists mem', sched, ts'. }
  split.
  - destruct exec; simpl;
      [by exists memS | exists memP, (map private_thread specs), sched, tsP..]; done.
  - intros mem'. destruct exec; simpl.
    + intros H. rewrite HS in H. by injection H as <-.
    + intros (ts & sch & ts' & Hl & Hrun & Hfin). rewrite Hlaunch in Hl.
      injection Hl as <-. by eapply private_schedule_result.
    + intros (ts & sch & ts' & Hl & Hrun & Hfin). rewrite Hlaunch in Hl.
      injection Hl as <-. by eapply private_schedule_result.
Qed.

(** ** Explicit divergence *)

Section ComputeDivFacts.

Variables (nInternalFaces nBoundaryFaces : localIdx).
Variables (neighbour owner faceCells : View localIdx).
Variables (faceFlux phiF v : View scalar).
Variable (operatorScaling : localIdx → scalar).

Local Abbreviation nCells := (vsize v).
Local Abbreviation internalK := (sumFluxesInternal neighbour owner faceFlux phiF).
Local Abbreviation boundaryK := (sumFluxesBoundary nInternalFaces faceCells faceFlux phiF).
Local Abbreviation normalizeK := (normalizeFluxes v operatorScaling).
Local Abbreviation term := (faceTerm faceFlux phiF).
Local Abbreviation sumF := (sumFaces faceFlux phiF).
Local Abbreviation pre :=
  (computeDiv_pre nInternalFaces nBoundaryFaces neighbour owner faceCells faceFlux phiF v).
Local Abbreviation facts :=
  (pre_facts nInternalFaces nBoundaryFaces neighbour owner faceCells faceFlux phiF v).
Local Abbreviation specsN := (normalize_specs v operatorScaling).
Local Abbreviation fluxSum :=
  (cellFluxSum nInternalFaces nBoundaryFaces neighbour owner faceCells faceFlux phiF).

(** *** The serial loop bodies run the operations of the kernels *)

Lemma serial_internal_body_kernel i res :
  serial_internal_body neighbour owner faceFlux phiF i res
  = ops ← internalK i; run_ops ops res.
Proof.
  unfold serial_internal_body, sumFluxesInternal.
  destruct (vget faceFlux i) as [f|]; simpl; [|done].
  destruct (vget phiF i) as [p|]; simpl; [|done].
  destruct (vget owner i) as [own|]; simpl; [|done].
  destruct (vget neighbour i) as [nei|]; simpl; unfold run_op; simpl.
  - destruct (vget res own); simpl; [|done].
    destruct (vset res own _) as [res1|]; simpl; [|done].
    destruct (vget res1 nei); simpl; [|done]. by destruct (vset res1 nei _).
  - destruct (vget res own); simpl; [|done]. by destruct (vset res own _).
Qed.

Lemma serial_boundary_body_kernel i res :
  serial_boundary_body nInternalFaces faceCells faceFlux phiF i res
  = ops ← boundaryK i; run_ops ops res.
Proof.
  unfold serial_boundary_body, sumFluxesBoundary.
  destruct (vget faceCells _) as [own|]; simpl; [|done].
  destruct (vget faceFlux i) as [f|]; simpl; [|done].
  destruct (vget phiF i) as [p|]; simpl; [|done].
  unfold run_op; simpl. destruct (vget res own); simpl; [|done].
  by destruct (vset res own _).
Qed.

Lemma serial_normalize_body_kernel i res :
  serial_normalize_body v operatorScaling i res
  = ops ← normalizeK i; run_ops ops res.
Proof.
  unfold serial_normalize_body, normalizeFluxes.
  destruct (vget v i) as [vol|]; simpl; [|done].
  unfold run_op; simpl. destruct (vget res i); simpl; [|done].
  by destruct (vset res i _).
Qed.

(** *** Consequences of the precondition *)

Lemma cells_in_range_spec cells n i :
  cells_in_range v cells n = true → (i < n)%N →
  ∃ c, vget cells i = Some c ∧ (c < nCells)%N.
Proof.
  unfold cells_in_range. rewrite forallb_forall. intros H Hi.
  specialize (H i). destruct (vget cells i) as [c|].
  - exists c. split; [done|]. apply N.ltb_lt, H.
    apply list_elem_of_In, indices_spec. lia.
  - exfalso. enough (false = true) by done. apply H.
    apply list_elem_of_In, indices_spec. lia.
Qed.

Lemma computeDiv_pre_facts res : pre res = true → facts res.
Proof.
  unfold computeDiv_pre. rewrite !andb_true_iff.
  intros [[[[[[[H1 H2] H3] H4] H5] H6] H7] H8].
  split.
  - by apply N.ltb_lt.
  - by apply N.ltb_lt.
  - intros i. by apply cells_in_range_spec.
  - intros i. by apply cells_in_range_spec.
  - intros i. by apply cells_in_range_spec.
  - by apply N.leb_le.
  - by apply N.leb_le.
  - by apply N.eqb_eq.
Qed.

Lemma idx_add_faces res :
  facts res →
  idx_add nInternalFaces nBoundaryFaces = (nInternalFaces + nBoundaryFaces)%N.
Proof. intros H. unfold idx_add. apply N.mod_small, H. Qed.

Lemma idx_sub_face res i :
  facts res → (nInternalFaces ≤ i < nInternalFaces + nBoundaryFaces)%N →
  idx_sub i nInternalFaces = (i - nInternalFaces)%N.
Proof.
  intros H Hi. unfold idx_sub. pose proof (pf_faces res H) as Hf.
  rewrite (N.mod_small nInternalFaces) by lia.
  replace (i + localIdx_modulus - nInternalFaces)%N
    with ((i - nInternalFaces) + 1 * localIdx_modulus)%N by lia.
  rewrite N.Div0.mod_add. apply N.mod_small. lia.
Qed.

(** *** Operations of the three kernels *)

Lemma internal_kernel_ops (idxs : list localIdx) res :
  facts res → Forall (λ i, (i < nInternalFaces)%N) idxs →
  ∃ opss, kernel_ops internalK idxs = Some opss ∧
    Forall (Forall (scatter_op nCells)) opss ∧
    ∀ c, opss_delta opss c = sumF idxs (vget owner) c - sumF idxs (vget neighbour) c.
Proof.
  intros Hpre. induction idxs as [|i idxs IH]; intros Hall; simpl.
  - exists []. split; [done|]. split; [done|]. intros c. simpl. ring.
  - apply Forall_cons in Hall as [Hi Hall].
    destruct (IH Hall) as (opss & -> & Hops & Hdelta).
    destruct (pf_owner res Hpre i Hi) as (own & Hown & Hownlt).
    destruct (pf_neighbour res Hpre i Hi) as (nei & Hnei & Hneilt).
    destruct (vget_lt faceFlux i) as [f Hf]; [pose proof (pf_faceFlux res Hpre); lia|].
    destruct (vget_lt phiF i) as [p Hp]; [pose proof (pf_phiF res Hpre); lia|].
    unfold sumFluxesInternal, faceTerm. rewrite Hf, Hp, Hown, Hnei. simpl.
    eexists. split; [done|]. split.
    + constructor; [|done]. repeat constructor; done.
    + intros c. simpl. rewrite Hdelta. unfold op_delta. simpl.
      repeat case_decide; simplify_eq; ring.
Qed.

Lemma boundary_kernel_ops (idxs : list localIdx) res :
  facts res →
  Forall (λ i, (nInternalFaces ≤ i < nInternalFaces + nBoundaryFaces)%N) idxs →
  ∃ opss, kernel_ops boundaryK idxs = Some opss ∧
    Forall (Forall (scatter_op nCells)) opss ∧
    ∀ c, opss_delta opss c
         = sumF idxs (λ j, vget faceCells (j - nInternalFaces)%N) c.
Proof.
  intros Hpre. induction idxs as [|i idxs IH]; intros Hall; simpl.
  - exists []. done.
  - apply Forall_cons in Hall as [Hi Hall].
    destruct (IH Hall) as (opss & -> & Hops & Hdelta).
    destruct (pf_faceCells res Hpre (i - nInternalFaces)%N) as (own & Hown & Hownlt);
      [lia|].
    destruct (vget_lt faceFlux i) as [f Hf]; [pose proof (pf_faceFlux res Hpre); lia|].
    destruct (vget_lt phiF i) as [p Hp]; [pose proof (pf_phiF res Hpre); lia|].
    unfold sumFluxesBoundary, faceTerm.
    rewrite (idx_sub_face res i Hpre Hi), Hf, Hp, Hown. simpl.
    eexists. split; [done|]. split.
    + constructor; [|done]. repeat constructor; done.
    + intros c. simpl. rewrite Hdelta. unfold op_delta. simpl.
      repeat case_decide; simplify_eq; ring.
Qed.

Lemma normalize_kernel_ops (idxs : list localIdx) :
  Forall (λ c, (c < nCells)%N) idxs →
  kernel_ops normalizeK idxs
  = Some (map (λ au, [Plain au.1 au.2]) (specsN idxs)).
Proof.
  induction idxs as [|c idxs IH]; intros Hall; simpl; [done|].
  apply Forall_cons in Hall as [Hc Hall]. rewrite (IH Hall).
  unfold normalizeFluxes. destruct (vget_lt v c Hc) as [vol ->]. done.
Qed.

(** *** The three phases, on any executor *)

Local Abbreviation result_of :=
  (div_result nInternalFaces nBoundaryFaces neighbour owner faceCells faceFlux phiF v
     operatorScaling).

Lemma normalize_specs_slots idxs : (specsN idxs).*1 = idxs.
Proof.
  unfold normalize_specs. induction idxs as [|c idxs IH]; simpl; [done|].
  f_equal. apply IH.
Qed.

Lemma normalize_specs_in_bounds (mem : View scalar) idxs :
  vsize mem = nCells → Forall (λ c, (c < nCells)%N) idxs →
  Forall (λ au, (au.1 < vsize mem)%N) (specsN idxs).
Proof.
  intros Hsz Hall. unfold normalize_specs. apply Forall_map.
  eapply Forall_impl; [done|]. intros c Hc. simpl. by rewrite Hsz.
Qed.

Lemma indices_lt lo hi : Forall (λ c, (c < hi)%N) (indices lo hi).
Proof. apply Forall_forall. intros c Hc%indices_spec. lia. Qed.

Lemma indices_between lo hi : Forall (λ c, (lo ≤ c < hi)%N) (indices lo hi).
Proof. apply Forall_forall. intros c Hc%indices_spec. lia. Qed.

(** What the three phases amount to, given the result of each. *)
Lemma phases_result res res1 res2 res' opssI opssB :
  facts res →
  (∀ c, opss_delta opssI c
        = sumF (indices 0 nInternalFaces) (vget owner) c
          - sumF (indices 0 nInternalFaces) (vget neighbour) c) →
  (∀ c, opss_delta opssB c
        = sumF (indices nInternalFaces (nInternalFaces + nBoundaryFaces))
            (λ j, vget faceCells (j - nInternalFaces)%N) c) →
  shifted res res1 (opss_delta opssI) →
  shifted res1 res2 (opss_delta opssB) →
  updated res2 res' (specsN (indices 0 nCells)) →
  result_of res res'.
Proof.
  intros Hpre HdI HdB [Hsz1 Hs1] [Hsz2 Hs2] (Hsz3 & Hupd & _). split; [congruence|].
  intros c r Hc.
  assert (c < nCells)%N as Hlt.
  { rewrite <- (pf_res res Hpre). by eapply vget_Some_lt. }
  apply (Hupd c (mul_ (operatorScaling c / default 0 (vget v c)))).
  - unfold normalize_specs. apply list_elem_of_fmap. exists c. split; [done|].
    apply indices_spec. lia.
  - rewrite (Hs2 c _ (Hs1 c r Hc)). f_equal.
    unfold cellFluxSum, internalFaces, boundaryFaces. rewrite HdI, HdB. ring.
Qed.

Lemma computeDiv_serial_result res :
  facts res →
  ∃ res',
    computeDiv_serial nInternalFaces nBoundaryFaces neighbour owner faceCells
      faceFlux phiF v operatorScaling res = Some res' ∧
    result_of res res'.
Proof.
  intros Hpre. unfold computeDiv_serial, forLoop.
  rewrite (idx_add_faces res Hpre).
  destruct (internal_kernel_ops (indices 0 nInternalFaces) res Hpre)
    as (opssI & HkI & HopsI & HdI); [apply indices_lt|].
  destruct (boundary_kernel_ops
              (indices nInternalFaces (nInternalFaces + nBoundaryFaces)) res Hpre)
    as (opssB & HkB & HopsB & HdB); [apply indices_between|].
  pose proof (normalize_kernel_ops (indices 0 nCells) (indices_lt 0 nCells)) as HkN.
  unfold indices in HkI, HkB, HkN.
  (* internal faces *)
  rewrite (forLoop_from_ext _ _ _ _ _ serial_internal_body_kernel).
  rewrite forLoop_from_run_ops, HkI. simpl.
  destruct (run_ops_additive (concat opssI) res) as (res1 & -> & Hs1).
  { apply Forall_concat. eapply Forall_impl; [done|]. intros ops Hops.
    eapply Forall_impl; [done|]. intros o (_ & Hadd & Hlt).
    split; [done|]. by rewrite (pf_res res Hpre). }
  simpl. assert (vsize res1 = nCells) as Hsz1.
  { destruct Hs1 as [-> _]. apply Hpre. }
  (* boundary faces *)
  rewrite (forLoop_from_ext _ _ _ _ _ serial_boundary_body_kernel).
  rewrite forLoop_from_run_ops, HkB. simpl.
  destruct (run_ops_additive (concat opssB) res1) as (res2 & -> & Hs2).
  { apply Forall_concat. eapply Forall_impl; [done|]. intros ops Hops.
    eapply Forall_impl; [done|]. intros o (_ & Hadd & Hlt).
    split; [done|]. by rewrite Hsz1. }
  simpl. assert (vsize res2 = nCells) as Hsz2.
  { destruct Hs2 as [-> _]. done. }
  (* normalisation *)
  rewrite (forLoop_from_ext _ _ _ _ _ serial_normalize_body_kernel).
  rewrite forLoop_from_run_ops, HkN. simpl. rewrite concat_plain_singletons.
  destruct (run_ops_private (specsN (indices 0 nCells)) res2)
    as (res' & Hrun & Hupd).
  { rewrite normalize_specs_slots. apply indices_from_NoDup. }
  { apply normalize_specs_in_bounds; [done | apply indices_lt]. }
  unfold indices in Hrun. rewrite Hrun. exists res'. split; [done|].
  eapply (phases_result res res1 res2 res' opssI opssB); try done.
  - eapply shifted_ext; [done|]. intros c. apply opss_delta_concat.
  - eapply shifted_ext; [done|]. intros c. apply opss_delta_concat.
Qed.

Lemma computeDiv_parallel_result exec res :
  facts res →
  (∃ res1 res2 res',
      parallelFor exec 0 nInternalFaces internalK res res1 ∧
      parallelFor exec nInternalFaces (idx_add nInternalFaces nBoundaryFaces)
        boundaryK res1 res2 ∧
      parallelFor exec 0 nCells normalizeK res2 res') ∧
  (∀ res1 res2 res',
      parallelFor exec 0 nInternalFaces internalK res res1 →
      parallelFor exec nInternalFaces (idx_add nInternalFaces nBoundaryFaces)
        boundaryK res1 res2 →
      parallelFor exec 0 nCells normalizeK res2 res' →
      result_of res res').
Proof.
  intros Hpre. rewrite (idx_add_faces res Hpre).
  destruct (internal_kernel_ops (indices 0 nInternalFaces) res Hpre)
    as (opssI & HkI & HopsI & HdI); [apply indices_lt|].
  destruct (boundary_kernel_ops
              (indices nInternalFaces (nInternalFaces + nBoundaryFaces)) res Hpre)
    as (opssB & HkB & HopsB & HdB); [apply indices_between|].
  pose proof (normalize_kernel_ops (indices 0 nCells) (indices_lt 0 nCells)) as HkN.
  assert (Hphase1 : ∀ res1, shifted res res1 (opss_delta opssI) → vsize res1 = nCells).
  { intros res1 [-> _]. apply Hpre. }
  assert (Hphase2 : ∀ res1 res2, vsize res1 = nCells →
             shifted res1 res2 (opss_delta opssB) → vsize res2 = nCells).
  { intros res1 res2 Hsz [-> _]. done. }
  pose proof (parallelFor_scatter exec 0 nInternalFaces internalK res opssI HkI)
    as [[res1 Hex1] Hall1]; [by rewrite (pf_res res Hpre)|].
  assert (Hsc2 : ∀ res1, vsize res1 = nCells →
    (∃ res2, parallelFor exec nInternalFaces (nInternalFaces + nBoundaryFaces)
               boundaryK res1 res2) ∧
    (∀ res2, parallelFor exec nInternalFaces (nInternalFaces + nBoundaryFaces)
               boundaryK res1 res2 → shifted res1 res2 (opss_delta opssB))).
  { intros r1 Hsz. apply parallelFor_scatter; [done | by rewrite Hsz]. }
  assert (Hsc3 : ∀ res2, vsize res2 = nCells →
    (∃ res', parallelFor exec 0 nCells normalizeK res2 res') ∧
    (∀ res', parallelFor exec 0 nCells normalizeK res2 res' →
             updated res2 res' (specsN (indices 0 nCells)))).
  { intros r2 Hsz. apply parallelFor_private; [done| |].
    - rewrite normalize_specs_slots. apply indices_from_NoDup.
    - apply normalize_specs_in_bounds; [done | apply indices_lt]. }
  split.
  - pose proof (Hphase1 _ (Hall1 _ Hex1)) as Hsz1.
    destruct (Hsc2 res1 Hsz1) as [[res2 Hex2] Hall2].
    pose proof (Hphase2 _ _ Hsz1 (Hall2 _ Hex2)) as Hsz2.
    destruct (Hsc3 res2 Hsz2) as [[res' Hex3] _].
    by exists res1, res2, res'.
  - intros r1 r2 r' H1 H2 H3.
    pose proof (Hall1 _ H1) as Hs1. pose proof (Hphase1 _ Hs1) as Hsz1.
    destruct (Hsc2 r1 Hsz1) as [_ Hall2]. pose proof (Hall2 _ H2) as Hs2.
    pose proof (Hphase2 _ _ Hsz1 Hs2) as Hsz2.
    destruct (Hsc3 r2 Hsz2) as [_ Hall3].
    eapply (phases_result res r1 r2 r' opssI opssB); eauto.
Qed.

Lemma computeDiv_result exec res :
  facts res →
  (∃ res', computeDiv nInternalFaces nBoundaryFaces neighbour owner faceCells
             faceFlux phiF v operatorScaling exec res res') ∧
  (∀ res', computeDiv nInternalFaces nBoundaryFaces neighbour owner faceCells
             faceFlux phiF v operatorScaling exec res res' → result_of res res').
Proof.
  intros Hpre.
  destruct (computeDiv_serial_result res Hpre) as (resS & HS & HrS).
  destruct (computeDiv_parallel_result exec res Hpre) as [(r1 & r2 & r' & Hex) Hall].
  unfold computeDiv. destruct exec.
  - split; [by exists resS|]. intros res' H. rewrite HS in H. by injection H as <-.
  - split; [by exists r', r1, r2|]. intros res' (r1' & r2' & H1 & H2 & H3). eauto.
  - split; [by exists r', r1, r2|]. intros res' (r1' & r2' & H1 & H2 & H3). eauto.
Qed.

Lemma div_result_unique res res1 res2 :
  result_of res res1 → result_of res res2 → res1 = res2.
Proof.
  intros [Hsz1 H1] [Hsz2 H2]. apply view_eq; [congruence|].
  intros c Hc. rewrite Hsz1 in Hc. destruct (vget_lt res c Hc) as [r Hr].
  by rewrite (H1 c r Hr), (H2 c r Hr).
Qed.

End ComputeDivFacts.



(** With exact arithmetic the order of the additions to a cell does not
    matter: over the rationals every result of the parallel-dispatch branch,
    whatever the interleaving of its threads, is the result of the serial
    branch.  This is a law of the rationals, not of the floating-point
    arithmetic of the source; what holds of the source is stated further
    below, with the order of the updates made explicit. *)
Lemma computeDiv_exact_arithmetic_order_free
    (nInternalFaces nBoundaryFaces : localIdx) (neighbour owner faceCells : View localIdx)
    (faceFlux phiF v : View scalar) (operatorScaling : localIdx → scalar)
    (res : View scalar) :
  computeDiv_pre nInternalFaces nBoundaryFaces neighbour owner faceCells
    faceFlux phiF v res = true →
  ∃ resS,
    computeDiv nInternalFaces nBoundaryFaces neighbour owner faceCells
      faceFlux phiF v operatorScaling SerialExecutor res resS ∧
    ∀ exec,
      (∃ res', computeDiv nInternalFaces nBoundaryFaces neighbour owner faceCells
                 faceFlux phiF v operatorScaling exec res res') ∧
      (∀ res', computeDiv nInternalFaces nBoundaryFaces neighbour owner faceCells
                 faceFlux phiF v operatorScaling exec res res' → res' = resS).
Proof.
  intros Hpre%computeDiv_pre_facts.
  destruct (computeDiv_result _ _ _ _ _ _ _ _ operatorScaling SerialExecutor res Hpre)
    as [[resS HS] HallS].
  exists resS. split; [done|]. intros exec.
  destruct (computeDiv_result _ _ _ _ _ _ _ _ operatorScaling exec res Hpre) as [Hex Hall].
  split; [done|]. intros res' H.
  eapply div_result_unique; [by apply Hall | by apply HallS].
Qed.

Lemma computeDiv_exact_arithmetic_order_free_example :
  let neighbour := [1; 2]%N in
  let owner := [0; 1]%N in
  let faceCells := [0; 2]%N in
  let faceFlux := [Q2Qc 2; Q2Qc 3; Q2Qc 5; Q2Qc 7] in
  let phiF := [Q2Qc 1; Q2Qc (1 # 2); Q2Qc 1; Q2Qc 1] in
  let v := [Q2Qc 1; Q2Qc 2; Q2Qc 4] in
  let res := [Q2Qc 1; Q2Qc 0; Q2Qc (-3)] in
  ∃ resS,
    computeDiv 2%N 2%N neighbour owner faceCells faceFlux phiF v (λ c, Q2Qc 2)
      SerialExecutor res resS ∧
    ∀ exec,
      (∃ res', computeDiv 2%N 2%N neighbour owner faceCells faceFlux phiF v (λ c, Q2Qc 2)
                 exec res res') ∧
      (∀ res', computeDiv 2%N 2%N neighbour owner faceCells faceFlux phiF v (λ c, Q2Qc 2)
                 exec res res' → res' = resS).
Proof. intros. apply computeDiv_exact_arithmetic_order_free. reflexivity. Qed.

(** ** Implicit divergence *)

(** Equality of closed rational expressions. *)
Ltac qc_eq :=
  repeat first [ reflexivity | apply Qc_is_canon; reflexivity | progress f_equal ].

Lemma run_ls_ops_matrix ops ls :
  run_ls_ops (map (λ o, (matrixValues, o)) ops) ls
  = a ← run_ops ops (values ls); Some {| values := a; rhs := rhs ls |}.
Proof.
  revert ls. induction ops as [|o ops IH]; intros ls; simpl.
  - by destruct ls.
  - unfold run_ls_op. simpl. destruct (run_op o (values ls)); simpl; [|done].
    by rewrite IH.
Qed.

Lemma hits_delta slot k x : (if decide (slot = k) then x else 0) = hits slot k * x.
Proof. unfold hits. case_decide; ring. Qed.

(** C2 (as the code has it).  One internal face with flux [f], owner [o] and
    neighbour [n] changes the matrix values, and nothing else, as follows, with
    [w = 1] if [f >= 0] and [w = 0] otherwise, [v1 = - w * f] and
    [v2 = (1 - w) * f]: [v1 * s_n] is added to the off-diagonal slot of the
    neighbour's row and [v1 * s_o] is subtracted from the owner's diagonal
    slot; [v2 * s_o] is added to the off-diagonal slot of the owner's row and
    [v2 * s_n] is subtracted from the neighbour's diagonal slot.  Each update
    of a row carries the scaling of the cell of that row. *)
Theorem divImp_internal_face_updates
    (sFaceFlux : View scalar) (owner neighbour diagOffs ownOffs neiOffs rowOffs : View localIdx)
    (operatorScaling : localIdx → scalar) (facei : localIdx) (ls : LinearSystemView)
    (f : scalar) (o n rowOwn rowNei neiOff ownOff diagOwn diagNei : localIdx) :
  vget sFaceFlux facei = Some f →
  vget owner facei = Some o →
  vget neighbour facei = Some n →
  vget rowOffs o = Some rowOwn →
  vget rowOffs n = Some rowNei →
  vget neiOffs facei = Some neiOff →
  vget ownOffs facei = Some ownOff →
  vget diagOffs o = Some diagOwn →
  vget diagOffs n = Some diagNei →
  (idx_add rowNei neiOff < vsize (values ls))%N →
  (idx_add rowOwn diagOwn < vsize (values ls))%N →
  (idx_add rowOwn ownOff < vsize (values ls))%N →
  (idx_add rowNei diagNei < vsize (values ls))%N →
  let w : scalar := if decide (0 <= f) then 1 else 0 in
  let v1 := - w * f in
  let v2 := (1 - w) * f in
  let s_o := operatorScaling o in
  let s_n := operatorScaling n in
  ∃ ops ls',
    divImp_internal sFaceFlux owner neighbour diagOffs ownOffs neiOffs rowOffs
      operatorScaling facei = Some ops ∧
    run_ls_ops ops ls = Some ls' ∧
    rhs ls' = rhs ls ∧
    vsize (values ls') = vsize (values ls) ∧
    ∀ k r, vget (values ls) k = Some r →
      vget (values ls') k
      = Some (r + hits (idx_add rowNei neiOff) k * (v1 * s_n)
                - hits (idx_add rowOwn diagOwn) k * (v1 * s_o)
                + hits (idx_add rowOwn ownOff) k * (v2 * s_o)
                - hits (idx_add rowNei diagNei) k * (v2 * s_n)).
Proof.
  intros Hf Ho Hn HrO HrN HnO HoO HdO HdN B1 B2 B3 B4 w v1 v2 s_o s_n.
  pose (ops := [Plain (idx_add rowNei neiOff) (add_ (- w * f * 1 * s_n));
                Atomic (idx_add rowOwn diagOwn) (sub_ (- w * f * 1 * s_o));
                Plain (idx_add rowOwn ownOff) (add_ (f * (1 - w) * 1 * s_o));
                Atomic (idx_add rowNei diagNei) (sub_ (f * (1 - w) * 1 * s_n))]).
  destruct (run_ops_additive ops (values ls)) as (a & Hrun & Hsz & Hs).
  { repeat constructor; done. }
  exists (map (λ o, (matrixValues, o)) ops), {| values := a; rhs := rhs ls |}.
  split.
  { unfold divImp_internal. rewrite Hf. simpl. rewrite Ho. simpl. rewrite Hn. simpl.
    rewrite HrN. simpl. rewrite HrO. simpl. rewrite HnO. simpl. rewrite HdO. simpl.
    rewrite HoO. simpl. rewrite HdN. done. }
  split; [by rewrite run_ls_ops_matrix, Hrun|].
  split; [done|]. split; [done|].
  intros k r Hk. simpl. rewrite (Hs k r Hk). f_equal. simpl. unfold op_delta. simpl.
  rewrite !hits_delta. unfold v1, v2. ring.
Qed.


Lemma divImp_internal_face_updates_witness :
  ∃ ops ls',
    divImp_internal TwoCells.sFaceFlux TwoCells.owner TwoCells.neighbour TwoCells.diagOffs
      TwoCells.ownOffs TwoCells.neiOffs TwoCells.rowOffs TwoCells.operatorScaling 0%N
    = Some ops ∧
    run_ls_ops ops TwoCells.ls = Some ls' ∧
    rhs ls' = rhs TwoCells.ls ∧
    vsize (values ls') = 4%N.
Proof.
  destruct (divImp_internal_face_updates
              TwoCells.sFaceFlux TwoCells.owner TwoCells.neighbour TwoCells.diagOffs
              TwoCells.ownOffs TwoCells.neiOffs TwoCells.rowOffs TwoCells.operatorScaling
              0%N TwoCells.ls (Q2Qc 1) 0%N 1%N 0%N 2%N 0%N 1%N 0%N 1%N)
    as (ops & ls' & H1 & H2 & H3 & H4 & _); try reflexivity.
  exists ops, ls'. repeat split; assumption.
Defined.

(** C2, counterexample.  With scalings [s_o = 2] and [s_n = 3] and a unit flux,
    the owner's diagonal slot ends at [2 = - v1 * s_o], whereas the update as
    worded, with "the same signed [v1 * s_n]", would leave [3]. *)
Lemma divImp_internal_owner_diagonal_counterexample :
  ∃ ops ls' opsW lsW,
    divImp_internal TwoCells.sFaceFlux TwoCells.owner TwoCells.neighbour TwoCells.diagOffs
      TwoCells.ownOffs TwoCells.neiOffs TwoCells.rowOffs TwoCells.operatorScaling 0%N
    = Some ops ∧
    run_ls_ops ops TwoCells.ls = Some ls' ∧
    divImp_internal_as_worded TwoCells.sFaceFlux TwoCells.owner TwoCells.neighbour
      TwoCells.diagOffs TwoCells.ownOffs TwoCells.neiOffs TwoCells.rowOffs
      TwoCells.operatorScaling 0%N
    = Some opsW ∧
    run_ls_ops opsW TwoCells.ls = Some lsW ∧
    vget (values ls') 0%N = Some (Q2Qc 2) ∧
    vget (values lsW) 0%N = Some (Q2Qc 3) ∧
    vget (values ls') 0%N ≠ vget (values lsW) 0%N.
Proof.
  do 4 eexists.
  split; [vm_compute; reflexivity|].
  split; [vm_compute; reflexivity|].
  split; [vm_compute; reflexivity|].
  split; [vm_compute; reflexivity|].
  split; [vm_compute; qc_eq|].
  split; [vm_compute; qc_eq|].
  vm_compute. by intros [=].
Qed.


(** *** Atomicity of the writes *)

(** The updates of the diagonal in the kernel of the internal faces are
    atomic. *)
Lemma divImp_internal_diagonal_atomic
    sFaceFlux owner neighbour diagOffs ownOffs neiOffs rowOffs operatorScaling facei ops
    o n rowOwn rowNei diagOwn diagNei :
  divImp_internal sFaceFlux owner neighbour diagOffs ownOffs neiOffs rowOffs
    operatorScaling facei = Some ops →
  vget owner facei = Some o → vget neighbour facei = Some n →
  vget rowOffs o = Some rowOwn → vget rowOffs n = Some rowNei →
  vget diagOffs o = Some diagOwn → vget diagOffs n = Some diagNei →
  ∀ op, op ∈ ops →
    op_slot op.2 = idx_add rowOwn diagOwn ∨ op_slot op.2 = idx_add rowNei diagNei →
    (∃ x, op_update op.2 = sub_ x) →
    is_atomic op.2 = true.
Proof.
  unfold divImp_internal. intros H Ho Hn HrO HrN HdO HdN.
  destruct (vget sFaceFlux facei); simpl in H; [|done].
  rewrite Ho in H. simpl in H. rewrite Hn in H. simpl in H.
  rewrite HrN in H. simpl in H. rewrite HrO in H. simpl in H.
  destruct (vget neiOffs facei); simpl in H; [|done].
  rewrite HdO in H. simpl in H.
  destruct (vget ownOffs facei); simpl in H; [|done].
  rewrite HdN in H. simpl in H. injection H as <-.
  intros op Hin _ [x Hx]. repeat (apply elem_of_cons in Hin as [->|Hin]); try done.
  by apply elem_of_nil in Hin.
Qed.

(** Every write of the kernel of the boundary faces is a plain compound
    assignment. *)
Lemma divImp_boundary_not_atomic
    nInternalFaces sFaceFlux surfFaceCells diagOffs rowOffs valueFraction refValue
    operatorScaling facei ops :
  divImp_boundary nInternalFaces sFaceFlux surfFaceCells diagOffs rowOffs
    valueFraction refValue operatorScaling facei = Some ops →
  Forall (λ op, is_atomic op.2 = false) ops.
Proof.
  unfold divImp_boundary. intros H.
  repeat match type of H with
         | (?x ≫= _) = Some _ => destruct x; simpl in H; [|done]
         end.
  injection H as <-. repeat constructor.
Qed.

Lemma Some_pair_eq {A B} (a a' : A) (b b' : B) :
  a = a' → b = b' → Some (a, b) = Some (a', b').
Proof. by intros -> ->. Qed.

(** C9, evaluation at a cell with two boundary faces.  On [SerialExecutor]
    the two faces add [1/2] each to the diagonal and subtract [1] each from the
    right-hand side.  On a parallel executor there is a schedule of the same
    dispatch after which one of the two contributions is missing from the
    diagonal and from the right-hand side. *)
Theorem divImp_boundary_lost_update :
  computeDivImp OneCell.nInternalFaces OneCell.sFaceFlux [] [] OneCell.surfFaceCells
    OneCell.diagOffs [] [] OneCell.rowOffs OneCell.valueFraction OneCell.refValue
    OneCell.operatorScaling SerialExecutor OneCell.ls
    {| values := [Q2Qc 1]; rhs := [Q2Qc (-2)] |} ∧
  computeDivImp OneCell.nInternalFaces OneCell.sFaceFlux [] [] OneCell.surfFaceCells
    OneCell.diagOffs [] [] OneCell.rowOffs OneCell.valueFraction OneCell.refValue
    OneCell.operatorScaling CPUExecutor OneCell.ls
    {| values := [Q2Qc (1 # 2)]; rhs := [Q2Qc (-1)] |}.
Proof.
  split.
  - exists OneCell.ls. split; [reflexivity|].
    unfold ls_parallelFor. vm_compute. qc_eq.
  - exists OneCell.ls. split.
    + exists [], [], []. repeat split. constructor.
    + unfold ls_parallelFor.
      eexists _, OneCell.racy_schedule, _. split; [vm_compute; reflexivity|].
      split.
      * vm_compute. apply Some_pair_eq; [qc_eq | reflexivity].
      * repeat constructor.
Qed.

(** ** Explicit divergence on the one-dimensional mesh *)

Lemma vget_indices_from n lo i :
  (i < N.of_nat n)%N → vget (indices_from n lo) i = Some (lo + i)%N.
Proof.
  unfold vget. revert lo i. induction n as [|n IH]; intros lo i Hi; [lia|].
  destruct (decide (i = 0%N)) as [->|Hne]; simpl.
  - f_equal. lia.
  - replace (N.to_nat i) with (S (N.to_nat (i - 1))) by lia. simpl.
    rewrite IH by lia. f_equal. lia.
Qed.

Lemma vget_indices lo hi i : (i < hi - lo)%N → vget (indices lo hi) i = Some (lo + i)%N.
Proof. intros Hi. unfold indices. apply vget_indices_from. lia. Qed.

Lemma vsize_indices lo hi : vsize (indices lo hi) = (hi - lo)%N.
Proof. unfold vsize, indices. rewrite indices_from_length. lia. Qed.

Lemma vget_replicate {T} n (x : T) i : (i < N.of_nat n)%N → vget (replicate n x) i = Some x.
Proof. intros Hi. unfold vget. apply lookup_replicate_2. lia. Qed.

Lemma vget_map {A B} (f : A → B) (v : View A) i : vget (map f v) i = f <$> vget v i.
Proof. unfold vget. apply list_lookup_fmap. Qed.

Section Mesh1DFacts.

Variable (nCells : N).
Variables (bL bR : scalar).
Hypothesis (Hcells : (2 ≤ nCells)%N).

Local Abbreviation term := (faceTerm (Mesh1D.faceFlux nCells bL bR) (Mesh1D.phiF nCells)).
Local Abbreviation sumF := (sumFaces (Mesh1D.faceFlux nCells bL bR) (Mesh1D.phiF nCells)).

Lemma mesh1D_owner i :
  (i < nCells - 1)%N → vget (Mesh1D.owner nCells) i = Some i.
Proof. intros Hi. unfold Mesh1D.owner. rewrite vget_indices by lia. f_equal. Qed.

Lemma mesh1D_neighbour i :
  (i < nCells - 1)%N → vget (Mesh1D.neighbour nCells) i = Some (i + 1)%N.
Proof.
  intros Hi. unfold Mesh1D.neighbour. rewrite vget_map, vget_indices by lia. simpl.
  f_equal. lia.
Qed.

Lemma mesh1D_faceFlux_internal i :
  (i < nCells - 1)%N → vget (Mesh1D.faceFlux nCells bL bR) i = Some 1.
Proof.
  intros Hi. unfold Mesh1D.faceFlux, vget. rewrite lookup_app_l.
  - apply lookup_replicate_2. lia.
  - rewrite length_replicate. lia.
Qed.

Lemma mesh1D_faceFlux_left :
  vget (Mesh1D.faceFlux nCells bL bR) (nCells - 1)%N = Some bL.
Proof.
  unfold Mesh1D.faceFlux, vget. rewrite lookup_app_r; rewrite length_replicate; [|lia].
  by replace (N.to_nat (nCells - 1) - N.to_nat (nCells - 1))%nat with 0%nat by lia.
Qed.

Lemma mesh1D_faceFlux_right :
  vget (Mesh1D.faceFlux nCells bL bR) nCells = Some bR.
Proof.
  unfold Mesh1D.faceFlux, vget. rewrite lookup_app_r; rewrite length_replicate; [|lia].
  by replace (N.to_nat nCells - N.to_nat (nCells - 1))%nat with 1%nat by lia.
Qed.

Lemma mesh1D_phiF i : (i ≤ nCells)%N → vget (Mesh1D.phiF nCells) i = Some 1.
Proof. intros Hi. unfold Mesh1D.phiF. apply vget_replicate. lia. Qed.

Lemma mesh1D_term_internal i : (i < nCells - 1)%N → term i = 1.
Proof.
  intros Hi. unfold faceTerm.
  rewrite mesh1D_faceFlux_internal, mesh1D_phiF by lia. simpl. ring.
Qed.

Lemma mesh1D_term_left : term (nCells - 1)%N = bL.
Proof.
  unfold faceTerm. rewrite mesh1D_faceFlux_left, mesh1D_phiF by lia. simpl. ring.
Qed.

Lemma mesh1D_term_right : term nCells = bR.
Proof.
  unfold faceTerm. rewrite mesh1D_faceFlux_right, mesh1D_phiF by lia. simpl. ring.
Qed.

(** A unit term per face and the cell of face [i] at distance [k]: the sum
    selects at most one face. *)
Lemma sumFaces_unit_shift cellOf k n lo c :
  (lo + N.of_nat n ≤ nCells - 1)%N →
  (∀ i, (lo ≤ i < lo + N.of_nat n)%N → cellOf i = Some (i + k)%N) →
  sumF (indices_from n lo) cellOf c
  = if decide (lo + k ≤ c < lo + k + N.of_nat n)%N then 1 else 0.
Proof.
  revert lo. induction n as [|n IH]; intros lo Hhi Hcell; simpl.
  - case_decide; [lia | done].
  - rewrite IH by (try lia; intros i Hi; apply Hcell; lia).
    rewrite (Hcell lo) by lia. rewrite mesh1D_term_internal by lia.
    repeat case_decide; simplify_eq; try lia; try ring.
    exfalso. match goal with H : Some _ ≠ Some _ |- _ => apply H end. f_equal. lia.
Qed.

Lemma mesh1D_fluxSum c :
  cellFluxSum (Mesh1D.nInternalFaces nCells) Mesh1D.nBoundaryFaces
    (Mesh1D.neighbour nCells) (Mesh1D.owner nCells) (Mesh1D.faceCells nCells)
    (Mesh1D.faceFlux nCells bL bR) (Mesh1D.phiF nCells) c
  = (if decide (c < nCells - 1)%N then 1 else 0)
    - (if decide (1 ≤ c < nCells)%N then 1 else 0)
    + ((if decide (c = 0)%N then bL else 0)
       + (if decide (c = nCells - 1)%N then bR else 0)).
Proof.
  unfold cellFluxSum, internalFaces, boundaryFaces, Mesh1D.nInternalFaces,
    Mesh1D.nBoundaryFaces, indices.
  rewrite (sumFaces_unit_shift _ 0); cycle 1.
  { lia. }
  { intros i Hi. rewrite mesh1D_owner by lia. f_equal. lia. }
  rewrite (sumFaces_unit_shift _ 1); cycle 1.
  { lia. }
  { intros i Hi. apply mesh1D_neighbour. lia. }
  replace (N.to_nat (nCells - 1 + 2 - (nCells - 1))) with 2%nat by lia.
  simpl. replace (nCells - 1 - (nCells - 1))%N with 0%N by lia.
  replace (N.succ (nCells - 1) - (nCells - 1))%N with 1%N by lia.
  replace (N.succ (nCells - 1)) with nCells by lia.
  rewrite mesh1D_term_left, mesh1D_term_right.
  unfold Mesh1D.faceCells, vget. simpl.
  repeat case_decide; simplify_eq; try lia; ring.
Qed.

Lemma mesh1D_pre_facts (v res : View scalar) :
  (nCells + 1 < localIdx_modulus)%N → vsize v = nCells → vsize res = nCells →
  pre_facts (Mesh1D.nInternalFaces nCells) Mesh1D.nBoundaryFaces
    (Mesh1D.neighbour nCells) (Mesh1D.owner nCells) (Mesh1D.faceCells nCells)
    (Mesh1D.faceFlux nCells bL bR) (Mesh1D.phiF nCells) v res.
Proof.
  intros Hmax Hv Hres. unfold Mesh1D.nInternalFaces, Mesh1D.nBoundaryFaces. split.
  - lia.
  - lia.
  - intros i Hi. exists i. split; [by apply mesh1D_owner | lia].
  - intros i Hi. exists (i + 1)%N. split; [by apply mesh1D_neighbour | lia].
  - intros i Hi. destruct (decide (i = 0%N)) as [->|Hne].
    + exists 0%N. split; [done | lia].
    + assert (i = 1%N) as -> by lia. exists (nCells - 1)%N. split; [done | lia].
  - unfold Mesh1D.faceFlux, vsize. rewrite length_app, length_replicate. simpl. lia.
  - unfold Mesh1D.phiF, vsize. rewrite length_replicate. lia.
  - congruence.
Qed.

End Mesh1DFacts.

(** C4 (as the code has it).  On the one-dimensional mesh of [nCells >= 2]
    cells, with unit flux through every internal face, unit face value on every
    face, a uniform scaling [s], and fluxes [bL] and [bR] through the two
    boundary faces, [computeDiv] terminates on every executor and leaves [0] in
    every strictly interior cell, [(1 + bL) * s / volume] in the first cell and
    [(bR - 1) * s / volume] in the last cell.  With unit flux through the
    boundary faces as well, the first cell holds [2 * s / volume] and the last
    cell holds [0]. *)
Theorem computeDiv_1D_unit_flux
    (nCells : N) (bL bR s : scalar) (v : View scalar) (exec : Executor) (res : View scalar) :
  (2 ≤ nCells)%N →
  (nCells + 1 < localIdx_modulus)%N →
  vsize v = nCells →
  res = replicate (N.to_nat nCells) 0 →
  (∃ res', computeDiv (Mesh1D.nInternalFaces nCells) Mesh1D.nBoundaryFaces
             (Mesh1D.neighbour nCells) (Mesh1D.owner nCells) (Mesh1D.faceCells nCells)
             (Mesh1D.faceFlux nCells bL bR) (Mesh1D.phiF nCells) v (λ _, s)
             exec res res') ∧
  (∀ res', computeDiv (Mesh1D.nInternalFaces nCells) Mesh1D.nBoundaryFaces
             (Mesh1D.neighbour nCells) (Mesh1D.owner nCells) (Mesh1D.faceCells nCells)
             (Mesh1D.faceFlux nCells bL bR) (Mesh1D.phiF nCells) v (λ _, s)
             exec res res' →
     (∀ c, (0 < c < nCells - 1)%N → vget res' c = Some 0) ∧
     vget res' 0%N = Some ((1 + bL) * (s / default 0 (vget v 0%N))) ∧
     vget res' (nCells - 1)%N
     = Some ((bR - 1) * (s / default 0 (vget v (nCells - 1)%N))) ∧
     (bL = 1 → bR = 1 →
      vget res' 0%N = Some (Q2Qc 2 * (s / default 0 (vget v 0%N))) ∧
      vget res' (nCells - 1)%N = Some 0)).
Proof.
  intros Hcells Hmax Hv ->.
  assert (vsize (replicate (N.to_nat nCells) (0 : scalar)) = nCells) as Hres.
  { unfold vsize. rewrite length_replicate. lia. }
  pose proof (mesh1D_pre_facts nCells bL bR Hcells v _ Hmax Hv Hres) as Hpre.
  destruct (computeDiv_result _ _ _ _ _ _ _ _ (λ _, s) exec _ Hpre) as [Hex Hall].
  split; [done|]. intros res' [Hsz Hcell]%Hall.
  assert (∀ c, (c < nCells)%N →
    vget res' c
    = Some ((0 + ((if decide (c < nCells - 1)%N then 1 else 0)
                  - (if decide (1 ≤ c < nCells)%N then 1 else 0)
                  + ((if decide (c = 0)%N then bL else 0)
                     + (if decide (c = nCells - 1)%N then bR else 0))))
            * (s / default 0 (vget v c)))) as Hc.
  { intros c Hc. rewrite (Hcell c 0).
    - by rewrite (mesh1D_fluxSum nCells bL bR Hcells c).
    - apply vget_replicate. lia. }
  assert (Hfirst : vget res' 0%N = Some ((1 + bL) * (s / default 0 (vget v 0%N)))).
  { rewrite Hc by lia. f_equal. repeat case_decide; try lia; ring. }
  assert (Hlast : vget res' (nCells - 1)%N
                  = Some ((bR - 1) * (s / default 0 (vget v (nCells - 1)%N)))).
  { rewrite Hc by lia. f_equal. repeat case_decide; try lia; ring. }
  split; [|split; [done | split; [done|]]].
  - intros c Hin. rewrite Hc by lia. f_equal. repeat case_decide; try lia; ring.
  - intros -> ->. rewrite Hfirst, Hlast.
    replace (Q2Qc 2) with (1 + 1) by (apply Qc_is_canon; reflexivity).
    split; f_equal; ring.
Qed.

Lemma computeDiv_1D_unit_flux_witness :
  ∃ res', computeDiv (Mesh1D.nInternalFaces 4) Mesh1D.nBoundaryFaces
            (Mesh1D.neighbour 4) (Mesh1D.owner 4) (Mesh1D.faceCells 4)
            (Mesh1D.faceFlux 4 (Q2Qc 0) (Q2Qc 0)) (Mesh1D.phiF 4)
            [Q2Qc 1; Q2Qc 2; Q2Qc 3; Q2Qc 4] (λ _, Q2Qc 1)
            CPUExecutor (replicate (N.to_nat 4) (Q2Qc 0)) res'.
Proof.
  destruct (computeDiv_1D_unit_flux 4 (Q2Qc 0) (Q2Qc 0) (Q2Qc 1)
              [Q2Qc 1; Q2Qc 2; Q2Qc 3; Q2Qc 4] CPUExecutor
              (replicate (N.to_nat 4) (Q2Qc 0))) as [H _];
    [lia | reflexivity | reflexivity | reflexivity | exact H].
Defined.

(** C4, counterexample.  Three cells of unit volume, unit scaling, unit flux
    and unit face value on all four faces: the cell at the right end receives
    no net contribution. *)
Lemma computeDiv_1D_right_end_counterexample :
  computeDiv (Mesh1D.nInternalFaces 3) Mesh1D.nBoundaryFaces
    (Mesh1D.neighbour 3) (Mesh1D.owner 3) (Mesh1D.faceCells 3)
    (Mesh1D.faceFlux 3 (Q2Qc 1) (Q2Qc 1)) (Mesh1D.phiF 3)
    [Q2Qc 1; Q2Qc 1; Q2Qc 1] (λ _, Q2Qc 1)
    SerialExecutor [Q2Qc 0; Q2Qc 0; Q2Qc 0] [Q2Qc 2; Q2Qc 0; Q2Qc 0].
Proof. unfold computeDiv. vm_compute. qc_eq. Qed.

(** ** Vectors on the heap *)

Ltac munfold := unfold bind, ret in *.

Section HeapFacts.

Implicit Types (h : Heap) (v a b : Vector) (p q : positive).

Lemma contents_ext h v v' :
  size_ v = size_ v' → data_ v = data_ v' → contents h v = contents h v'.
Proof. unfold contents. by intros -> ->. Qed.

Lemma contents_length h v es : contents h v = Some es → length es = N.to_nat (size_ v).
Proof.
  unfold contents. destruct (data_ v) as [p|].
  - destruct (h !! p) as [blk|]; simpl; [|done]. case_decide; [|done].
    intros [= <-]. rewrite length_take. lia.
  - destruct (size_ v =? 0)%N eqn:E; [|done]. intros [= <-].
    apply N.eqb_eq in E. rewrite E. done.
Qed.

Lemma contents_Some_block h v p es :
  data_ v = Some p → contents h v = Some es →
  ∃ blk, h !! p = Some blk ∧ (N.to_nat (size_ v) ≤ length blk)%nat
         ∧ es = take (N.to_nat (size_ v)) blk.
Proof.
  unfold contents. intros ->. destruct (h !! p) as [blk|]; simpl; [|done].
  case_decide; [|done]. intros [= <-]. by exists blk.
Qed.

Lemma contents_nonempty h v es :
  contents h v = Some es → size_ v ≠ 0%N → ∃ p, data_ v = Some p.
Proof.
  unfold contents. destruct (data_ v) as [p|]; [by exists p|].
  intros H Hne. apply N.eqb_neq in Hne. by rewrite Hne in H.
Qed.

Lemma contents_insert_ne h v p blk :
  data_ v ≠ Some p → contents (<[p := blk]> h) v = contents h v.
Proof.
  unfold contents. intros Hne. destruct (data_ v) as [q|]; [|done].
  rewrite lookup_insert_ne; [done | congruence].
Qed.

Lemma contents_insert_eq h v p blk :
  data_ v = Some p → (N.to_nat (size_ v) ≤ length blk)%nat →
  contents (<[p := blk]> h) v = Some (take (N.to_nat (size_ v)) blk).
Proof.
  unfold contents. intros -> Hlen. rewrite lookup_insert_eq. simpl.
  by rewrite decide_True.
Qed.

Lemma contents_fresh h v es p :
  contents h v = Some es → h !! p = None → data_ v ≠ Some p.
Proof.
  unfold contents. intros H Hp Hv. rewrite Hv, Hp in H. done.
Qed.

Lemma fresh_not_live h : h !! fresh (dom h) = None.
Proof. apply not_elem_of_dom, is_fresh. Qed.

(** *** Allocation *)

Lemma exec_alloc_spec policy exec n h :
  ∃ ptr h',
    exec_alloc policy exec n h = Ok (ptr, h') ∧
    (∀ p, ptr = Some p → h !! p = None) ∧
    (∀ v es, contents h v = Some es → contents h' v = Some es) ∧
    contents h' (window n ptr) = Some (replicate (N.to_nat n) None) ∧
    (ptr = None → n = 0%N ∧ alloc_zero_is_null policy = true) ∧
    (alloc_zero_is_null policy = true → n = 0%N → ptr = None).
Proof.
  unfold exec_alloc.
  destruct ((n =? 0)%N && alloc_zero_is_null policy) eqn:E.
  - apply andb_true_iff in E as [->%N.eqb_eq Hpol].
    exists None, h. repeat split; try done.
  - exists (Some (fresh (dom h))), (<[fresh (dom h) := replicate (N.to_nat n) None]> h).
    split; [done|]. split; [|split; [|split; [|split]]].
    + intros p [= <-]. apply fresh_not_live.
    + intros v es Hv. rewrite contents_insert_ne; [done|].
      eapply contents_fresh; [done | apply fresh_not_live].
    + rewrite contents_insert_eq; simpl; [|done | by rewrite length_replicate].
      by rewrite take_replicate, Nat.min_id.
    + done.
    + intros Hpol ->. by rewrite Hpol in E.
Qed.

(** *** Element-wise operations *)

Lemma elementwise_spec f a b h ea eb :
  contents h a = Some ea → contents h b = Some eb →
  size_ b = size_ a → reachable (exec_ a) (exec_ b) = true →
  ∃ h',
    elementwise f a (data_ b) (exec_ b) h = Ok (tt, h') ∧
    contents h' a = Some (zip_with f ea eb) ∧
    (∀ v, separate a v → contents h' v = contents h v).
Proof.
  intros Ha Hb Hsz Hreach. unfold elementwise.
  destruct (size_ a =? 0)%N eqn:E.
  - apply N.eqb_eq in E. exists h. split; [done|]. split; [|done].
    pose proof (contents_length _ _ _ Ha) as Hla.
    rewrite E in Hla. destruct ea; [|done]. by rewrite Ha.
  - apply N.eqb_neq in E.
    destruct (contents_nonempty _ _ _ Ha E) as [pa Hpa].
    destruct (contents_nonempty _ _ _ Hb) as [pb Hpb]; [congruence|].
    destruct (contents_Some_block _ _ _ _ Hpa Ha) as (ba & Hba & Hlena & ->).
    destruct (contents_Some_block _ _ _ _ Hpb Hb) as (bb & Hbb & Hlenb & ->).
    rewrite Hsz in *. rewrite Hpa, Hpb, Hba, Hbb, Hreach.
    rewrite bool_decide_eq_true_2 by done. simpl.
    eexists. split; [done|]. split.
    + rewrite contents_insert_eq; [|done|].
      * rewrite take_app_le by (rewrite length_zip_with, !length_take; lia).
        rewrite take_ge; [done|]. rewrite length_zip_with, !length_take. lia.
      * rewrite length_app, length_zip_with, !length_take, length_drop. lia.
    + intros v Hsep. apply contents_insert_ne. by apply Hsep.
Qed.

Lemma pointwise_spec f a h ea :
  contents h a = Some ea →
  ∃ h',
    pointwise f a h = Ok (tt, h') ∧
    contents h' a = Some (map f ea) ∧
    (∀ v, separate a v → contents h' v = contents h v).
Proof.
  intros Ha. unfold pointwise.
  destruct (size_ a =? 0)%N eqn:E.
  - apply N.eqb_eq in E. exists h. split; [done|]. split; [|done].
    pose proof (contents_length _ _ _ Ha) as Hla.
    rewrite E in Hla. destruct ea; [|done]. by rewrite Ha.
  - apply N.eqb_neq in E.
    destruct (contents_nonempty _ _ _ Ha E) as [pa Hpa].
    destruct (contents_Some_block _ _ _ _ Hpa Ha) as (ba & Hba & Hlena & ->).
    rewrite Hpa, Hba. rewrite decide_True by done.
    eexists. split; [done|]. split.
    + rewrite contents_insert_eq; [|done|].
      * rewrite take_app_le by (rewrite length_map, !length_take; lia).
        rewrite take_ge; [done|]. rewrite length_map, !length_take. lia.
      * rewrite length_app, length_map, !length_take, length_drop. lia.
    + intros v Hsep. apply contents_insert_ne. by apply Hsep.
Qed.

Lemma deepCopy_spec n src dst h es ed :
  contents h (window n src) = Some es → contents h (window n dst) = Some ed →
  ∃ h',
    deepCopy n src dst h = Ok (tt, h') ∧
    contents h' (window n dst) = Some es ∧
    (∀ v, separate (window n dst) v → contents h' v = contents h v).
Proof.
  intros Hs Hd. unfold deepCopy.
  destruct (n =? 0)%N eqn:E.
  - apply N.eqb_eq in E. subst n. exists h. split; [done|]. split; [|done].
    pose proof (contents_length _ _ _ Hs) as Hls.
    pose proof (contents_length _ _ _ Hd) as Hld. simpl in *.
    destruct es, ed; done.
  - apply N.eqb_neq in E.
    destruct (contents_nonempty _ _ _ Hs E) as [ps Hps].
    destruct (contents_nonempty _ _ _ Hd E) as [pd Hpd]. simpl in *. subst src dst.
    destruct (contents_Some_block h (window n (Some ps)) ps es eq_refl Hs)
      as (sb & Hsb & Hlens & ->).
    destruct (contents_Some_block h (window n (Some pd)) pd ed eq_refl Hd)
      as (db & Hdb & Hlend & ->).
    simpl in *. rewrite Hsb, Hdb. rewrite decide_True by done.
    eexists. split; [done|]. split.
    + rewrite contents_insert_eq; simpl; [|done|].
      * rewrite take_app_le by (rewrite !length_take; lia).
        rewrite take_ge; [done|]. rewrite !length_take. lia.
      * rewrite length_app, !length_take, length_drop. lia.
    + intros v Hsep. apply contents_insert_ne. by apply Hsep.
Qed.

Lemma zip_with_second {A B} (l : list A) (k : list B) :
  length l = length k → zip_with (λ _ y, y) l k = k.
Proof.
  revert k. induction l as [|x l IH]; intros [|y k] Hlen; simpl in *; try done.
  f_equal. apply IH. lia.
Qed.

End HeapFacts.

Section VectorFacts.

Variable NF_DEBUG : bool.
Variable policy : AllocPolicy.
Implicit Types (h : Heap) (v a b this rhs : Vector) (p q : positive).

Lemma reachable_refl e : reachable e e = true.
Proof. unfold reachable. by apply bool_decide_eq_true_2. Qed.

Lemma Vector_from_spec exec in_ size hostExec h es :
  contents h (window size in_) = Some es →
  ∃ r h',
    Vector_from policy exec in_ size hostExec h = Ok (r, h') ∧
    size_ r = size ∧ exec_ r = exec ∧
    contents h' r = Some es ∧
    (∀ p, data_ r = Some p → h !! p = None) ∧
    (∀ v es', contents h v = Some es' → contents h' v = Some es') ∧
    (alloc_zero_is_null policy = true → size = 0%N → data_ r = None) ∧
    (data_ r = None → size = 0%N).
Proof.
  intros Hin. unfold Vector_from. munfold.
  destruct (exec_alloc_spec policy exec size h)
    as (ptr & h1 & -> & Hfresh & Hkeep & Hnew & Hnull & Hzero).
  destruct (deepCopy_spec size in_ ptr h1 es _ (Hkeep _ _ Hin) Hnew)
    as (h' & -> & Hdst & Hframe).
  eexists _, h'. split; [done|]. simpl. repeat split; try done.
  - intros v es' Hv. rewrite Hframe; [by apply Hkeep|].
    intros p Hp. simpl in Hp. eapply contents_fresh; [done|]. by apply Hfresh.
  - intros ->. by apply Hnull.
Qed.

Lemma Vector_new_spec exec size h :
  ∃ r h',
    Vector_new policy exec size h = Ok (r, h') ∧
    size_ r = size ∧ exec_ r = exec ∧
    contents h' r = Some (replicate (N.to_nat size) None) ∧
    (∀ p, data_ r = Some p → h !! p = None) ∧
    (∀ v es', contents h v = Some es' → contents h' v = Some es') ∧
    (alloc_zero_is_null policy = true → size = 0%N → data_ r = None) ∧
    (data_ r = None → size = 0%N).
Proof.
  unfold Vector_new. munfold.
  destruct (exec_alloc_spec policy exec size h)
    as (ptr & h1 & -> & Hfresh & Hkeep & Hnew & Hnull & Hzero).
  eexists _, h1. split; [done|]. simpl. repeat split; try done.
  intros ->. by apply Hnull.
Qed.

Lemma store_spec r i x h es :
  contents h r = Some es → (i < size_ r)%N →
  ∃ h',
    store r i x h = Ok (tt, h') ∧
    contents h' r = Some (<[N.to_nat i := Some x]> es) ∧
    (∀ v, separate r v → contents h' v = contents h v).
Proof.
  intros Hr Hi. unfold store.
  destruct (contents_nonempty _ _ _ Hr) as [p Hp]; [lia|].
  destruct (contents_Some_block _ _ _ _ Hp Hr) as (blk & Hblk & Hlen & ->).
  rewrite Hp, Hblk. rewrite decide_True by (split; lia).
  eexists. split; [done|]. split.
  - rewrite contents_insert_eq; [|done | by rewrite length_insert].
    f_equal. apply take_insert_lt. lia.
  - intros v Hsep. apply contents_insert_ne. by apply Hsep.
Qed.

Lemma validateOtherVector_same this rhs h :
  size_ this = size_ rhs → exec_ this = exec_ rhs →
  validateOtherVector NF_DEBUG this rhs h = Ok (tt, h).
Proof.
  intros Hsz Hex. unfold validateOtherVector, NF_DEBUG_ASSERT, NF_ASSERT. munfold.
  rewrite Hsz, N.eqb_refl, bool_decide_eq_true_2 by done. by destruct NF_DEBUG.
Qed.

(** A fresh vector receives the elements of [this]. *)
Lemma fresh_copy_spec this h es :
  contents h this = Some es →
  ∃ r h',
    (result <- Vector_new policy (exec_ this) (size_ this);;
     assign policy result this)%vec h = Ok (r, h') ∧
    size_ r = size_ this ∧ exec_ r = exec_ this ∧
    contents h' r = Some es ∧
    (∀ p, data_ r = Some p → h !! p = None) ∧
    (∀ v es', contents h v = Some es' → contents h' v = Some es').
Proof.
  intros Hthis. munfold.
  destruct (Vector_new_spec (exec_ this) (size_ this) h)
    as (r & h1 & -> & Hsz & Hex & Hr & Hfresh & Hkeep & _).
  unfold assign, NF_ASSERT. munfold.
  rewrite bool_decide_eq_true_2 by done. rewrite Hsz, N.eqb_refl. simpl.
  unfold setVector.
  destruct (elementwise_spec (λ _ y, y) r this h1 _ es Hr (Hkeep _ _ Hthis))
    as (h2 & -> & Hr2 & Hframe); [done | rewrite Hex; apply reachable_refl |].
  exists r, h2. split; [done|]. repeat split; try done.
  - rewrite Hr2. f_equal. apply zip_with_second.
    rewrite length_replicate. symmetry. by eapply contents_length.
  - intros v es' Hv. rewrite Hframe; [by apply Hkeep|].
    intros p Hp. eapply contents_fresh; [done|]. by apply Hfresh.
Qed.

End VectorFacts.

(** C7.  For a destination executor equal to the executor of [this],
    [copyToExecutor] returns a vector of the same size with the same elements
    in a buffer that was not live before the call; writing any element of the
    returned vector succeeds, changes that element of the returned vector and
    leaves every element of [this] as it was. *)
Theorem copyToExecutor_same_executor_independent
    (policy : AllocPolicy) (this : Vector) (dstExec : Executor) (h : Heap)
    (els : list (option scalar)) :
  dstExec = exec_ this →
  contents h this = Some els →
  ∃ r h',
    copyToExecutor policy this dstExec h = Ok (r, h') ∧
    size_ r = size_ this ∧ exec_ r = dstExec ∧
    contents h' r = Some els ∧
    contents h' this = Some els ∧
    (∀ p, data_ r = Some p → h !! p = None ∧ data_ this ≠ Some p) ∧
    (∀ i x, (i < size_ r)%N →
       ∃ h'', store r i x h' = Ok (tt, h'') ∧
              contents h'' r = Some (<[N.to_nat i := Some x]> els) ∧
              contents h'' this = Some els).
Proof.
  intros -> Hthis. unfold copyToExecutor. rewrite decide_True by done.
  unfold Vector_copy.
  destruct (Vector_from_spec policy (exec_ this) (data_ this) (size_ this) (exec_ this) h els)
    as (r & h' & Hrun & Hsz & Hex & Hr & Hfresh & Hkeep & _).
  { by rewrite <- Hthis. }
  exists r, h'. split; [done|]. split; [done|]. split; [done|]. split; [done|].
  split; [by apply Hkeep|].
  assert (Hsep : separate r this).
  { intros p Hp. eapply contents_fresh; [done|]. by apply Hfresh. }
  split.
  - intros p Hp. split; [by apply Hfresh | by apply Hsep].
  - intros i x Hi.
    destruct (store_spec r i x h' els Hr Hi) as (h'' & Hst & Hr'' & Hframe).
    exists h''. split; [done|]. split; [done|].
    rewrite Hframe by done. by apply Hkeep.
Qed.

Lemma copyToExecutor_same_executor_independent_witness :
  ∃ r h',
    copyToExecutor {| alloc_zero_is_null := true; realloc_zero_is_null := true |}
      {| size_ := 2%N; data_ := Some 1%positive; exec_ := CPUExecutor |} CPUExecutor
      {[ 1%positive := [Some (Q2Qc 5); Some (Q2Qc 7)] ]} = Ok (r, h') ∧
    size_ r = 2%N ∧
    contents h' r = Some [Some (Q2Qc 5); Some (Q2Qc 7)].
Proof.
  destruct (copyToExecutor_same_executor_independent
              {| alloc_zero_is_null := true; realloc_zero_is_null := true |}
              {| size_ := 2%N; data_ := Some 1%positive; exec_ := CPUExecutor |} CPUExecutor
              {[ 1%positive := [Some (Q2Qc 5); Some (Q2Qc 7)] ]}
              [Some (Q2Qc 5); Some (Q2Qc 7)])
    as (r & h' & H1 & H2 & _ & H3 & _); [reflexivity | reflexivity |].
  exists r, h'. repeat split; assumption.
Defined.

(** C10.  For vectors [a] and [b] of the same size on the same executor and a
    scalar [s], the products [a * b] and [a * s] return a vector whose buffer
    was not live before the call and that holds the element-wise products;
    the elements of [a] and of [b] are the same after the call as before. *)
Theorem times_fresh_and_frame
    (NF_DEBUG : bool) (policy : AllocPolicy) (a b : Vector) (s : scalar) (h : Heap)
    (ea eb : list (option scalar)) :
  contents h a = Some ea →
  contents h b = Some eb →
  size_ b = size_ a →
  exec_ b = exec_ a →
  (∃ r h',
      times NF_DEBUG policy a b h = Ok (r, h') ∧
      (∀ p, data_ r = Some p → h !! p = None) ∧
      contents h' a = Some ea ∧
      contents h' b = Some eb ∧
      contents h' r = Some (zip_with (lift2 Qcmult) ea eb)) ∧
  (∃ r h',
      times_scalar policy a s h = Ok (r, h') ∧
      (∀ p, data_ r = Some p → h !! p = None) ∧
      contents h' a = Some ea ∧
      contents h' b = Some eb ∧
      contents h' r = Some (map (option_map (λ x, x * s)) ea)).
Proof.
  intros Ha Hb Hsz Hex.
  destruct (fresh_copy_spec policy a h ea Ha)
    as (r & h1 & Hcopy & Hrsz & Hrex & Hr & Hfresh & Hkeep).
  assert (Hsep : ∀ v es, contents h v = Some es → separate r v).
  { intros v es Hv p Hp. eapply contents_fresh; [done|]. by apply Hfresh. }
  split.
  - unfold times. unfold bind at 1.
    rewrite (validateOtherVector_same NF_DEBUG a b h) by done.
    unfold bind in Hcopy. unfold bind at 1 2.
    destruct (Vector_new policy (exec_ a) (size_ a) h) as [[r0 h0]| |]; try done.
    rewrite Hcopy. unfold mul.
    destruct (elementwise_spec (lift2 Qcmult) r b h1 ea eb Hr (Hkeep _ _ Hb))
      as (h2 & Hmul & Hr2 & Hframe); [congruence | |].
    { rewrite Hrex, Hex. apply reachable_refl. }
    unfold bind, ret. rewrite Hmul. exists r, h2. split; [done|].
    split; [done|]. split; [|split; [|done]].
    + rewrite Hframe by eauto. by apply Hkeep.
    + rewrite Hframe by eauto. by apply Hkeep.
  - unfold times_scalar.
    unfold bind in Hcopy. unfold bind at 1 2.
    destruct (Vector_new policy (exec_ a) (size_ a) h) as [[r0 h0]| |]; try done.
    rewrite Hcopy. unfold scalarMul.
    destruct (pointwise_spec (option_map (λ x, x * s)) r h1 ea Hr)
      as (h2 & Hmul & Hr2 & Hframe).
    unfold bind, ret. rewrite Hmul. exists r, h2. split; [done|].
    split; [done|]. split; [|split; [|done]].
    + rewrite Hframe by eauto. by apply Hkeep.
    + rewrite Hframe by eauto. by apply Hkeep.
Qed.

Lemma times_fresh_and_frame_witness :
  ∃ r h',
    times true {| alloc_zero_is_null := true; realloc_zero_is_null := true |}
      {| size_ := 2%N; data_ := Some 1%positive; exec_ := SerialExecutor |}
      {| size_ := 2%N; data_ := Some 2%positive; exec_ := SerialExecutor |}
      {[ 1%positive := [Some (Q2Qc 5); Some (Q2Qc 7)];
         2%positive := [Some (Q2Qc 2); Some (Q2Qc 3)] ]} = Ok (r, h') ∧
    contents h' {| size_ := 2%N; data_ := Some 1%positive; exec_ := SerialExecutor |}
    = Some [Some (Q2Qc 5); Some (Q2Qc 7)].
Proof.
  destruct (times_fresh_and_frame true
              {| alloc_zero_is_null := true; realloc_zero_is_null := true |}
              {| size_ := 2%N; data_ := Some 1%positive; exec_ := SerialExecutor |}
              {| size_ := 2%N; data_ := Some 2%positive; exec_ := SerialExecutor |}
              (Q2Qc 3)
              {[ 1%positive := [Some (Q2Qc 5); Some (Q2Qc 7)];
                 2%positive := [Some (Q2Qc 2); Some (Q2Qc 3)] ]}
              [Some (Q2Qc 5); Some (Q2Qc 7)] [Some (Q2Qc 2); Some (Q2Qc 3)])
    as [(r & h' & H1 & _ & H2 & _) _]; [reflexivity.. |].
  exists r, h'. split; assumption.
Defined.

(** ** Validation of the operands of [+=], [-=] and [*=] *)

Lemma validateOtherVector_debug this rhs h :
  size_ this ≠ size_ rhs ∨ exec_ this ≠ exec_ rhs →
  ∃ msg, validateOtherVector true this rhs h = ValidationError msg.
Proof.
  intros Hbad. unfold validateOtherVector, NF_DEBUG_ASSERT, NF_ASSERT, bind.
  destruct (size_ this =? size_ rhs)%N eqn:Esz; [|by eexists].
  apply N.eqb_eq in Esz. destruct Hbad as [Hbad|Hbad]; [done|].
  rewrite bool_decide_eq_false_2 by done. by eexists.
Qed.

(** C6 (as the code has it).  In a debug build, [+=], [-=] and [*=] by a
    vector report a validation error when the sizes or the executors of the
    operands differ, before the element-wise kernel runs.  In an optimised build
    [validateOtherVector] checks nothing and the three operators go on to the
    element-wise kernel. *)
Theorem arithmetic_validation_debug_only (this rhs : Vector) (h : Heap) :
  size_ this ≠ size_ rhs ∨ exec_ this ≠ exec_ rhs →
  ((∃ msg, add_assign true this rhs h = ValidationError msg) ∧
   (∃ msg, sub_assign true this rhs h = ValidationError msg) ∧
   (∃ msg, mul_assign true this rhs h = ValidationError msg)) ∧
  (validateOtherVector false this rhs h = Ok (tt, h) ∧
   add_assign false this rhs h = bind (add this rhs) (λ _, ret this) h ∧
   sub_assign false this rhs h = bind (sub this rhs) (λ _, ret this) h ∧
   mul_assign false this rhs h = bind (mul this rhs) (λ _, ret this) h).
Proof.
  intros Hbad. split.
  - destruct (validateOtherVector_debug this rhs h Hbad) as [msg Hmsg].
    unfold add_assign, sub_assign, mul_assign, bind. rewrite Hmsg.
    repeat split; by exists msg.
  - repeat split.
Qed.

Lemma arithmetic_validation_debug_only_witness :
  ∃ msg,
    add_assign true {| size_ := 1%N; data_ := Some 1%positive; exec_ := SerialExecutor |}
      {| size_ := 2%N; data_ := Some 2%positive; exec_ := SerialExecutor |}
      {[ 1%positive := [Some (Q2Qc 1)]; 2%positive := [Some (Q2Qc 2); Some (Q2Qc 3)] ]}
    = ValidationError msg.
Proof.
  destruct (arithmetic_validation_debug_only
              {| size_ := 1%N; data_ := Some 1%positive; exec_ := SerialExecutor |}
              {| size_ := 2%N; data_ := Some 2%positive; exec_ := SerialExecutor |}
              {[ 1%positive := [Some (Q2Qc 1)];
                 2%positive := [Some (Q2Qc 2); Some (Q2Qc 3)] ]})
    as [[H _] _]; [left; discriminate | exact H].
Defined.

(** C6, counterexample.  In an optimised build, [+=] on a vector of the
    serial executor and a vector of the host-parallel executor completes
    without a validation error, with the sum in the left operand. *)
Lemma arithmetic_validation_counterexample :
  let h : Heap := {[ 1%positive := [Some (Q2Qc 1)]; 2%positive := [Some (Q2Qc 2)] ]} in
  let a := {| size_ := 1%N; data_ := Some 1%positive; exec_ := SerialExecutor |} in
  let b := {| size_ := 1%N; data_ := Some 2%positive; exec_ := CPUExecutor |} in
  exec_ a ≠ exec_ b ∧
  ∃ h', add_assign false a b h = Ok (a, h') ∧ contents h' a = Some [Some (Q2Qc 3)].
Proof.
  intros h a b. split; [done|]. eexists. split; [vm_compute; reflexivity|].
  vm_compute. qc_eq.
Qed.

(** ** The invariant "null buffer iff size zero" *)

Lemma exec_realloc_null policy exec ptr n h ptr' h' :
  alloc_zero_is_null policy = true → realloc_zero_is_null policy = true →
  exec_realloc policy exec ptr n h = Ok (ptr', h') → (ptr' = None ↔ n = 0%N).
Proof.
  intros Ha Hr. unfold exec_realloc, exec_alloc. rewrite Ha, Hr, !andb_true_r.
  destruct ptr as [q|].
  - destruct (h !! q); [|done]. destruct (n =? 0)%N eqn:E.
    + apply N.eqb_eq in E. by intros [= <- <-].
    + apply N.eqb_neq in E. by intros [= <- <-].
  - destruct (n =? 0)%N eqn:E.
    + apply N.eqb_eq in E. by intros [= <- <-].
    + apply N.eqb_neq in E. by intros [= <- <-].
Qed.

Lemma exec_alloc_null policy exec n h ptr' h' :
  alloc_zero_is_null policy = true →
  exec_alloc policy exec n h = Ok (ptr', h') → (ptr' = None ↔ n = 0%N).
Proof.
  intros Ha. unfold exec_alloc. rewrite Ha, andb_true_r.
  destruct (n =? 0)%N eqn:E.
  - apply N.eqb_eq in E. by intros [= <- <-].
  - apply N.eqb_neq in E. by intros [= <- <-].
Qed.

Lemma resize_null_iff_empty policy this size h v h' :
  alloc_zero_is_null policy = true → realloc_zero_is_null policy = true →
  resize policy this size h = Ok (v, h') → null_iff_empty v ∧ size_ v = size.
Proof.
  intros Ha Hr. unfold resize, bind, ret, null_iff_empty.
  destruct (negb (empty this)).
  - destruct (exec_realloc _ _ _ _ _) as [[ptr h1]| |] eqn:E; try done.
    intros [= <- <-]. simpl. split; [|done]. by eapply exec_realloc_null.
  - destruct (exec_alloc _ _ _ _) as [[ptr h1]| |] eqn:E; try done.
    intros [= <- <-]. simpl. split; [|done]. by eapply exec_alloc_null.
Qed.

Lemma resize_total policy this size h es :
  contents h this = Some es → ∃ v h', resize policy this size h = Ok (v, h').
Proof.
  intros Hthis. unfold resize, bind, ret, empty.
  destruct (size_ this =? 0)%N eqn:E; simpl.
  - destruct (exec_alloc_spec policy (exec_ this) size h) as (ptr & h1 & -> & _). eauto.
  - apply N.eqb_neq in E. destruct (contents_nonempty _ _ _ Hthis E) as [q Hq].
    destruct (contents_Some_block _ _ _ _ Hq Hthis) as (blk & Hblk & _).
    unfold exec_realloc. rewrite Hq, Hblk. destruct (_ && _); eauto.
Qed.



(** Neither hypothesis on the executor can be dropped: [Vector] itself never
    looks at the size.  With an executor whose [alloc] returned a block for a
    request of zero bytes, the vector constructed with size zero would have a
    buffer that is not null; with an executor whose [realloc] did so, a vector
    of two elements resized to zero would. *)
Lemma Vector_null_iff_empty_needs_executor :
  (∃ v h',
     Vector_new {| alloc_zero_is_null := false; realloc_zero_is_null := true |}
       SerialExecutor 0%N ∅ = Ok (v, h') ∧
     size_ v = 0%N ∧ data_ v ≠ None ∧ ¬ null_iff_empty v) ∧
  (∃ a h v h',
     Vector_filled {| alloc_zero_is_null := true; realloc_zero_is_null := false |}
       SerialExecutor 2%N (Q2Qc 1) ∅ = Ok (a, h) ∧
     resize {| alloc_zero_is_null := true; realloc_zero_is_null := false |} a 0%N h
     = Ok (v, h') ∧
     size_ v = 0%N ∧ data_ v ≠ None ∧ ¬ null_iff_empty v).
Proof.
  split.
  - eexists _, _. split; [vm_compute; reflexivity|]. simpl.
    split; [done|]. split; [done|]. unfold null_iff_empty. simpl. intros [_ H].
    by specialize (H eq_refl).
  - eexists _, _, _, _. split; [vm_compute; reflexivity|].
    split; [vm_compute; reflexivity|]. simpl.
    split; [done|]. split; [done|]. unfold null_iff_empty. simpl. intros [_ H].
    by specialize (H eq_refl).
Qed.

(** * Further properties of [Vector] *)

Section VectorMoreFacts.

Variable NF_DEBUG : bool.
Variable policy : AllocPolicy.
Implicit Types (h : Heap) (v a b this rhs : Vector) (p q : positive).

Lemma contents_delete_ne h v q :
  data_ v ≠ Some q → contents (delete q h) v = contents h v.
Proof.
  unfold contents. intros Hne. destruct (data_ v) as [p|]; [|done].
  rewrite lookup_delete_ne; [done | congruence].
Qed.

Lemma contents_empty_data h v es :
  contents h v = Some es → size_ v = 0%N → es = [].
Proof.
  intros Hv Hsz. apply contents_length in Hv. rewrite Hsz in Hv. by destruct es.
Qed.

Lemma exec_free_live exec q blk h :
  h !! q = Some blk → exec_free exec (Some q) h = Ok (tt, delete q h).
Proof. unfold exec_free. by intros ->. Qed.

Lemma resize_spec this n h et :
  contents h this = Some et →
  ∃ r h' er,
    resize policy this n h = Ok (r, h') ∧
    size_ r = n ∧ exec_ r = exec_ this ∧
    contents h' r = Some er ∧
    (∀ i, (i < n)%N → (i < size_ this)%N → er !! N.to_nat i = et !! N.to_nat i) ∧
    (∀ p, data_ r = Some p → h !! p = None) ∧
    (∀ v ev, contents h v = Some ev → separate this v → contents h' v = Some ev).
Proof.
  intros Hthis. unfold resize, empty, bind, ret.
  destruct (size_ this =? 0)%N eqn:E; simpl.
  - apply N.eqb_eq in E.
    destruct (exec_alloc_spec policy (exec_ this) n h)
      as (ptr & h1 & -> & Hfresh & Hkeep & Hnew & _).
    eexists _, h1, _. split; [done|]. simpl. split_and!; try done.
    + intros i _ Hi. lia.
    + intros v ev Hv _. by apply Hkeep.
  - apply N.eqb_neq in E. destruct (contents_nonempty _ _ _ Hthis E) as [q Hq].
    destruct (contents_Some_block _ _ _ _ Hq Hthis) as (old & Hold & Hlen & ->).
    unfold exec_realloc. rewrite Hq, Hold.
    destruct ((n =? 0)%N && realloc_zero_is_null policy) eqn:Ez.
    + apply andb_true_iff in Ez as [->%N.eqb_eq _].
      eexists _, _, []. split; [done|]. simpl. split_and!; try done.
      * intros i Hi. lia.
      * intros v ev Hv Hsep. rewrite contents_delete_ne; [done | by apply Hsep].
    + set (p := fresh (dom h)).
      set (blk := take (N.to_nat n) old ++ replicate (N.to_nat n - length old) None).
      assert (length blk = N.to_nat n) as Hblk.
      { unfold blk. rewrite length_app, length_take, length_replicate. lia. }
      eexists _, _, blk. split; [done|]. simpl. split_and!; try done.
      * unfold contents. simpl. rewrite lookup_insert_eq. simpl.
        rewrite decide_True by lia. f_equal. apply take_ge. lia.
      * intros i Hi1 Hi2. unfold blk.
        rewrite lookup_app_l by (rewrite length_take; lia).
        rewrite !lookup_take_lt by lia. done.
      * intros p' [= <-]. apply fresh_not_live.
      * intros v ev Hv Hsep. rewrite contents_insert_ne.
        -- rewrite contents_delete_ne; [done | by apply Hsep].
        -- eapply contents_fresh; [done | apply fresh_not_live].
Qed.

Lemma assign_spec this rhs h et er :
  contents h this = Some et → contents h rhs = Some er →
  exec_ this = exec_ rhs →
  separate this rhs ∨ size_ this = size_ rhs →
  ∃ r h',
    assign policy this rhs h = Ok (r, h') ∧
    size_ r = size_ rhs ∧ exec_ r = exec_ this ∧
    contents h' r = Some er ∧
    (size_ this = size_ rhs → r = this) ∧
    (∀ v ev, contents h v = Some ev → separate this v → separate r v ∧ contents h' v = Some ev).
Proof.
  intros Hthis Hrhs Hex Hsep. unfold assign, NF_ASSERT, bind, ret.
  rewrite bool_decide_eq_true_2 by done.
  destruct (size_ this =? size_ rhs)%N eqn:E; simpl.
  - apply N.eqb_eq in E. unfold setVector.
    destruct (elementwise_spec (λ _ y, y) this rhs h et er Hthis Hrhs)
      as (h' & -> & Hr & Hframe); [done | rewrite Hex; apply reachable_refl |].
    exists this, h'. split; [done|]. split_and!; try done.
    + rewrite Hr. f_equal. apply zip_with_second.
      apply contents_length in Hthis, Hrhs. lia.
    + intros v ev Hv Hs. split; [done|]. by rewrite Hframe.
  - apply N.eqb_neq in E. destruct Hsep as [Hsep|Hsep]; [|done].
    destruct (resize_spec this (size_ rhs) h et Hthis)
      as (r & h1 & e1 & -> & Hsz & Hrex & Hr1 & _ & Hfresh & Hframe1).
    unfold setVector.
    destruct (elementwise_spec (λ _ y, y) r rhs h1 e1 er Hr1 (Hframe1 _ _ Hrhs Hsep))
      as (h' & -> & Hr & Hframe); [done | rewrite Hrex, Hex; apply reachable_refl |].
    exists r, h'. split; [done|]. split_and!; try done.
    + rewrite Hr. f_equal. apply zip_with_second.
      apply contents_length in Hr1, Hrhs. lia.
    + intros v ev Hv Hs.
      assert (separate r v) as Hrv.
      { intros p Hp. eapply contents_fresh; [done|]. by apply Hfresh. }
      split; [done|]. rewrite Hframe by done. by apply Hframe1.
Qed.

End VectorMoreFacts.

(** X1.  The constructor by size and value returns, for every executor and
    every size, zero included, a vector of that size whose elements all hold
    the value; the vectors that were live before keep their elements. *)
Theorem Vector_filled_elements
    (policy : AllocPolicy) (exec : Executor) (size : localIdx) (value : scalar) (h : Heap) :
  ∃ v h',
    Vector_filled policy exec size value h = Ok (v, h') ∧
    size_ v = size ∧ exec_ v = exec ∧
    contents h' v = Some (replicate (N.to_nat size) (Some value)) ∧
    (∀ p, data_ v = Some p → h !! p = None) ∧
    (∀ u es, contents h u = Some es → contents h' u = Some es).
Proof.
  unfold Vector_filled, bind, ret.
  destruct (exec_alloc_spec policy exec size h)
    as (ptr & h1 & -> & Hfresh & Hkeep & Hnew & _).
  set (v := {| size_ := size; data_ := ptr; exec_ := exec |}).
  destruct (pointwise_spec (λ _, Some value) v h1 _ Hnew) as (h2 & Hfill & Hv & Hframe).
  unfold fill. rewrite Hfill. exists v, h2. split; [done|]. split_and!; try done.
  - rewrite Hv. f_equal. clear. induction (N.to_nat size) as [|n IH]; simpl; [done|].
    by rewrite IH.
  - intros u es Hu. rewrite Hframe; [by apply Hkeep|].
    intros p Hp. eapply contents_fresh; [done|]. by apply Hfresh.
Qed.

(** A copy to an executor, the source's or another: a vector on that
    executor with the size and the elements of the source, in a buffer that was
    not live before. *)
Lemma copyToExecutor_spec
    (policy : AllocPolicy) (this : Vector) (dstExec : Executor) (h : Heap)
    (els : list (option scalar)) :
  contents h this = Some els →
  ∃ r h',
    copyToExecutor policy this dstExec h = Ok (r, h') ∧
    size_ r = size_ this ∧ exec_ r = dstExec ∧
    contents h' r = Some els ∧
    (∀ p, data_ r = Some p → h !! p = None) ∧
    (∀ u es, contents h u = Some es → contents h' u = Some es).
Proof.
  intros Hthis. unfold copyToExecutor. case_decide as Hd.
  - subst dstExec. unfold Vector_copy.
    destruct (Vector_from_spec policy (exec_ this) (data_ this) (size_ this)
                (exec_ this) h els)
      as (r & h' & Hrun & Hsz & Hex & Hr & Hfresh & Hkeep & _).
    { by rewrite <- Hthis. }
    exists r, h'. split_and!; done.
  - unfold bind, ret.
    destruct (Vector_new_spec policy dstExec (size_ this) h)
      as (r & h1 & -> & Hsz & Hex & Hr & Hfresh & Hkeep & _).
    destruct (deepCopy_spec (size_ this) (data_ this) (data_ r) h1 els
                (replicate (N.to_nat (size_ this)) None))
      as (h' & -> & Hdst & Hframe).
    { rewrite <- (Hkeep _ _ Hthis). by apply contents_ext. }
    { rewrite <- Hr. apply contents_ext; simpl; congruence. }
    exists r, h'. split; [done|]. split_and!; try done.
    + rewrite <- Hdst. apply contents_ext; simpl; congruence.
    + intros u es Hu. rewrite Hframe; [by apply Hkeep|].
      intros p Hp. simpl in Hp. eapply contents_fresh; [done|]. by apply Hfresh.
Qed.

(** X2.  [copyToExecutor], for every destination executor, equal to the
    executor of the source or not, returns a vector on the destination
    executor with the size and the elements of the source, in a buffer that was
    not live before; the source keeps its elements.  [copyToHost()] is the
    case of the serial executor. *)
Theorem copyToExecutor_preserves_elements
    (policy : AllocPolicy) (this : Vector) (dstExec : Executor) (h : Heap)
    (els : list (option scalar)) :
  contents h this = Some els →
  (∃ r h',
    copyToExecutor policy this dstExec h = Ok (r, h') ∧
    size_ r = size_ this ∧ exec_ r = dstExec ∧
    contents h' r = Some els ∧
    (∀ p, data_ r = Some p → h !! p = None) ∧
    (∀ u es, contents h u = Some es → contents h' u = Some es)) ∧
  copyToHost policy this h = copyToExecutor policy this SerialExecutor h.
Proof.
  intros Hthis. split.
  - by apply copyToExecutor_spec.
  - reflexivity.
Qed.

Lemma copyToExecutor_preserves_elements_witness :
  ∃ r h',
    copyToExecutor {| alloc_zero_is_null := true; realloc_zero_is_null := true |}
      {| size_ := 2%N; data_ := Some 1%positive; exec_ := CPUExecutor |} GPUExecutor
      {[ 1%positive := [Some (Q2Qc 5); None] ]} = Ok (r, h') ∧
    exec_ r = GPUExecutor ∧
    contents h' r = Some [Some (Q2Qc 5); None].
Proof.
  destruct (copyToExecutor_preserves_elements
              {| alloc_zero_is_null := true; realloc_zero_is_null := true |}
              {| size_ := 2%N; data_ := Some 1%positive; exec_ := CPUExecutor |} GPUExecutor
              {[ 1%positive := [Some (Q2Qc 5); None] ]} [Some (Q2Qc 5); None])
    as [(r & h' & H1 & _ & H2 & H3 & _) _]; [reflexivity|].
  exists r, h'. repeat split; assumption.
Defined.

(** X3.  Copying a vector to any executor and the copy back to the executor of
    the source gives a vector on the executor of the source with the elements
    of the source. *)
Theorem copyToExecutor_round_trip
    (policy : AllocPolicy) (this : Vector) (there : Executor) (h : Heap)
    (els : list (option scalar)) :
  contents h this = Some els →
  ∃ r1 h1 r2 h2,
    copyToExecutor policy this there h = Ok (r1, h1) ∧
    copyToExecutor policy r1 (exec_ this) h1 = Ok (r2, h2) ∧
    exec_ r2 = exec_ this ∧ size_ r2 = size_ this ∧
    contents h2 r2 = Some els ∧
    contents h2 this = Some els.
Proof.
  intros Hthis.
  destruct (copyToExecutor_spec policy this there h els Hthis)
    as (r1 & h1 & H1 & Hsz1 & Hex1 & Hr1 & _ & Hkeep1).
  destruct (copyToExecutor_spec policy r1 (exec_ this) h1 els Hr1)
    as (r2 & h2 & H2 & Hsz2 & Hex2 & Hr2 & _ & Hkeep2).
  exists r1, h1, r2, h2. split_and!; try done; [congruence | eauto].
Qed.

Lemma copyToExecutor_round_trip_witness :
  ∃ r1 h1 r2 h2,
    copyToExecutor {| alloc_zero_is_null := true; realloc_zero_is_null := true |}
      {| size_ := 2%N; data_ := Some 1%positive; exec_ := SerialExecutor |} GPUExecutor
      {[ 1%positive := [Some (Q2Qc 5); Some (Q2Qc 7)] ]} = Ok (r1, h1) ∧
    copyToExecutor {| alloc_zero_is_null := true; realloc_zero_is_null := true |}
      r1 SerialExecutor h1 = Ok (r2, h2) ∧
    contents h2 r2 = Some [Some (Q2Qc 5); Some (Q2Qc 7)].
Proof.
  destruct (copyToExecutor_round_trip
              {| alloc_zero_is_null := true; realloc_zero_is_null := true |}
              {| size_ := 2%N; data_ := Some 1%positive; exec_ := SerialExecutor |}
              GPUExecutor {[ 1%positive := [Some (Q2Qc 5); Some (Q2Qc 7)] ]}
              [Some (Q2Qc 5); Some (Q2Qc 7)])
    as (r1 & h1 & r2 & h2 & H1 & H2 & _ & _ & H3 & _); [reflexivity|].
  exists r1, h1, r2, h2. repeat split; assumption.
Defined.

(** X4.  Assignment from a vector on another executor is refused with a
    validation error that does not depend on the build; no buffer is touched
    before the error. *)
Theorem assign_executor_mismatch
    (policy : AllocPolicy) (this rhs : Vector) (h : Heap) :
  exec_ this ≠ exec_ rhs →
  assign policy this rhs h = ValidationError "Executors are not the same".
Proof.
  intros Hne. unfold assign, NF_ASSERT, bind. by rewrite bool_decide_eq_false_2.
Qed.

Lemma assign_executor_mismatch_witness :
  assign {| alloc_zero_is_null := true; realloc_zero_is_null := true |}
    {| size_ := 1%N; data_ := Some 1%positive; exec_ := SerialExecutor |}
    {| size_ := 1%N; data_ := Some 2%positive; exec_ := CPUExecutor |}
    {[ 1%positive := [Some (Q2Qc 1)]; 2%positive := [Some (Q2Qc 2)] ]}
  = ValidationError "Executors are not the same".
Proof. apply assign_executor_mismatch. discriminate. Defined.

(** X5.  Assignment from a vector on the same executor leaves the destination
    with the size and the elements of the source, whatever the two sizes were:
    a destination of another size is resized first, a destination of the same
    size keeps its buffer.  The source and every vector that does not share
    the buffer of the destination keep their elements. *)
Theorem assign_copies_elements
    (policy : AllocPolicy) (this rhs : Vector) (h : Heap) (et er : list (option scalar)) :
  contents h this = Some et →
  contents h rhs = Some er →
  exec_ this = exec_ rhs →
  separate this rhs →
  ∃ r h',
    assign policy this rhs h = Ok (r, h') ∧
    size_ r = size_ rhs ∧ exec_ r = exec_ this ∧
    contents h' r = Some er ∧
    contents h' rhs = Some er ∧
    (size_ this = size_ rhs → r = this) ∧
    (∀ v ev, contents h v = Some ev → separate this v → contents h' v = Some ev).
Proof.
  intros Hthis Hrhs Hex Hsep.
  destruct (assign_spec policy this rhs h et er Hthis Hrhs Hex (or_introl Hsep))
    as (r & h' & Hrun & Hsz & Hrex & Hr & Hsame & Hframe).
  exists r, h'. split_and!; try done.
  - by apply (Hframe rhs er).
  - intros v ev Hv Hs. by apply (Hframe v ev).
Qed.

Lemma assign_copies_elements_witness :
  ∃ r h',
    assign {| alloc_zero_is_null := true; realloc_zero_is_null := true |}
      {| size_ := 1%N; data_ := Some 1%positive; exec_ := SerialExecutor |}
      {| size_ := 2%N; data_ := Some 2%positive; exec_ := SerialExecutor |}
      {[ 1%positive := [Some (Q2Qc 1)]; 2%positive := [Some (Q2Qc 2); Some (Q2Qc 3)] ]}
    = Ok (r, h') ∧
    size_ r = 2%N ∧
    contents h' r = Some [Some (Q2Qc 2); Some (Q2Qc 3)].
Proof.
  destruct (assign_copies_elements
              {| alloc_zero_is_null := true; realloc_zero_is_null := true |}
              {| size_ := 1%N; data_ := Some 1%positive; exec_ := SerialExecutor |}
              {| size_ := 2%N; data_ := Some 2%positive; exec_ := SerialExecutor |}
              {[ 1%positive := [Some (Q2Qc 1)];
                 2%positive := [Some (Q2Qc 2); Some (Q2Qc 3)] ]}
              [Some (Q2Qc 1)] [Some (Q2Qc 2); Some (Q2Qc 3)])
    as (r & h' & H1 & H2 & _ & H3 & _); [reflexivity | reflexivity | reflexivity | |].
  { intros p [= <-]. discriminate. }
  exists r, h'. repeat split; assumption.
Defined.

Section VectorArithmeticFacts.

Variable NF_DEBUG : bool.
Variable policy : AllocPolicy.
Implicit Types (h : Heap) (v a b this rhs : Vector) (p q : positive).

(** The three compound assignments by a vector, for valid operands of the
    same size on the same executor. *)
Lemma compound_assign_spec (f : scalar → scalar → scalar)
    (op : Vector → Vector → M Vector) a b h ea eb :
  (∀ this rhs, op this rhs
     = bind (validateOtherVector NF_DEBUG this rhs)
         (λ _, bind (elementwise (lift2 f) this (data_ rhs) (exec_ rhs))
                 (λ _, ret this))) →
  contents h a = Some ea → contents h b = Some eb →
  size_ b = size_ a → exec_ b = exec_ a →
  ∃ h',
    op a b h = Ok (a, h') ∧
    contents h' a = Some (zip_with (lift2 f) ea eb) ∧
    (∀ v, separate a v → contents h' v = contents h v).
Proof.
  intros Hop Ha Hb Hsz Hex. rewrite Hop. unfold bind at 1.
  rewrite (validateOtherVector_same NF_DEBUG a b h) by done.
  destruct (elementwise_spec (lift2 f) a b h ea eb Ha Hb Hsz) as (h' & Hrun & Hr & Hframe).
  { rewrite Hex. apply reachable_refl. }
  unfold bind, ret. rewrite Hrun. by exists h'.
Qed.

Lemma add_assign_spec a b h ea eb :
  contents h a = Some ea → contents h b = Some eb →
  size_ b = size_ a → exec_ b = exec_ a →
  ∃ h',
    add_assign NF_DEBUG a b h = Ok (a, h') ∧
    contents h' a = Some (zip_with (lift2 Qcplus) ea eb) ∧
    (∀ v, separate a v → contents h' v = contents h v).
Proof. by apply compound_assign_spec. Qed.

Lemma sub_assign_spec a b h ea eb :
  contents h a = Some ea → contents h b = Some eb →
  size_ b = size_ a → exec_ b = exec_ a →
  ∃ h',
    sub_assign NF_DEBUG a b h = Ok (a, h') ∧
    contents h' a = Some (zip_with (lift2 Qcminus) ea eb) ∧
    (∀ v, separate a v → contents h' v = contents h v).
Proof. by apply compound_assign_spec. Qed.

Lemma mul_assign_spec a b h ea eb :
  contents h a = Some ea → contents h b = Some eb →
  size_ b = size_ a → exec_ b = exec_ a →
  ∃ h',
    mul_assign NF_DEBUG a b h = Ok (a, h') ∧
    contents h' a = Some (zip_with (lift2 Qcmult) ea eb) ∧
    (∀ v, separate a v → contents h' v = contents h v).
Proof. by apply compound_assign_spec. Qed.

(** The free binary operators on an lvalue left operand. *)
Lemma binary_operator_spec (f : scalar → scalar → scalar)
    (assign_op : Vector → Vector → M Vector) (binop : Vector → Vector → M Vector)
    a b h ea eb :
  (∀ lhs_arg rhs, binop lhs_arg rhs
     = bind (Vector_copy policy lhs_arg)
         (λ lhs, bind (assign_op lhs rhs)
                   (λ lhs, let '(result, lhs) := Vector_move lhs in
                           bind (Vector_destroy lhs) (λ _, ret result)))) →
  (∀ a b h ea eb,
     contents h a = Some ea → contents h b = Some eb →
     size_ b = size_ a → exec_ b = exec_ a →
     ∃ h', assign_op a b h = Ok (a, h') ∧
           contents h' a = Some (zip_with (lift2 f) ea eb) ∧
           (∀ v, separate a v → contents h' v = contents h v)) →
  contents h a = Some ea → contents h b = Some eb →
  size_ b = size_ a → exec_ b = exec_ a →
  ∃ r h',
    binop a b h = Ok (r, h') ∧
    size_ r = size_ a ∧ exec_ r = exec_ a ∧
    contents h' r = Some (zip_with (lift2 f) ea eb) ∧
    (∀ p, data_ r = Some p → h !! p = None) ∧
    (∀ v ev, contents h v = Some ev → contents h' v = Some ev).
Proof.
  intros Hbin Hop Ha Hb Hsz Hex. rewrite Hbin. unfold Vector_copy, bind at 1.
  destruct (Vector_from_spec policy (exec_ a) (data_ a) (size_ a) (exec_ a) h ea)
    as (lhs & h1 & -> & Hlsz & Hlex & Hl & Hfresh & Hkeep & _).
  { by rewrite <- Ha. }
  unfold bind at 1.
  destruct (Hop lhs b h1 ea eb Hl (Hkeep _ _ Hb)) as (h2 & -> & Hl2 & Hframe);
    [congruence | congruence |].
  simpl. unfold Vector_destroy, exec_free, bind, ret. simpl.
  eexists _, h2. split; [done|]. simpl. split_and!; try done.
  intros v ev Hv. rewrite Hframe; [by apply Hkeep|].
  intros p Hp. eapply contents_fresh; [done|]. by apply Hfresh.
Qed.

End VectorArithmeticFacts.

(** X6.  For valid operands of the same size on the same executor that do not
    share a buffer, in either build, [a += b] works in place and leaves the
    element-wise sums in [a], and [a -= b] after it works in place and leaves
    [(x + y) - y] for the elements [x] of [a] and [y] of [b], the two
    operations applied in this order; [b] keeps its elements throughout.
    That [a] is restored is not stated: [(x + y) - y] is [x] only where the
    two operations are exact. *)
Theorem add_assign_then_sub_assign_in_place
    (NF_DEBUG : bool) (a b : Vector) (h : Heap) (ea eb : list (option scalar)) :
  contents h a = Some ea →
  contents h b = Some eb →
  size_ b = size_ a →
  exec_ b = exec_ a →
  separate a b →
  ∃ h1 h2,
    add_assign NF_DEBUG a b h = Ok (a, h1) ∧
    contents h1 a = Some (zip_with (lift2 Qcplus) ea eb) ∧
    contents h1 b = Some eb ∧
    sub_assign NF_DEBUG a b h1 = Ok (a, h2) ∧
    contents h2 a
    = Some (zip_with (lift2 Qcminus) (zip_with (lift2 Qcplus) ea eb) eb) ∧
    contents h2 b = Some eb ∧
    (∀ v, separate a v → contents h2 v = contents h v).
Proof.
  intros Ha Hb Hsz Hex Hsep.
  destruct (add_assign_spec NF_DEBUG a b h ea eb Ha Hb Hsz Hex) as (h1 & H1 & Ha1 & Hf1).
  assert (contents h1 b = Some eb) as Hb1 by (by rewrite Hf1).
  destruct (sub_assign_spec NF_DEBUG a b h1 _ eb Ha1 Hb1 Hsz Hex) as (h2 & H2 & Ha2 & Hf2).
  exists h1, h2. split_and!; try done.
  - by rewrite Hf2.
  - intros v Hv. by rewrite Hf2, Hf1.
Qed.

Lemma add_assign_then_sub_assign_in_place_witness :
  ∃ h1 h2,
    add_assign false {| size_ := 2%N; data_ := Some 1%positive; exec_ := SerialExecutor |}
      {| size_ := 2%N; data_ := Some 2%positive; exec_ := SerialExecutor |}
      {[ 1%positive := [Some (Q2Qc 5); None];
         2%positive := [Some (Q2Qc 2); Some (Q2Qc 3)] ]}
    = Ok ({| size_ := 2%N; data_ := Some 1%positive; exec_ := SerialExecutor |}, h1) ∧
    sub_assign false {| size_ := 2%N; data_ := Some 1%positive; exec_ := SerialExecutor |}
      {| size_ := 2%N; data_ := Some 2%positive; exec_ := SerialExecutor |} h1
    = Ok ({| size_ := 2%N; data_ := Some 1%positive; exec_ := SerialExecutor |}, h2) ∧
    contents h2 {| size_ := 2%N; data_ := Some 1%positive; exec_ := SerialExecutor |}
    = Some [Some (Q2Qc 5 + Q2Qc 2 - Q2Qc 2); None].
Proof.
  destruct (add_assign_then_sub_assign_in_place false
              {| size_ := 2%N; data_ := Some 1%positive; exec_ := SerialExecutor |}
              {| size_ := 2%N; data_ := Some 2%positive; exec_ := SerialExecutor |}
              {[ 1%positive := [Some (Q2Qc 5); None];
                 2%positive := [Some (Q2Qc 2); Some (Q2Qc 3)] ]}
              [Some (Q2Qc 5); None] [Some (Q2Qc 2); Some (Q2Qc 3)])
    as (h1 & h2 & H1 & _ & _ & H2 & H3 & _);
    [reflexivity | reflexivity | reflexivity | reflexivity | |].
  { intros p [= <-]. discriminate. }
  exists h1, h2. repeat split; assumption.
Defined.



Lemma insert_fresh_delete (h : Heap) p x : h !! p = None → delete p (<[p := x]> h) = h.
Proof. intros Hp. rewrite delete_insert_eq. by apply delete_id. Qed.

(** X8.  A move transfers the buffer: the new object has the elements of the
    source, the moved-from object can be destroyed without touching the heap,
    and destroying the new object releases the buffer.  Destroying the source
    as it was before the move and then the new object would release the same
    buffer twice. *)
Theorem Vector_move_transfers_ownership (rhs : Vector) (h : Heap) (es : list (option scalar)) :
  contents h rhs = Some es →
  contents h (Vector_move rhs).1 = Some es ∧
  Vector_destroy (Vector_move rhs).2 h = Ok (tt, h) ∧
  (∀ p, data_ rhs = Some p →
     Vector_destroy (Vector_move rhs).1 h = Ok (tt, delete p h) ∧
     ∃ h', Vector_destroy rhs h = Ok (tt, h') ∧
           Vector_destroy (Vector_move rhs).1 h' = Undefined).
Proof.
  intros Hrhs. split_and!.
  - rewrite <- Hrhs. by apply contents_ext.
  - done.
  - intros p Hp. destruct (contents_Some_block _ _ _ _ Hp Hrhs) as (blk & Hblk & _).
    unfold Vector_destroy, exec_free. simpl. rewrite Hp, Hblk. split; [done|].
    eexists. split; [done|]. by rewrite lookup_delete_eq.
Qed.

Lemma Vector_move_transfers_ownership_witness :
  contents {[ 1%positive := [Some (Q2Qc 5)] ]}
    (Vector_move {| size_ := 1%N; data_ := Some 1%positive; exec_ := GPUExecutor |}).1
  = Some [Some (Q2Qc 5)].
Proof.
  destruct (Vector_move_transfers_ownership
              {| size_ := 1%N; data_ := Some 1%positive; exec_ := GPUExecutor |}
              {[ 1%positive := [Some (Q2Qc 5)] ]} [Some (Q2Qc 5)]) as [H _];
    [reflexivity | exact H].
Defined.

(** X9.  Constructing a vector (by size and value, or as a copy of a valid
    vector) and destroying it leaves the heap exactly as it was: the
    destructor releases what the constructor allocated and nothing else. *)
Theorem construct_then_destroy_restores_heap
    (policy : AllocPolicy) (exec : Executor) (size : localIdx) (value : scalar)
    (rhs : Vector) (h : Heap) (es : list (option scalar)) :
  contents h rhs = Some es →
  (∃ v h1, Vector_filled policy exec size value h = Ok (v, h1) ∧
           Vector_destroy v h1 = Ok (tt, h)) ∧
  (∃ v h1, Vector_copy policy rhs h = Ok (v, h1) ∧
           Vector_destroy v h1 = Ok (tt, h)).
Proof.
  intros Hrhs. pose proof (fresh_not_live h) as Hfresh. split.
  - unfold Vector_filled, Vector_destroy, fill, pointwise, exec_alloc, exec_free, bind, ret.
    destruct ((size =? 0)%N && alloc_zero_is_null policy) eqn:E; simpl.
    + apply andb_true_iff in E as [E _]. rewrite E. by eexists _, _.
    + destruct (size =? 0)%N eqn:Ez; simpl.
      * eexists _, _. split; [done|]. simpl. rewrite lookup_insert_eq.
        by rewrite insert_fresh_delete.
      * rewrite lookup_insert_eq. rewrite decide_True by (by rewrite length_replicate).
        eexists _, _. split; [done|]. simpl. rewrite lookup_insert_eq.
        rewrite delete_insert_eq. by rewrite insert_fresh_delete.
  - unfold Vector_copy, Vector_from, Vector_destroy, deepCopy, exec_alloc, exec_free,
      bind, ret.
    destruct ((size_ rhs =? 0)%N && alloc_zero_is_null policy) eqn:E; simpl.
    + apply andb_true_iff in E as [E _]. rewrite E. by eexists _, _.
    + destruct (size_ rhs =? 0)%N eqn:Ez; simpl.
      * eexists _, _. split; [done|]. simpl. rewrite lookup_insert_eq.
        by rewrite insert_fresh_delete.
      * apply N.eqb_neq in Ez. destruct (contents_nonempty _ _ _ Hrhs Ez) as [q Hq].
        destruct (contents_Some_block _ _ _ _ Hq Hrhs) as (blk & Hblk & Hlen & _).
        rewrite Hq. rewrite lookup_insert_ne by congruence. rewrite Hblk.
        rewrite lookup_insert_eq.
        rewrite decide_True by (by rewrite length_replicate).
        eexists _, _. split; [done|]. simpl. rewrite lookup_insert_eq.
        rewrite delete_insert_eq. by rewrite insert_fresh_delete.
Qed.

Lemma construct_then_destroy_restores_heap_witness :
  ∃ v h1,
    Vector_filled {| alloc_zero_is_null := false; realloc_zero_is_null := false |}
      CPUExecutor 3%N (Q2Qc 1) {[ 1%positive := [Some (Q2Qc 5)] ]} = Ok (v, h1) ∧
    Vector_destroy v h1 = Ok (tt, {[ 1%positive := [Some (Q2Qc 5)] ]}).
Proof.
  destruct (construct_then_destroy_restores_heap
              {| alloc_zero_is_null := false; realloc_zero_is_null := false |}
              CPUExecutor 3%N (Q2Qc 1)
              {| size_ := 1%N; data_ := Some 1%positive; exec_ := GPUExecutor |}
              {[ 1%positive := [Some (Q2Qc 5)] ]} [Some (Q2Qc 5)]) as [H _];
    [reflexivity | exact H].
Defined.

(** X10.  Resizing a valid vector, empty or not, to any size and assigning a
    value leaves a vector of the new size whose elements all hold the value;
    before the assignment the elements below both sizes are those of the old
    vector. *)
Theorem resize_then_assign_value
    (policy : AllocPolicy) (this : Vector) (n : localIdx) (value : scalar) (h : Heap)
    (et : list (option scalar)) :
  contents h this = Some et →
  ∃ r h1 h2 er,
    resize policy this n h = Ok (r, h1) ∧
    size_ r = n ∧ exec_ r = exec_ this ∧
    contents h1 r = Some er ∧
    (∀ i, (i < n)%N → (i < size_ this)%N → er !! N.to_nat i = et !! N.to_nat i) ∧
    assign_value r value h1 = Ok (r, h2) ∧
    contents h2 r = Some (replicate (N.to_nat n) (Some value)).
Proof.
  intros Hthis.
  destruct (resize_spec policy this n h et Hthis)
    as (r & h1 & er & Hrun & Hsz & Hex & Hr & Hold & _).
  destruct (pointwise_spec (λ _, Some value) r h1 er Hr) as (h2 & Hfill & Hr2 & _).
  exists r, h1, h2, er. split_and!; try done.
  - unfold assign_value, fill, bind, ret. by rewrite Hfill.
  - rewrite Hr2. f_equal. apply contents_length in Hr. rewrite Hsz in Hr.
    rewrite <- Hr. clear. induction er as [|x er IH]; simpl; [done | by rewrite IH].
Qed.

Lemma resize_then_assign_value_witness :
  ∃ r h1 h2,
    resize {| alloc_zero_is_null := true; realloc_zero_is_null := true |}
      {| size_ := 0%N; data_ := None; exec_ := SerialExecutor |} 3%N ∅ = Ok (r, h1) ∧
    assign_value r (Q2Qc 4) h1 = Ok (r, h2) ∧
    contents h2 r = Some (replicate (N.to_nat 3) (Some (Q2Qc 4))).
Proof.
  destruct (resize_then_assign_value
              {| alloc_zero_is_null := true; realloc_zero_is_null := true |}
              {| size_ := 0%N; data_ := None; exec_ := SerialExecutor |} 3%N (Q2Qc 4) ∅ [])
    as (r & h1 & h2 & er & H1 & _ & _ & _ & _ & H2 & H3); [reflexivity|].
  exists r, h1, h2. repeat split; assumption.
Defined.

(** X12.  [copyToHost(result)] reports a validation error whenever [result] is
    not on the serial executor, the host-parallel executor included, in every
    build and whatever the two sizes are: the host copy is always made for
    the serial executor and its assignment to [result] checks the executors.
    In a debug build with different sizes the size check comes first and the
    error is the one of the sizes; in every other case it is the one of the
    executors. *)
Theorem copyToHost_into_requires_serial_result
    (NF_DEBUG : bool) (policy : AllocPolicy) (this result : Vector) (h : Heap)
    (es : list (option scalar)) :
  contents h this = Some es →
  exec_ result ≠ SerialExecutor →
  copyToHost_into NF_DEBUG policy this result h
  = ValidationError
      (if NF_DEBUG && negb (size_ result =? size_ this)%N
       then "Parsed Vector size not the same as current field size"
       else "Executors are not the same").
Proof.
  intros Hthis Hne. unfold copyToHost_into. unfold bind at 1.
  destruct (NF_DEBUG && negb (size_ result =? size_ this)%N) eqn:Hchk.
  - apply andb_true_iff in Hchk as [-> Hsz%negb_true_iff].
    unfold NF_DEBUG_ASSERT, NF_ASSERT. by rewrite Hsz.
  - assert (NF_DEBUG_ASSERT NF_DEBUG (size_ result =? size_ this)%N
              "Parsed Vector size not the same as current field size" h = Ok (tt, h)) as ->.
    { unfold NF_DEBUG_ASSERT, NF_ASSERT, ret. destruct NF_DEBUG; [|done].
      simpl in Hchk. apply negb_false_iff in Hchk. by rewrite Hchk. }
    destruct (copyToExecutor_spec policy this SerialExecutor h es Hthis)
      as (tmp & h1 & Htmp & _ & Hex & _).
    unfold bind at 1. rewrite Htmp. unfold bind at 1.
    unfold assign, NF_ASSERT, bind. rewrite bool_decide_eq_false_2; [done|]. congruence.
Qed.

Lemma copyToHost_into_requires_serial_result_witness :
  copyToHost_into false {| alloc_zero_is_null := true; realloc_zero_is_null := true |}
    {| size_ := 1%N; data_ := Some 1%positive; exec_ := GPUExecutor |}
    {| size_ := 1%N; data_ := Some 2%positive; exec_ := CPUExecutor |}
    {[ 1%positive := [Some (Q2Qc 1)]; 2%positive := [Some (Q2Qc 2)] ]}
  = ValidationError "Executors are not the same" ∧
  copyToHost_into true {| alloc_zero_is_null := true; realloc_zero_is_null := true |}
    {| size_ := 1%N; data_ := Some 1%positive; exec_ := GPUExecutor |}
    {| size_ := 2%N; data_ := Some 2%positive; exec_ := CPUExecutor |}
    {[ 1%positive := [Some (Q2Qc 1)]; 2%positive := [Some (Q2Qc 2); Some (Q2Qc 3)] ]}
  = ValidationError "Parsed Vector size not the same as current field size".
Proof.
  split.
  - apply (copyToHost_into_requires_serial_result false
             {| alloc_zero_is_null := true; realloc_zero_is_null := true |}
             {| size_ := 1%N; data_ := Some 1%positive; exec_ := GPUExecutor |}
             {| size_ := 1%N; data_ := Some 2%positive; exec_ := CPUExecutor |}
             {[ 1%positive := [Some (Q2Qc 1)]; 2%positive := [Some (Q2Qc 2)] ]}
             [Some (Q2Qc 1)]); [reflexivity | discriminate].
  - apply (copyToHost_into_requires_serial_result true
             {| alloc_zero_is_null := true; realloc_zero_is_null := true |}
             {| size_ := 1%N; data_ := Some 1%positive; exec_ := GPUExecutor |}
             {| size_ := 2%N; data_ := Some 2%positive; exec_ := CPUExecutor |}
             {[ 1%positive := [Some (Q2Qc 1)];
                2%positive := [Some (Q2Qc 2); Some (Q2Qc 3)] ]}
             [Some (Q2Qc 1)]); [reflexivity | discriminate].
Defined.

(** X13.  [copyToHost(result)] into a valid vector on the serial executor that
    does not share the buffer of the source leaves [result] with the size and
    the elements of the source, and the source unchanged.  In an optimised
    build this also holds when the sizes differ: [result] is resized, no error
    is reported.  In a debug build a size mismatch is a validation error. *)
Theorem copyToHost_into_copies
    (NF_DEBUG : bool) (policy : AllocPolicy) (this result : Vector) (h : Heap)
    (es er : list (option scalar)) :
  contents h this = Some es →
  contents h result = Some er →
  exec_ result = SerialExecutor →
  separate result this →
  (NF_DEBUG = false ∨ size_ result = size_ this →
   ∃ r h',
     copyToHost_into NF_DEBUG policy this result h = Ok (r, h') ∧
     size_ r = size_ this ∧ exec_ r = SerialExecutor ∧
     contents h' r = Some es ∧
     contents h' this = Some es ∧
     (size_ result = size_ this → r = result)) ∧
  (NF_DEBUG = true → size_ result ≠ size_ this →
   copyToHost_into NF_DEBUG policy this result h
   = ValidationError "Parsed Vector size not the same as current field size").
Proof.
  intros Hthis Hres Hex Hsep. split.
  - intros Hchk. unfold copyToHost_into. unfold bind at 1.
    assert (NF_DEBUG_ASSERT NF_DEBUG (size_ result =? size_ this)%N
              "Parsed Vector size not the same as current field size" h = Ok (tt, h)) as ->.
    { unfold NF_DEBUG_ASSERT, NF_ASSERT, ret. destruct Hchk as [->| ->]; [done|].
      rewrite N.eqb_refl. by destruct NF_DEBUG. }
    destruct (copyToExecutor_spec policy this SerialExecutor h es Hthis)
      as (tmp & h1 & Htmp & Htsz & Htex & Htc & Hfresh & Hkeep).
    unfold bind at 1. rewrite Htmp. unfold bind at 1.
    assert (separate result tmp) as Hrt.
    { intros p Hp Hq. apply Hfresh in Hq. by eapply contents_fresh in Hq. }
    destruct (assign_spec policy result tmp h1 er es (Hkeep _ _ Hres) Htc)
      as (r & h2 & -> & Hrsz & Hrex & Hrc & Hsame & Hframe); [congruence | by left |].
    destruct (Hframe tmp es Htc Hrt) as [Hrtmp Htmp2].
    destruct (Hframe this es (Hkeep _ _ Hthis) Hsep) as [_ Hthis2].
    unfold Vector_destroy, exec_free, bind, ret.
    destruct (data_ tmp) as [p|] eqn:Hp.
    + destruct (contents_Some_block _ _ _ _ Hp Htmp2) as (blk & -> & _).
      exists r, (delete p h2). split; [done|]. split_and!; try congruence.
      * rewrite contents_delete_ne; [done|]. intros Hr. by apply (Hrtmp p).
      * rewrite contents_delete_ne; [done|].
        eapply contents_fresh; [exact Hthis|]. by apply Hfresh.
      * intros Hs. apply Hsame. congruence.
    + exists r, h2. split; [done|]. split_and!; try congruence.
      intros Hs. apply Hsame. congruence.
  - intros -> Hne. unfold copyToHost_into, NF_DEBUG_ASSERT, NF_ASSERT, bind.
    apply N.eqb_neq in Hne. by rewrite Hne.
Qed.

Lemma copyToHost_into_copies_witness :
  ∃ r h',
    copyToHost_into false {| alloc_zero_is_null := true; realloc_zero_is_null := true |}
      {| size_ := 2%N; data_ := Some 1%positive; exec_ := GPUExecutor |}
      {| size_ := 1%N; data_ := Some 2%positive; exec_ := SerialExecutor |}
      {[ 1%positive := [Some (Q2Qc 1); Some (Q2Qc 3)]; 2%positive := [Some (Q2Qc 2)] ]}
    = Ok (r, h') ∧
    size_ r = 2%N ∧
    contents h' r = Some [Some (Q2Qc 1); Some (Q2Qc 3)].
Proof.
  destruct (copyToHost_into_copies false
              {| alloc_zero_is_null := true; realloc_zero_is_null := true |}
              {| size_ := 2%N; data_ := Some 1%positive; exec_ := GPUExecutor |}
              {| size_ := 1%N; data_ := Some 2%positive; exec_ := SerialExecutor |}
              {[ 1%positive := [Some (Q2Qc 1); Some (Q2Qc 3)];
                 2%positive := [Some (Q2Qc 2)] ]}
              [Some (Q2Qc 1); Some (Q2Qc 3)] [Some (Q2Qc 2)]) as [H _];
    [reflexivity | reflexivity | reflexivity | |].
  { intros p [= <-]. discriminate. }
  destruct (H (or_introl eq_refl)) as (r & h' & H1 & H2 & _ & H3 & _).
  exists r, h'. repeat split; assumption.
Defined.

(** X14.  For bounds [first <= second <= size()], the view of a range has
    [second - first] elements and its element [i] is element [first + i] of the
    vector; the view of [range()] is [view()].  The bounds are not checked:
    for [second < first] the length wraps to [2^32 - (first - second)]. *)
Theorem view_range_slice
    (this : Vector) (first second : localIdx) (h : Heap) (es : list (option scalar)) :
  contents h this = Some es →
  (size_ this < localIdx_modulus)%N →
  (first < localIdx_modulus)%N →
  (second < localIdx_modulus)%N →
  ((first ≤ second)%N → (second ≤ size_ this)%N →
   view_size (view_range this (first, second)) = (second - first)%N ∧
   ∀ i x, (i < second - first)%N → es !! N.to_nat (first + i) = Some x →
     view_at h (view_range this (first, second)) i = Some x) ∧
  view_range this (range this) = view this ∧
  ((second < first)%N →
   view_size (view_range this (first, second))
   = (localIdx_modulus - (first - second))%N).
Proof.
  intros Hthis Hsz Hf Hs. unfold view_range, view, range, idx_sub. simpl.
  split_and!.
  - intros Hle Hin. rewrite (N.mod_small first) by done.
    assert (((second + localIdx_modulus - first) mod localIdx_modulus)%N
            = (second - first)%N) as Hlen.
    { replace (second + localIdx_modulus - first)%N
        with ((second - first) + 1 * localIdx_modulus)%N by lia.
      rewrite N.Div0.mod_add. apply N.mod_small. lia. }
    split; [done|]. intros i x Hi Hx. unfold view_at. simpl.
    assert (size_ this ≠ 0%N) as Hne by lia.
    destruct (contents_nonempty _ _ _ Hthis Hne) as [p Hp].
    destruct (contents_Some_block _ _ _ _ Hp Hthis) as (blk & Hblk & Hblen & ->).
    rewrite Hp. simpl. rewrite Hblk. simpl. rewrite Hlen. rewrite decide_True by done.
    rewrite lookup_take_lt in Hx by lia. done.
  - f_equal. rewrite N.Div0.mod_0_l. rewrite N.sub_0_r.
    replace (size_ this + localIdx_modulus)%N
      with (size_ this + 1 * localIdx_modulus)%N by lia.
    rewrite N.Div0.mod_add. by apply N.mod_small.
  - intros Hlt. rewrite (N.mod_small first) by done.
    replace (second + localIdx_modulus - first)%N
      with (localIdx_modulus - (first - second))%N by lia.
    apply N.mod_small. unfold localIdx_modulus in *. lia.
Qed.

Lemma view_range_slice_witness :
  view_at {[ 1%positive := [Some (Q2Qc 5); Some (Q2Qc 6); Some (Q2Qc 7)] ]}
    (view_range {| size_ := 3%N; data_ := Some 1%positive; exec_ := SerialExecutor |}
       (1%N, 3%N)) 1%N
  = Some (Some (Q2Qc 7)).
Proof.
  destruct (view_range_slice
              {| size_ := 3%N; data_ := Some 1%positive; exec_ := SerialExecutor |}
              1%N 3%N {[ 1%positive := [Some (Q2Qc 5); Some (Q2Qc 6); Some (Q2Qc 7)] ]}
              [Some (Q2Qc 5); Some (Q2Qc 6); Some (Q2Qc 7)]) as [H _];
    [reflexivity.. |].
  destruct H as [_ H]; [simpl; lia | simpl; lia |].
  apply (H 1%N (Some (Q2Qc 7))); [lia | reflexivity].
Defined.

(** * Further properties of the explicit divergence *)

Section ComputeDivMoreFacts.

Variables (nInternalFaces nBoundaryFaces : localIdx).
Variables (neighbour owner faceCells : View localIdx).
Variables (faceFlux phiF v : View scalar).

Local Abbreviation pre :=
  (computeDiv_pre nInternalFaces nBoundaryFaces neighbour owner faceCells faceFlux phiF v).
Local Abbreviation fluxSum :=
  (cellFluxSum nInternalFaces nBoundaryFaces neighbour owner faceCells faceFlux phiF).
Local Abbreviation run :=
  (computeDiv nInternalFaces nBoundaryFaces neighbour owner faceCells faceFlux phiF v).


End ComputeDivMoreFacts.


(** * Further properties of the implicit divergence *)

Lemma Qc_mul_nonneg (x y : scalar) : 0 <= x → 0 <= y → 0 <= x * y.
Proof.
  intros Hx Hy. replace 0 with (0 * y) by ring. by apply Qcmult_le_compat_r.
Qed.

Lemma Qc_mul_nonpos_nonneg (x y : scalar) : x <= 0 → 0 <= y → x * y <= 0.
Proof.
  intros Hx Hy. replace 0 with (0 * y) by ring. by apply Qcmult_le_compat_r.
Qed.

Lemma Qc_opp_nonneg (x : scalar) : 0 <= x → - x <= 0.
Proof. intros Hx. replace 0 with (- 0) by ring. by apply Qcopp_le_compat. Qed.

(** X18.  Upwind sign structure.  For an internal face whose two cells have
    non-negative scalings, the kernel issues four updates of the matrix
    values, in the order off-diagonal of the neighbour's row, diagonal of the
    owner, off-diagonal of the owner's row, diagonal of the neighbour; the
    amounts added to the off-diagonal slots are never positive and the amounts
    subtracted from the diagonal slots are never positive, so diagonals do not
    decrease and off-diagonals do not increase.  For a flux [f >= 0] the last
    two updates are by zero, for [f < 0] the first two are. *)
Theorem divImp_internal_upwind_signs
    (sFaceFlux : View scalar) (owner neighbour diagOffs ownOffs neiOffs rowOffs : View localIdx)
    (operatorScaling : localIdx → scalar) (facei : localIdx) (ops : list LsOp)
    (f : scalar) (o n : localIdx) :
  divImp_internal sFaceFlux owner neighbour diagOffs ownOffs neiOffs rowOffs
    operatorScaling facei = Some ops →
  vget sFaceFlux facei = Some f →
  vget owner facei = Some o →
  vget neighbour facei = Some n →
  0 <= operatorScaling o →
  0 <= operatorScaling n →
  ∃ a1 x1 a2 y1 a3 x2 a4 y2,
    ops = [ (matrixValues, Plain a1 (add_ x1)); (matrixValues, Atomic a2 (sub_ y1));
            (matrixValues, Plain a3 (add_ x2)); (matrixValues, Atomic a4 (sub_ y2)) ] ∧
    x1 <= 0 ∧ y1 <= 0 ∧ x2 <= 0 ∧ y2 <= 0 ∧
    (0 <= f → x2 = 0 ∧ y2 = 0) ∧
    (f < 0 → x1 = 0 ∧ y1 = 0).
Proof.
  unfold divImp_internal. intros H Hf Ho Hn HsO HsN.
  rewrite Hf in H. simpl in H. rewrite Ho in H. simpl in H. rewrite Hn in H. simpl in H.
  destruct (vget rowOffs n); simpl in H; [|done].
  destruct (vget rowOffs o); simpl in H; [|done].
  destruct (vget neiOffs facei); simpl in H; [|done].
  destruct (vget diagOffs o); simpl in H; [|done].
  destruct (vget ownOffs facei); simpl in H; [|done].
  destruct (vget diagOffs n); simpl in H; [|done].
  injection H as <-. do 8 eexists. split; [done|].
  destruct (decide (0 <= f)) as [Hpos|Hneg].
  - assert (- 1 * f * 1 <= 0) as Hv1.
    { replace (- 1 * f * 1) with (- f) by ring. by apply Qc_opp_nonneg. }
    split_and!.
    + by apply Qc_mul_nonpos_nonneg.
    + by apply Qc_mul_nonpos_nonneg.
    + replace (f * (1 - 1) * 1 * operatorScaling o) with 0 by ring. apply Qcle_refl.
    + replace (f * (1 - 1) * 1 * operatorScaling n) with 0 by ring. apply Qcle_refl.
    + intros _. split; ring.
    + intros Hlt. exfalso. by apply (Qclt_not_le f 0).
  - apply Qcnot_le_lt in Hneg.
    assert (f * (1 - 0) * 1 <= 0) as Hv2.
    { replace (f * (1 - 0) * 1) with f by ring. by apply Qclt_le_weak. }
    split_and!.
    + replace (- 0 * f * 1 * operatorScaling n) with 0 by ring. apply Qcle_refl.
    + replace (- 0 * f * 1 * operatorScaling o) with 0 by ring. apply Qcle_refl.
    + by apply Qc_mul_nonpos_nonneg.
    + by apply Qc_mul_nonpos_nonneg.
    + intros Hpos. exfalso. by apply (Qclt_not_le f 0).
    + intros _. split; ring.
Qed.

Lemma divImp_internal_upwind_signs_witness :
  ∃ a1 x1 a2 y1 a3 x2 a4 y2,
    divImp_internal TwoCells.sFaceFlux TwoCells.owner TwoCells.neighbour TwoCells.diagOffs
      TwoCells.ownOffs TwoCells.neiOffs TwoCells.rowOffs TwoCells.operatorScaling 0%N
    = Some [ (matrixValues, Plain a1 (add_ x1)); (matrixValues, Atomic a2 (sub_ y1));
             (matrixValues, Plain a3 (add_ x2)); (matrixValues, Atomic a4 (sub_ y2)) ] ∧
    x1 <= 0 ∧ y1 <= 0.
Proof.
  destruct (divImp_internal_upwind_signs
              TwoCells.sFaceFlux TwoCells.owner TwoCells.neighbour TwoCells.diagOffs
              TwoCells.ownOffs TwoCells.neiOffs TwoCells.rowOffs TwoCells.operatorScaling
              0%N
              (default [] (divImp_internal TwoCells.sFaceFlux TwoCells.owner
                 TwoCells.neighbour TwoCells.diagOffs TwoCells.ownOffs TwoCells.neiOffs
                 TwoCells.rowOffs TwoCells.operatorScaling 0%N))
              (Q2Qc 1) 0%N 1%N)
    as (a1 & x1 & a2 & y1 & a3 & x2 & a4 & y2 & H & H1 & H2 & _);
    [reflexivity | reflexivity | reflexivity | reflexivity | discriminate | discriminate |].
  exists a1, x1, a2, y1, a3, x2, a4, y2. split; [|split; assumption].
  rewrite <- H. reflexivity.
Defined.

(** ** Serial assembly: the net effect of the two dispatches *)

Lemma sumOver_scale idxs (k : scalar) (f : localIdx → scalar) :
  sumOver idxs (λ i, k * f i) = k * sumOver idxs f.
Proof. induction idxs as [|i idxs IH]; simpl; [ring|]. rewrite IH. ring. Qed.

Lemma sumOver_zero idxs : sumOver idxs (λ _, 0) = 0.
Proof. induction idxs as [|i idxs IH]; simpl; [done|]. rewrite IH. ring. Qed.

Lemma sumOver_ext idxs (f g : localIdx → scalar) :
  (∀ i, i ∈ idxs → f i = g i) → sumOver idxs f = sumOver idxs g.
Proof.
  induction idxs as [|i idxs IH]; intros H; simpl; [done|].
  rewrite H by apply list_elem_of_here. rewrite IH; [done|].
  intros j Hj. apply H. by apply list_elem_of_further.
Qed.

Lemma ops_on_cons tgt o ops c :
  ops_delta (ops_on tgt (o :: ops)) c
  = ops_delta (ops_on tgt [o]) c + ops_delta (ops_on tgt ops) c.
Proof. unfold ops_on. simpl. destruct (targets tgt o); simpl; ring. Qed.

Lemma run_ls_op_ok o ls :
  ls_op_ok (vsize (values ls)) (vsize (rhs ls)) o = true →
  ∃ ls', run_ls_op o ls = Some ls' ∧
    shifted (values ls) (values ls') (ops_delta (ops_on matrixValues [o])) ∧
    shifted (rhs ls) (rhs ls') (ops_delta (ops_on rhsValues [o])).
Proof.
  unfold ls_op_ok, run_ls_op. destruct o as [[|] m]; simpl;
    intros [Hadd Hlt%N.ltb_lt]%andb_true_iff.
  - destruct (run_op_additive m (values ls) Hadd Hlt) as (a & -> & Hs). simpl.
    eexists. split; [done|]. simpl. split.
    + eapply shifted_ext; [done|]. intros c. unfold ops_on. simpl. ring.
    + by apply shifted_refl.
  - destruct (run_op_additive m (rhs ls) Hadd Hlt) as (a & -> & Hs). simpl.
    eexists. split; [done|]. simpl. split.
    + by apply shifted_refl.
    + eapply shifted_ext; [done|]. intros c. unfold ops_on. simpl. ring.
Qed.

Lemma run_ls_ops_ok ops ls :
  forallb (ls_op_ok (vsize (values ls)) (vsize (rhs ls))) ops = true →
  ∃ ls', run_ls_ops ops ls = Some ls' ∧
    shifted (values ls) (values ls') (ops_delta (ops_on matrixValues ops)) ∧
    shifted (rhs ls) (rhs ls') (ops_delta (ops_on rhsValues ops)).
Proof.
  revert ls. induction ops as [|o ops IH]; intros ls Hall; simpl.
  - eexists. split; [done|]. split; by apply shifted_refl.
  - simpl in Hall. apply andb_true_iff in Hall as [Ho Hall].
    destruct (run_ls_op_ok o ls Ho) as (ls1 & -> & HM1 & HR1). simpl.
    destruct (IH ls1) as (ls2 & -> & HM2 & HR2).
    { destruct HM1 as [-> _], HR1 as [-> _]. done. }
    eexists. split; [done|]. split.
    + eapply shifted_trans; [done..|]. intros c. apply ops_on_cons.
    + eapply shifted_trans; [done..|]. intros c. apply ops_on_cons.
Qed.

(** A serial dispatch whose accesses are in bounds runs to the end and adds,
    to every slot of either array, what its iterations add to it. *)
Lemma forLoop_from_ls_ok kernel n i ls :
  forallb (λ i, match kernel i with
                | Some ops => forallb (ls_op_ok (vsize (values ls)) (vsize (rhs ls))) ops
                | None => false
                end) (indices_from n i) = true →
  ∃ ls', forLoop_from n i (λ i ls, ops ← kernel i; run_ls_ops ops ls) ls = Some ls' ∧
    shifted (values ls) (values ls')
      (λ k, sumOver (indices_from n i) (λ i, face_delta kernel matrixValues i k)) ∧
    shifted (rhs ls) (rhs ls')
      (λ k, sumOver (indices_from n i) (λ i, face_delta kernel rhsValues i k)).
Proof.
  revert i ls. induction n as [|n IH]; intros i ls Hall; simpl.
  - eexists. split; [done|]. split; by apply shifted_refl.
  - simpl in Hall. apply andb_true_iff in Hall as [Hi Hall].
    destruct (kernel i) as [ops|] eqn:Hk; [|done]. simpl.
    destruct (run_ls_ops_ok ops ls Hi) as (ls1 & -> & HM1 & HR1). simpl.
    destruct (IH (N.succ i) ls1) as (ls2 & -> & HM2 & HR2).
    { destruct HM1 as [-> _], HR1 as [-> _]. done. }
    eexists. split; [done|]. split.
    + eapply shifted_trans; [done..|]. intros c. unfold face_delta at 1. by rewrite Hk.
    + eapply shifted_trans; [done..|]. intros c. unfold face_delta at 1. by rewrite Hk.
Qed.

Lemma kernel_in_bounds_spec kernel nM nR lo hi i :
  kernel_in_bounds kernel nM nR lo hi = true → i ∈ indices lo hi →
  ∃ ops, kernel i = Some ops ∧ forallb (ls_op_ok nM nR) ops = true.
Proof.
  unfold kernel_in_bounds. rewrite forallb_forall. intros H Hi.
  apply list_elem_of_In in Hi. specialize (H i Hi).
  destruct (kernel i) as [ops|]; [|done]. by exists ops.
Qed.

Section ComputeDivImpFacts.

Variable (nInternalFaces : localIdx).
Variable (sFaceFlux : View scalar).
Variables (owner neighbour surfFaceCells : View localIdx).
Variables (diagOffs ownOffs neiOffs rowOffs : View localIdx).
Variables (valueFraction refValue : View scalar).
Variable (operatorScaling : localIdx → scalar).

Local Abbreviation internalK :=
  (divImp_internal sFaceFlux owner neighbour diagOffs ownOffs neiOffs rowOffs
     operatorScaling).
Local Abbreviation boundaryK :=
  (divImp_boundary nInternalFaces sFaceFlux surfFaceCells diagOffs rowOffs
     valueFraction refValue operatorScaling).
Local Abbreviation preImp :=
  (computeDivImp_pre nInternalFaces sFaceFlux owner neighbour surfFaceCells diagOffs
     ownOffs neiOffs rowOffs valueFraction refValue operatorScaling).
Local Abbreviation divImp :=
  (computeDivImp nInternalFaces sFaceFlux owner neighbour surfFaceCells diagOffs
     ownOffs neiOffs rowOffs valueFraction refValue operatorScaling).
Local Abbreviation internalRange := (indices 0 nInternalFaces).
Local Abbreviation boundaryRange := (indices nInternalFaces (vsize sFaceFlux)).

Lemma computeDivImp_serial_shifted ls :
  preImp ls = true →
  ∃ ls', divImp SerialExecutor ls ls' ∧
    shifted (values ls) (values ls')
      (λ k, sumOver internalRange (λ i, face_delta internalK matrixValues i k)
            + sumOver boundaryRange (λ j, face_delta boundaryK matrixValues j k)) ∧
    shifted (rhs ls) (rhs ls')
      (λ k, sumOver internalRange (λ i, face_delta internalK rhsValues i k)
            + sumOver boundaryRange (λ j, face_delta boundaryK rhsValues j k)).
Proof.
  unfold computeDivImp_pre, kernel_in_bounds, indices.
  intros [Hi Hb]%andb_true_iff.
  destruct (forLoop_from_ls_ok internalK _ _ ls Hi) as (ls1 & H1 & HM1 & HR1).
  rewrite <- (proj1 HM1), <- (proj1 HR1) in Hb.
  destruct (forLoop_from_ls_ok boundaryK _ _ ls1 Hb) as (ls2 & H2 & HM2 & HR2).
  exists ls2. split; [by exists ls1|].
  split; eapply shifted_trans; done.
Qed.

(** The internal faces leave the right-hand side alone. *)
Lemma divImp_internal_rhs_delta i c : face_delta internalK rhsValues i c = 0.
Proof.
  unfold face_delta, divImp_internal.
  repeat (match goal with
          | |- context [vget ?v ?j ≫= _] => destruct (vget v j); simpl
          end); done.
Qed.

(** A boundary face takes its fixed-value part from the right-hand side of
    its cell. *)
Lemma divImp_boundary_rhs_delta j c ops :
  boundaryK j = Some ops →
  face_delta boundaryK rhsValues j c
  = - (if decide (vget surfFaceCells (idx_sub j nInternalFaces) = Some c)
       then boundary_rhs_term nInternalFaces sFaceFlux surfFaceCells valueFraction
              refValue operatorScaling j
       else 0).
Proof.
  unfold face_delta, boundary_rhs_term. intros H. rewrite H. simpl.
  unfold divImp_boundary in H.
  destruct (vget sFaceFlux j) as [f|]; simpl in *; [|done].
  destruct (vget surfFaceCells (idx_sub j nInternalFaces)) as [own|]; simpl in *; [|done].
  destruct (vget rowOffs own); simpl in *; [|done].
  destruct (vget diagOffs own); simpl in *; [|done].
  destruct (vget valueFraction (idx_sub j nInternalFaces)); simpl in *; [|done].
  destruct (vget refValue (idx_sub j nInternalFaces)); simpl in *; [|done].
  injection H as <-. unfold ops_on. simpl. unfold op_delta. simpl.
  destruct (decide (own = c)) as [->|Hne].
  - rewrite decide_True by done. ring.
  - rewrite decide_False by congruence. ring.
Qed.


End ComputeDivImpFacts.


(** * The order of the updates of the explicit divergence, and rounding *)

Lemma concat_pending_insert (ts : list Thread) tid t t' o :
  ts !! tid = Some t → pending t = o :: pending t' →
  o :: concat (map pending (<[tid := t']> ts)) ≡ₚ concat (map pending ts).
Proof.
  revert tid. induction ts as [|t0 ts IH]; intros tid Hl Hp; [done|].
  destruct tid as [|tid]; simpl in *.
  - injection Hl as ->. by rewrite Hp.
  - rewrite <- (IH tid Hl Hp). by rewrite Permutation_middle.
Qed.

(** A schedule of threads whose operations are all atomic ran operations of
    the threads one at a time, in some order; what it ran and what is still
    pending are the operations of the threads. *)
Lemma run_schedule_atomic sched mem ts mem' ts' :
  Forall (λ t, Forall (λ o, is_atomic o = true) (pending t)) ts →
  run_schedule sched mem ts = Some (mem', ts') →
  ∃ order, run_ops order mem = Some mem' ∧
    order ++ concat (map pending ts') ≡ₚ concat (map pending ts).
Proof.
  revert mem ts. induction sched as [|tid sched IH]; intros mem ts Hat Hrun; simpl in *.
  - injection Hrun as <- <-. by exists [].
  - destruct (ts !! tid) as [t|] eqn:Hl; [|by apply IH].
    pose proof (Forall_lookup_1 _ _ _ _ Hat Hl) as Ht. simpl in Ht.
    unfold thread_step in Hrun. destruct (pending t) as [|o k] eqn:Hp.
    + simpl in Hrun. rewrite list_insert_id in Hrun by done. by apply IH.
    + apply Forall_cons in Ht as [Ho Hk]. destruct o as [a u|a u]; [|done].
      destruct (run_op (Atomic a u) mem) as [mem1|] eqn:E; simpl in Hrun; [|done].
      destruct (IH mem1 (<[tid := {| reg := None; pending := k |}]> ts))
        as (order & Horder & Hperm); [by apply Forall_insert | done |].
      exists (Atomic a u :: order). simpl. rewrite E. simpl. split; [done|].
      rewrite Hperm. by apply concat_pending_insert with (t := t).
Qed.

Lemma finished_no_pending ts : finished ts → concat (map pending ts) = [].
Proof. induction 1 as [|t ts Ht _ IH]; simpl; [done|]. by rewrite Ht, IH. Qed.

Lemma pending_new_threads opss : map pending (map new_thread opss) = opss.
Proof. induction opss as [|ops opss IH]; simpl; [done | by rewrite IH]. Qed.

(** A dispatch of atomic operations, on any executor: the operations of the
    iterations, one at a time, in index order on the serial executor and in
    the order of the schedule otherwise. *)
Lemma parallelFor_atomic_order exec lo hi kernel mem mem' opss :
  kernel_ops kernel (indices lo hi) = Some opss →
  Forall (Forall (λ o, is_atomic o = true)) opss →
  parallelFor exec lo hi kernel mem mem' →
  ∃ order, order ≡ₚ concat opss ∧ run_ops order mem = Some mem' ∧
    (exec = SerialExecutor → order = concat opss).
Proof.
  intros Hk Hat.
  assert (∀ ts sched ts',
            launch lo hi kernel = Some ts →
            run_schedule sched mem ts = Some (mem', ts') → finished ts' →
            ∃ order, order ≡ₚ concat opss ∧ run_ops order mem = Some mem') as Hpar.
  { intros ts sched ts' Hl Hrun Hfin. unfold launch in Hl. rewrite Hk in Hl.
    injection Hl as <-.
    destruct (run_schedule_atomic sched mem (map new_thread opss) mem' ts')
      as (order & Hrun' & Hperm); [|done|].
    { apply Forall_map. eapply Forall_impl; [done|]. by intros ops. }
    exists order. split; [|done].
    by rewrite (finished_no_pending ts' Hfin), app_nil_r, pending_new_threads in Hperm. }
  destruct exec; simpl.
  - unfold parallelFor_serial, forLoop. unfold indices in Hk.
    rewrite forLoop_from_run_ops, Hk. simpl. intros H. by exists (concat opss).
  - intros (ts & sched & ts' & Hl & Hrun & Hfin).
    destruct (Hpar ts sched ts' Hl Hrun Hfin) as (order & ? & ?). by exists order.
  - intros (ts & sched & ts' & Hl & Hrun & Hfin).
    destruct (Hpar ts sched ts' Hl Hrun Hfin) as (order & ? & ?). by exists order.
Qed.

Lemma updated_unique mem m1 m2 specs :
  updated mem m1 specs → updated mem m2 specs → m1 = m2.
Proof.
  intros (Hsz1 & Hu1 & Hr1) (Hsz2 & Hu2 & Hr2). apply view_eq; [congruence|].
  intros c Hc. rewrite Hsz1 in Hc. destruct (vget_lt mem c Hc) as [r Hr].
  destruct (decide (c ∈ specs.*1)) as [Hin|Hnin].
  - apply list_elem_of_fmap in Hin as ([a u] & -> & Hin). simpl in *.
    by rewrite (Hu1 a u r Hin Hr), (Hu2 a u r Hin Hr).
  - by rewrite Hr1, Hr2.
Qed.

Lemma run_ops_vsize ops mem mem' : run_ops ops mem = Some mem' → vsize mem' = vsize mem.
Proof.
  revert mem. induction ops as [|o ops IH]; intros mem; simpl.
  - by intros [= <-].
  - unfold run_op at 1. destruct (vget mem (op_slot o)) as [r|]; simpl; [|done].
    unfold vset. case_decide; simpl; [|done].
    intros Hrun%IH. by rewrite Hrun, vsize_insert.
Qed.

Section ComputeDivOrder.

Variables (nInternalFaces nBoundaryFaces : localIdx).
Variables (neighbour owner faceCells : View localIdx).
Variables (faceFlux phiF v : View scalar).
Variable (operatorScaling : localIdx → scalar).

Local Abbreviation internalK := (sumFluxesInternal neighbour owner faceFlux phiF).
Local Abbreviation boundaryK := (sumFluxesBoundary nInternalFaces faceCells faceFlux phiF).
Local Abbreviation normalizeK := (normalizeFluxes v operatorScaling).
Local Abbreviation div :=
  (computeDiv nInternalFaces nBoundaryFaces neighbour owner faceCells faceFlux phiF v
     operatorScaling).

(** The normalisation, on any executor, is the normalisation in cell order. *)
Lemma normalize_any_order exec (res2 res' : View scalar) :
  vsize res2 = vsize v →
  parallelFor exec 0 (vsize v) normalizeK res2 res' →
  run_ops (concat (map (λ au, [Plain au.1 au.2])
                     (normalize_specs v operatorScaling (indices 0 (vsize v))))) res2
  = Some res'.
Proof.
  intros Hsz Hpar. set (specs := normalize_specs v operatorScaling (indices 0 (vsize v))).
  assert (NoDup specs.*1) as Hnd.
  { unfold specs. rewrite normalize_specs_slots. apply indices_from_NoDup. }
  assert (Forall (λ au, (au.1 < vsize res2)%N) specs) as Hb.
  { apply normalize_specs_in_bounds; [done | apply indices_lt]. }
  destruct (parallelFor_private exec 0 (vsize v) normalizeK res2 specs) as [_ Hall];
    [apply normalize_kernel_ops, indices_lt | done | done |].
  destruct (run_ops_private specs res2 Hnd Hb) as (resN & Hrun & Hupd).
  rewrite concat_plain_singletons, Hrun. f_equal.
  eapply updated_unique; [done | by apply Hall].
Qed.

(** C3 (as the code has it).  On well-formed arguments every executor returns
    a result, and the branches of [computeDiv] apply the same updates: the
    serial branch runs the updates of the internal faces, of the boundary faces
    and of the cells in index order; the parallel-dispatch branch runs the same
    updates of the internal faces in an order that depends on the schedule,
    then the same updates of the boundary faces in an order that depends on the
    schedule, then the same scaling of every cell.  Nothing is said about the
    equality of the results: the order of the additions to a cell is not the
    same. *)
Theorem computeDiv_backends_same_updates (exec : Executor) (res : View scalar) :
  computeDiv_pre nInternalFaces nBoundaryFaces neighbour owner faceCells
    faceFlux phiF v res = true →
  ∃ opsI opsB opsN,
    dispatch_ops 0 nInternalFaces internalK = Some opsI ∧
    dispatch_ops nInternalFaces (idx_add nInternalFaces nBoundaryFaces) boundaryK
    = Some opsB ∧
    dispatch_ops 0 (vsize v) normalizeK = Some opsN ∧
    (∃ res', div exec res res') ∧
    (∀ res', div SerialExecutor res res' ↔ run_ops (opsI ++ opsB ++ opsN) res = Some res') ∧
    (∀ res', div exec res res' →
       ∃ orderI orderB,
         orderI ≡ₚ opsI ∧ orderB ≡ₚ opsB ∧
         run_ops (orderI ++ orderB ++ opsN) res = Some res').
Proof.
  intros Hpre%computeDiv_pre_facts.
  destruct (internal_kernel_ops _ _ _ _ _ _ _ _ (indices 0 nInternalFaces) res Hpre)
    as (opssI & HkI & HopsI & _); [apply indices_lt|].
  destruct (boundary_kernel_ops _ _ _ _ _ _ _ _
              (indices nInternalFaces (nInternalFaces + nBoundaryFaces)) res Hpre)
    as (opssB & HkB & HopsB & _); [apply indices_between|].
  pose proof (normalize_kernel_ops v operatorScaling (indices 0 (vsize v))
                (indices_lt 0 (vsize v))) as HkN.
  assert (Forall (Forall (λ o, is_atomic o = true)) opssI) as HatI.
  { eapply Forall_impl; [exact HopsI|]. intros ops Hops.
    eapply Forall_impl; [exact Hops|]. by intros o [? _]. }
  assert (Forall (Forall (λ o, is_atomic o = true)) opssB) as HatB.
  { eapply Forall_impl; [exact HopsB|]. intros ops Hops.
    eapply Forall_impl; [exact Hops|]. by intros o [? _]. }
  set (opsN := concat (map (λ au : localIdx * Update, [Plain au.1 au.2])
                         (normalize_specs v operatorScaling (indices 0 (vsize v))))).
  exists (concat opssI), (concat opssB), opsN.
  unfold dispatch_ops. rewrite (idx_add_faces _ _ _ _ _ _ _ _ res Hpre), HkI, HkB, HkN.
  assert (Hserial : ∀ res',
            div SerialExecutor res res'
            ↔ run_ops (concat opssI ++ concat opssB ++ opsN) res = Some res').
  { intros res'. simpl. unfold computeDiv_serial, forLoop.
    rewrite (idx_add_faces _ _ _ _ _ _ _ _ res Hpre).
    unfold indices in HkI, HkB, HkN.
    rewrite (forLoop_from_ext _ _ _ _ _
               (serial_internal_body_kernel neighbour owner faceFlux phiF)).
    rewrite forLoop_from_run_ops, HkI. simpl. rewrite run_ops_app.
    destruct (run_ops (concat opssI) res) as [res1|]; simpl; [|done].
    rewrite (forLoop_from_ext _ _ _ _ _
               (serial_boundary_body_kernel nInternalFaces faceCells faceFlux phiF)).
    rewrite forLoop_from_run_ops, HkB. simpl. rewrite run_ops_app.
    destruct (run_ops (concat opssB) res1) as [res2|]; simpl; [|done].
    rewrite (forLoop_from_ext _ _ _ _ _
               (serial_normalize_body_kernel v operatorScaling)).
    by rewrite forLoop_from_run_ops, HkN. }
  assert (Hparallel : ∀ e res1 res2 res',
            parallelFor e 0 nInternalFaces internalK res res1 →
            parallelFor e nInternalFaces (nInternalFaces + nBoundaryFaces) boundaryK
              res1 res2 →
            parallelFor e 0 (vsize v) normalizeK res2 res' →
            ∃ orderI orderB,
              orderI ≡ₚ concat opssI ∧ orderB ≡ₚ concat opssB ∧
              run_ops (orderI ++ orderB ++ opsN) res = Some res').
  { intros e res1 res2 res' H1 H2 H3.
    destruct (parallelFor_atomic_order e _ _ _ res res1 opssI HkI HatI H1)
      as (orderI & HpI & HrunI & _).
    destruct (parallelFor_atomic_order e _ _ _ res1 res2 opssB HkB HatB H2)
      as (orderB & HpB & HrunB & _).
    exists orderI, orderB. split; [done|]. split; [done|].
    rewrite run_ops_app, HrunI. simpl. rewrite run_ops_app, HrunB. simpl.
    apply (normalize_any_order e); [|done].
    rewrite (run_ops_vsize _ _ _ HrunB), (run_ops_vsize _ _ _ HrunI).
    apply (pf_res res Hpre). }
  split; [done|]. split; [done|]. split; [done|].
  split; [apply (computeDiv_result _ _ _ _ _ _ _ _ operatorScaling exec res Hpre)|].
  split; [exact Hserial|].
  intros res' Hdiv. destruct exec.
  - exists (concat opssI), (concat opssB). split; [done|]. split; [done|].
    by apply Hserial.
  - destruct Hdiv as (res1 & res2 & H1 & H2 & H3).
    rewrite (idx_add_faces _ _ _ _ _ _ _ _ res Hpre) in H2. by eapply Hparallel.
  - destruct Hdiv as (res1 & res2 & H1 & H2 & H3).
    rewrite (idx_add_faces _ _ _ _ _ _ _ _ res Hpre) in H2. by eapply Hparallel.
Qed.

End ComputeDivOrder.

Lemma computeDiv_backends_same_updates_witness :
  let neighbour := [1; 2]%N in
  let owner := [0; 1]%N in
  let faceCells := [0; 2]%N in
  let faceFlux := [Q2Qc 2; Q2Qc 3; Q2Qc 5; Q2Qc 7] in
  let phiF := [Q2Qc 1; Q2Qc (1 # 2); Q2Qc 1; Q2Qc 1] in
  let v := [Q2Qc 1; Q2Qc 2; Q2Qc 4] in
  let res := [Q2Qc 1; Q2Qc 0; Q2Qc (-3)] in
  let div := computeDiv 2%N 2%N neighbour owner faceCells faceFlux phiF v (λ c, Q2Qc 2) in
  ∃ opsI opsB opsN,
    dispatch_ops 0 2 (sumFluxesInternal neighbour owner faceFlux phiF) = Some opsI ∧
    dispatch_ops 2 (idx_add 2%N 2%N) (sumFluxesBoundary 2%N faceCells faceFlux phiF)
    = Some opsB ∧
    dispatch_ops 0 (vsize v) (normalizeFluxes v (λ c, Q2Qc 2)) = Some opsN ∧
    (∃ res', div GPUExecutor res res') ∧
    (∀ res', div SerialExecutor res res' ↔ run_ops (opsI ++ opsB ++ opsN) res = Some res') ∧
    (∀ res', div GPUExecutor res res' →
       ∃ orderI orderB,
         orderI ≡ₚ opsI ∧ orderB ≡ₚ opsB ∧
         run_ops (orderI ++ orderB ++ opsN) res = Some res').
Proof. intros. apply computeDiv_backends_same_updates. reflexivity. Defined.

(** C3, counterexample.  In double precision the results of the two branches
    differ.  One cell with four boundary faces of flux [10^16], [1], [-10^16]
    and [-1]: the serial branch adds in face order, [(0 + 10^16) + 1] rounds
    to [10^16], and returns [-1]; on the host-parallel executor the schedule
    that runs the atomic additions of the faces [0], [2], [1], [3] in this
    order returns [0]. *)
Lemma computeDiv_backend_rounding_counterexample :
  let div :=
    Double.computeDiv Double.FourFaces.nInternalFaces Double.FourFaces.nBoundaryFaces
      Double.FourFaces.neighbour Double.FourFaces.owner Double.FourFaces.faceCells
      Double.FourFaces.faceFlux Double.FourFaces.phiF Double.FourFaces.v
      Double.FourFaces.operatorScaling in
  div SerialExecutor Double.FourFaces.res [(-1)%float] ∧
  div CPUExecutor Double.FourFaces.res [0%float] ∧
  [(-1)%float] ≠ [0%float].
Proof.
  split; [reflexivity|]. split.
  - exists [0%float], [0%float]. split; [|split].
    + exists [], [], []. split; [reflexivity|]. split; [reflexivity | constructor].
    + eexists _, [0; 2; 1; 3]%nat, _. split; [reflexivity|].
      split; [reflexivity|]. repeat constructor.
    + eexists _, [0; 0]%nat, _. split; [reflexivity|].
      split; [reflexivity|]. repeat constructor.
  - intros H.
    pose proof (f_equal (λ l, match l with
                              | [x] => PrimFloat.eqb x 0%float
                              | _ => false
                              end) H) as H'.
    vm_compute in H'. discriminate.
Qed.
